(** * dxlog sink delivery subsystem: rotating file sink and batch sink

    A shallow embedding of [runtime/sink/policy/rotation.go] (the rotating
    file sink) and of the batching wrapper of the same package (the
    [batchSink]), together with the properties of the delivery layer that
    the specification states about them.

    Conventions of the embedding.
    - Go's [int], [int64] and [time.Duration] are 64-bit two's-complement
      integers: they are values of [Z] and every arithmetic result goes
      through [wrap64].
    - [time.Time] is the number of nanoseconds since the Unix epoch, a [Z];
      [Time.Sub] saturates as the standard library documents.
    - The file system is the directory [filepath.Dir(path)] of the sink, a
      finite map from entry names to files.  Every operating-system call is
      appended to a log and may fail: a schedule of faults, one queue per
      kind of call, is part of the world.
    - [ctx.Err()] is all a sink reads of a context: a context is the
      optional error it reports. *)

From Stdlib Require Import ZArith Lia Bool List Ascii String Permutation Sorted.
From stdpp Require Import base decidable countable gmap strings list fin_maps sorting.

Local Open Scope Z_scope.

(** ** Machine integers *)

Definition max_int64 : Z := 9223372036854775807.
Definition min_int64 : Z := -9223372036854775808.

(** The value a 64-bit signed register holds after an operation whose
    mathematical result is [z]. *)
Definition wrap64 (z : Z) : Z :=
  (z + 9223372036854775808) mod 18446744073709551616 - 9223372036854775808.

Definition in_int64 (z : Z) : Prop := min_int64 <= z <= max_int64.

Definition add64 (a b : Z) : Z := wrap64 (a + b).
Definition mul64 (a b : Z) : Z := wrap64 (a * b).

(** ** Errors and contexts *)

Inductive error : Type :=
| ErrRotationClosed            (* "sink/rotation: closed" *)
| ErrRotationNoPath            (* "sink/rotation: empty path" *)
| ErrQueueFull                 (* "sink/policy: async queue full" *)
| ErrBatchClosed               (* "sink/policy: batch sink closed" *)
| Canceled                     (* context.Canceled *)
| DeadlineExceeded             (* context.DeadlineExceeded *)
| ErrInvalid                   (* os.ErrInvalid *)
| ErrNotExist                  (* os.ErrNotExist *)
| Errno (code : nat).          (* any other error of the operating system *)

#[global] Instance error_eq_dec : EqDecision error.
Proof. solve_decision. Defined.

(** [ctx_Err ctx] is [ctx.Err()]: [None] while the context is live. *)
Record Context : Type := mkContext { ctx_Err : option error }.

Definition Background : Context := mkContext None.

(** ** Time *)

Definition Time : Type := Z.
Definition Duration : Type := Z.

Definition Hour : Duration := 3600000000000.

(** [t.Sub(u)]: the difference, clamped to the range of a [Duration]. *)
Definition time_Sub (t u : Time) : Duration :=
  if t - u >? max_int64 then max_int64
  else if t - u <? min_int64 then min_int64
  else t - u.

Definition time_Before (t u : Time) : bool := t <? u.

(** ** Declarative policies ([apis/sink/policy], imported as [spolicy]) *)

Module spolicy.

Record Rotation : Type := mkRotation {
  MaxSizeMB : Z;
  MaxAgeDays : Z;
  MaxBackups : Z;
  Compress : bool
}.

Inductive Backpressure : Type :=
| BackpressureBlock
| BackpressureDrop
| BackpressureShed
| BackpressureOther (v : nat).   (* a uint8 above 2 *)

Record Batch : Type := mkBatch {
  MaxEntries : Z;
  Interval : Duration
}.

End spolicy.

(** ** Strings and paths *)

Fixpoint strip_trailing_slashes_rev (r : list ascii) : list ascii :=
  match r with
  | c :: r' => if Ascii.eqb c "/"%char then strip_trailing_slashes_rev r' else r
  | [] => []
  end.

Fixpoint take_until_slash (r : list ascii) : list ascii :=
  match r with
  | c :: r' => if Ascii.eqb c "/"%char then [] else c :: take_until_slash r'
  | [] => []
  end.

(** [filepath.Base] on a Unix path. *)
Definition filepath_Base (path : string) : string :=
  if String.eqb path EmptyString then "."%string
  else
    let r := strip_trailing_slashes_rev (rev (list_ascii_of_string path)) in
    let last := rev (take_until_slash r) in
    match last with
    | [] => "/"%string
    | _ => string_of_list_ascii last
    end.

(** [strings.HasPrefix(s, prefix)]. *)
Definition HasPrefix (s prefix : string) : bool := String.prefix prefix s.

(** Decimal rendering of [n] on exactly [width] digits. *)
Fixpoint digits (width : nat) (n : Z) : string :=
  match width with
  | O => EmptyString
  | S k => (digits k (n / 10) ++ String (ascii_of_nat (48 + Z.to_nat (n mod 10))) EmptyString)%string
  end.

(** The number of decimal digits of [n], for [0 <= n < 10 ^ (fuel + 1)]. *)
Fixpoint decimal_width (fuel : nat) (n : Z) : nat :=
  match fuel with
  | O => 1
  | S k => if n <? 10 then 1 else S (decimal_width k (n / 10))
  end.

(** [appendInt(b, x, width)] of package [time], by which [Format] prints
    every number: a minus sign when [x] is negative, then the decimal
    digits of its magnitude, padded with zeros up to [width] and never
    cut.  A year prints on four digits from 0 to 9999, on more above, and
    with a sign below. *)
Definition appendInt (x : Z) (width : nat) : string :=
  let u := Z.abs x in
  let sign := if x <? 0 then "-"%string else EmptyString in
  (sign ++ digits (Nat.max width (decimal_width (Z.to_nat (Z.log2 u)) u)) u)%string.

(** The date, in the proleptic Gregorian calendar, of the day that comes
    [days] days after 1970-01-01: year, month and day of the month. *)
Definition civil_of_days (days : Z) : Z * Z * Z :=
  let z := days + 719468 in
  let era := z / 146097 in
  let doe := z - era * 146097 in
  let yoe := (doe - doe / 1460 + doe / 36524 - doe / 146096) / 365 in
  let doy := doe - (365 * yoe + yoe / 4 - yoe / 100) in
  let mp := (5 * doy + 2) / 153 in
  let d := doy - (153 * mp + 2) / 5 + 1 in
  let m := if mp <? 10 then mp + 3 else mp - 9 in
  let y := yoe + era * 400 + (if m <=? 2 then 1 else 0) in
  (y, m, d).

(** [t.UTC().Format("20060102-150405")] for a time in nanoseconds since the
    epoch: the date of the day and the time of day. *)
Definition format_stamp (t : Time) : string :=
  let secs := t / 1000000000 in
  let rem := secs mod 86400 in
  let '(y, m, d) := civil_of_days (secs / 86400) in
  (appendInt y 4 ++ appendInt m 2 ++ appendInt d 2 ++ "-" ++
   appendInt (rem / 3600) 2 ++ appendInt (rem mod 3600 / 60) 2 ++
   appendInt (rem mod 60) 2)%string.

(** [rotatedFilename]: the entry name of the backup, in the directory of
    the active file. *)
Definition rotatedFilename (basePath : string) (t : Time) : string :=
  (filepath_Base basePath ++ "." ++ format_stamp t)%string.


(** ** Sorting, as [sort.Slice] and [os.ReadDir] use it

    An insertion sort.  [sort.Slice] promises a sorted permutation and
    nothing about the order of elements that compare equal. *)

Section Sorting.
Context {A : Type} (less : A -> A -> bool).

Fixpoint insert_sorted (x : A) (l : list A) : list A :=
  match l with
  | [] => [x]
  | y :: l' => if less y x then y :: insert_sorted x l' else x :: y :: l'
  end.

Definition sort_slice (l : list A) : list A := foldr insert_sorted [] l.
End Sorting.

(** ** The world: one directory, a clock, and the operating system *)

Record File : Type := mkFile {
  f_data : list Byte.byte;
  f_modTime : Time;
  f_perm : Z
}.

Record FileInfo : Type := mkFileInfo {
  fi_Size : Z;
  fi_ModTime : Time
}.

(** An open [*os.File]: the entry it was opened on and the open flags. *)
Record handle : Type := mkHandle {
  h_name : string;
  h_flag : Z
}.

Definition O_RDONLY : Z := 0.
Definition O_WRONLY : Z := 1.
Definition O_CREATE : Z := 64.
Definition O_TRUNC : Z := 512.
Definition O_APPEND : Z := 1024.

Inductive syscall : Type :=
| SysMkdirAll | SysOpenFile | SysFstat | SysStat | SysRename | SysWrite
| SysSync | SysClose | SysReadDir | SysInfo | SysRemove | SysOpen | SysGzip.

#[global] Instance syscall_eq_dec : EqDecision syscall.
Proof. solve_decision. Defined.

Definition syscall_code (k : syscall) : nat :=
  match k with
  | SysMkdirAll => 0 | SysOpenFile => 1 | SysFstat => 2 | SysStat => 3
  | SysRename => 4 | SysWrite => 5 | SysSync => 6 | SysClose => 7
  | SysReadDir => 8 | SysInfo => 9 | SysRemove => 10 | SysOpen => 11
  | SysGzip => 12
  end%nat.

Definition syscall_of_code (n : nat) : syscall :=
  match n with
  | 0 => SysMkdirAll | 1 => SysOpenFile | 2 => SysFstat | 3 => SysStat
  | 4 => SysRename | 5 => SysWrite | 6 => SysSync | 7 => SysClose
  | 8 => SysReadDir | 9 => SysInfo | 10 => SysRemove | 11 => SysOpen
  | _ => SysGzip
  end%nat.

#[global] Instance syscall_countable : Countable syscall.
Proof.
  apply (inj_countable' syscall_code syscall_of_code).
  intros []; reflexivity.
Defined.

(** The calls the sink makes, with their arguments, as the log keeps them. *)
Inductive oscall : Type :=
| CallMkdirAll (mode : Z)
| CallOpenFile (name : string) (flag : Z) (mode : Z)
| CallFstat (name : string)
| CallStat (name : string)
| CallRename (old new : string)
| CallWrite (name : string) (bytes : list Byte.byte)
| CallSync (name : string)
| CallClose (name : string)
| CallReadDir
| CallInfo (name : string)
| CallRemove (name : string)
| CallOpen (name : string)
| CallGzip (src dst : string).

(** A scheduled failure of one call.  [Short n e] is a write that stores
    [n] bytes and then fails; every other call reads it as [Fail e]. *)
Inductive fault : Type :=
| Fail (e : error)
| Short (n : nat) (e : error).

Definition fault_error (f : fault) : error :=
  match f with Fail e => e | Short _ e => e end.

Record World : Type := mkWorld {
  w_dir : gmap string File;
  w_clock : Time;
  w_umask : Z;
  w_faults : gmap syscall (list fault);
  w_log : list oscall
}.

Definition set_dir (d : gmap string File) (w : World) : World :=
  mkWorld d (w_clock w) (w_umask w) (w_faults w) (w_log w).

Definition set_faults (f : gmap syscall (list fault)) (w : World) : World :=
  mkWorld (w_dir w) (w_clock w) (w_umask w) f (w_log w).

Definition record_call (c : oscall) (w : World) : World :=
  mkWorld (w_dir w) (w_clock w) (w_umask w) (w_faults w) (w_log w ++ [c]).

(** Entering a call: it is logged, and the next scheduled fault of its
    kind, if there is one, is taken off the schedule. *)
Definition enter (k : syscall) (c : oscall) (w : World) : option fault * World :=
  let w1 := record_call c w in
  match w_faults w1 !! k with
  | Some (f :: rest) => (Some f, set_faults (<[k := rest]> (w_faults w1)) w1)
  | _ => (None, w1)
  end.

Inductive result (A : Type) : Type :=
| Ok (a : A)
| Err (e : error).
Arguments Ok {A} a.
Arguments Err {A} e.

Definition time_Now (w : World) : Time := w_clock w.

Definition info_of (f : File) : FileInfo :=
  mkFileInfo (Z.of_nat (length (f_data f))) (f_modTime f).

Definition os_MkdirAll (mode : Z) (w : World) : World * option error :=
  match enter SysMkdirAll (CallMkdirAll mode) w with
  | (Some ft, w1) => (w1, Some (fault_error ft))
  | (None, w1) => (w1, None)
  end.

Definition os_OpenFile (name : string) (flag mode : Z) (w : World)
  : World * result handle :=
  match enter SysOpenFile (CallOpenFile name flag mode) w with
  | (Some ft, w1) => (w1, Err (fault_error ft))
  | (None, w1) =>
    match w_dir w1 !! name with
    | Some f =>
      if Z.land flag O_TRUNC =? 0 then (w1, Ok (mkHandle name flag))
      else (set_dir (<[name := mkFile [] (w_clock w1) (f_perm f)]> (w_dir w1)) w1,
            Ok (mkHandle name flag))
    | None =>
      if Z.land flag O_CREATE =? 0 then (w1, Err ErrNotExist)
      else (set_dir (<[name := mkFile [] (w_clock w1) (Z.ldiff mode (w_umask w1))]>
                       (w_dir w1)) w1,
            Ok (mkHandle name flag))
    end
  end.

Definition os_Open (name : string) (w : World) : World * result handle :=
  match enter SysOpen (CallOpen name) w with
  | (Some ft, w1) => (w1, Err (fault_error ft))
  | (None, w1) =>
    match w_dir w1 !! name with
    | Some _ => (w1, Ok (mkHandle name O_RDONLY))
    | None => (w1, Err ErrNotExist)
    end
  end.

Definition file_Stat (h : handle) (w : World) : World * result FileInfo :=
  match enter SysFstat (CallFstat (h_name h)) w with
  | (Some ft, w1) => (w1, Err (fault_error ft))
  | (None, w1) =>
    match w_dir w1 !! h_name h with
    | Some f => (w1, Ok (info_of f))
    | None => (w1, Err ErrNotExist)
    end
  end.

(** The bytes a write stores: all of them, or the prefix the fault allows. *)
Definition stored (ft : option fault) (bytes : list Byte.byte) : list Byte.byte :=
  match ft with
  | None => bytes
  | Some (Fail _) => []
  | Some (Short n _) => take n bytes
  end.

Definition append_to (name : string) (bytes : list Byte.byte) (w : World) : World :=
  match bytes, w_dir w !! name with
  | _ :: _, Some f =>
    set_dir (<[name := mkFile (f_data f ++ bytes) (w_clock w) (f_perm f)]> (w_dir w)) w
  | _, _ => w
  end.

(** [f.Write(b)] on a file opened with [O_APPEND]: the count of bytes
    stored and the error, if any. *)
Definition file_Write (h : handle) (bytes : list Byte.byte) (w : World)
  : World * (Z * option error) :=
  match enter SysWrite (CallWrite (h_name h) bytes) w with
  | (ft, w1) =>
    let done := stored ft bytes in
    (append_to (h_name h) done w1,
     (Z.of_nat (length done), fault_error <$> ft))
  end.

Definition file_Sync (h : handle) (w : World) : World * option error :=
  match enter SysSync (CallSync (h_name h)) w with
  | (ft, w1) => (w1, fault_error <$> ft)
  end.

Definition file_Close (h : handle) (w : World) : World * option error :=
  match enter SysClose (CallClose (h_name h)) w with
  | (ft, w1) => (w1, fault_error <$> ft)
  end.

Definition os_Stat (name : string) (w : World) : World * result FileInfo :=
  match enter SysStat (CallStat name) w with
  | (Some ft, w1) => (w1, Err (fault_error ft))
  | (None, w1) =>
    match w_dir w1 !! name with
    | Some f => (w1, Ok (info_of f))
    | None => (w1, Err ErrNotExist)
    end
  end.

Definition os_Rename (old new : string) (w : World) : World * option error :=
  match enter SysRename (CallRename old new) w with
  | (Some ft, w1) => (w1, Some (fault_error ft))
  | (None, w1) =>
    match w_dir w1 !! old with
    | Some f => (set_dir (<[new := f]> (delete old (w_dir w1))) w1, None)
    | None => (w1, Some ErrNotExist)
    end
  end.

Definition os_Remove (name : string) (w : World) : World * option error :=
  match enter SysRemove (CallRemove name) w with
  | (Some ft, w1) => (w1, Some (fault_error ft))
  | (None, w1) =>
    match w_dir w1 !! name with
    | Some _ => (set_dir (delete name (w_dir w1)) w1, None)
    | None => (w1, Some ErrNotExist)
    end
  end.

(** [os.ReadDir]: the entry names of the directory, sorted by name. *)
Definition os_ReadDir (w : World) : World * result (list string) :=
  match enter SysReadDir CallReadDir w with
  | (Some ft, w1) => (w1, Err (fault_error ft))
  | (None, w1) => (w1, Ok (sort_slice String.ltb (fst <$> map_to_list (w_dir w1))))
  end.

(** [DirEntry.Info()]. *)
Definition entry_Info (name : string) (w : World) : World * result FileInfo :=
  match enter SysInfo (CallInfo name) w with
  | (Some ft, w1) => (w1, Err (fault_error ft))
  | (None, w1) =>
    match w_dir w1 !! name with
    | Some f => (w1, Ok (info_of f))
    | None => (w1, Err ErrNotExist)
    end
  end.

(** ** The rotating file sink ([runtime/sink/policy/rotation.go]) *)

Module RotatingFile.

Record FileRotationOptions : Type := mkOptions {
  Path : string;
  Policy : spolicy.Rotation;
  OptName : string;       (* the field [Name] *)
  FileMode : Z
}.

Record rotatingFileSink : Type := mkSink {
  path : string;
  opt : FileRotationOptions;
  file : option handle;
  size : Z;
  created : Time;
  closed : bool
}.

Definition set_file (f : option handle) (s : rotatingFileSink) : rotatingFileSink :=
  mkSink (path s) (opt s) f (size s) (created s) (closed s).

Definition set_size (n : Z) (s : rotatingFileSink) : rotatingFileSink :=
  mkSink (path s) (opt s) (file s) n (created s) (closed s).

Definition set_closed (b : bool) (s : rotatingFileSink) : rotatingFileSink :=
  mkSink (path s) (opt s) (file s) (size s) (created s) b.

(** The zero [time.Time], January 1 of year 1, in nanoseconds since 1970. *)
Definition time_zero : Time := -62135596800000000000.

Record backup : Type := mkBackup {
  b_path : string;
  b_modTime : Time
}.

Definition normalizeRotationPolicy (p : spolicy.Rotation) : spolicy.Rotation :=
  let p1 := if spolicy.MaxSizeMB p <? 0
            then spolicy.mkRotation 0 (spolicy.MaxAgeDays p) (spolicy.MaxBackups p) (spolicy.Compress p) else p in
  let p2 := if spolicy.MaxAgeDays p1 <? 0
            then spolicy.mkRotation (spolicy.MaxSizeMB p1) 0 (spolicy.MaxBackups p1) (spolicy.Compress p1) else p1 in
  if spolicy.MaxBackups p2 <? 0
  then spolicy.mkRotation (spolicy.MaxSizeMB p2) (spolicy.MaxAgeDays p2) 0 (spolicy.Compress p2) else p2.

(** The flags of the active file: [os.O_CREATE|os.O_APPEND|os.O_WRONLY]. *)
Definition active_flags : Z := Z.lor (Z.lor O_CREATE O_APPEND) O_WRONLY.

Definition openCurrent (w : World) (s : rotatingFileSink)
  : World * rotatingFileSink * option error :=
  match os_MkdirAll 493 (* 0o755 *) w with
  | (w1, Some e) => (w1, s, Some e)
  | (w1, None) =>
    match os_OpenFile (filepath_Base (path s)) active_flags (FileMode (opt s)) w1 with
    | (w2, Err e) => (w2, s, Some e)
    | (w2, Ok f) =>
      match file_Stat f w2 with
      | (w3, Err e) => (fst (file_Close f w3), s, Some e)
      | (w3, Ok info) =>
        (w3, mkSink (path s) (opt s) (Some f) (fi_Size info) (fi_ModTime info) (closed s),
         None)
      end
    end
  end.

Definition NewRotatingFileSink (o : FileRotationOptions) (w : World)
  : World * result rotatingFileSink :=
  if String.eqb (Path o) EmptyString then (w, Err ErrRotationNoPath)
  else
    let o1 := mkOptions (Path o) (normalizeRotationPolicy (Policy o)) (OptName o) (FileMode o) in
    let o2 := if FileMode o1 =? 0
              then mkOptions (Path o1) (Policy o1) (OptName o1) 416 (* 0o640 *) else o1 in
    let s := mkSink (Path o2) o2 None 0 time_zero false in
    match openCurrent w s with
    | (w1, _, Some e) => (w1, Err e)
    | (w1, s1, None) => (w1, Ok s1)
    end.

Definition Name (s : rotatingFileSink) : string :=
  if negb (String.eqb (OptName (opt s)) EmptyString) then OptName (opt s)
  else ("file(" ++ filepath_Base (path s) ++ ")")%string.

(** [shouldRotate], in the arithmetic of the machine. *)
Definition shouldRotate (s : rotatingFileSink) (now : Time) (incomingBytes : Z) : bool :=
  let p := Policy (opt s) in
  if (0 <? spolicy.MaxSizeMB p) &&
     (add64 (size s) incomingBytes >? mul64 (mul64 (spolicy.MaxSizeMB p) 1024) 1024)
  then true
  else if (0 <? spolicy.MaxAgeDays p) &&
          (time_Sub now (created s) >=? mul64 (mul64 (spolicy.MaxAgeDays p) 24) Hour)
  then true
  else false.

Fixpoint collect_backups (prefix : string) (entries : list string) (w : World)
    (backups : list backup) : World * list backup :=
  match entries with
  | [] => (w, backups)
  | name :: rest =>
    if negb (HasPrefix name prefix) then collect_backups prefix rest w backups
    else
      match entry_Info name w with
      | (w1, Err _) => collect_backups prefix rest w1 backups
      | (w1, Ok info) =>
        collect_backups prefix rest w1 (backups ++ [mkBackup name (fi_ModTime info)])
      end
  end.

Fixpoint remove_each (toDelete : list backup) (w : World) : World :=
  match toDelete with
  | [] => w
  | b :: rest => remove_each rest (fst (os_Remove (b_path b) w))   (* best-effort *)
  end.

Definition pruneBackups (basePath : string) (maxBackups : Z) (w : World)
  : World * option error :=
  if maxBackups <=? 0 then (w, None)
  else
    let prefix := (filepath_Base basePath ++ ".")%string in
    match os_ReadDir w with
    | (w1, Err e) => (w1, Some e)
    | (w1, Ok entries) =>
      match collect_backups prefix entries w1 [] with
      | (w2, backups) =>
        if Z.of_nat (length backups) <=? maxBackups then (w2, None)
        else
          let sorted :=
            sort_slice (fun a b => time_Before (b_modTime a) (b_modTime b)) backups in
          let toDelete := take (length backups - Z.to_nat maxBackups)%nat sorted in
          (remove_each toDelete w2, None)
      end
    end.

Section WithGzip.

(** The compressor of [compress/gzip], a library outside the repository:
    the bytes of the gzip stream of a file's content. *)
Variable gzip : list Byte.byte -> list Byte.byte.

(** [io.Copy(gw, src)] followed by [gw.Close()]: the stream, or under a
    fault a prefix of it, lands in the destination. *)
Definition gzip_copy (src dst : handle) (w : World) : World * option error :=
  match enter SysGzip (CallGzip (h_name src) (h_name dst)) w with
  | (ft, w1) =>
    let payload := match w_dir w1 !! h_name src with
                   | Some f => f_data f
                   | None => []
                   end in
    (append_to (h_name dst) (stored ft (gzip payload)) w1, fault_error <$> ft)
  end.

(** The two deferred calls of [compressFile]: [dst.Close()], [src.Close()]. *)
Definition close_both (src dst : handle) (w : World) : World :=
  fst (file_Close src (fst (file_Close dst w))).

Definition compressFile (srcPath : string) (w : World) : World * option error :=
  match os_Open srcPath w with
  | (w1, Err e) => (w1, Some e)
  | (w1, Ok src) =>
    match os_OpenFile (srcPath ++ ".gz")%string
                      (Z.lor (Z.lor O_CREATE O_WRONLY) O_TRUNC) 416 w1 with
    | (w2, Err e) => (fst (file_Close src w2), Some e)
    | (w2, Ok dst) =>
      match gzip_copy src dst w2 with
      | (w3, Some e) => (close_both src dst w3, Some e)
      | (w3, None) =>
        match os_Remove srcPath w3 with
        | (w4, r) => (close_both src dst w4, r)
        end
      end
    end
  end.

Definition rotateLocked (w : World) (s : rotatingFileSink)
  : World * rotatingFileSink * option error :=
  let '(w1, s1) :=
    match file s with
    | Some f => (fst (file_Close f w), set_file None s)
    | None => (w, s)
    end in
  match os_Stat (filepath_Base (path s1)) w1 with
  | (w2, Ok _) =>
    let backup := rotatedFilename (path s1) (time_Now w2) in
    match os_Rename (filepath_Base (path s1)) backup w2 with
    | (w3, Some e) => (w3, s1, Some e)
    | (w3, None) =>
      let w4 := if spolicy.Compress (Policy (opt s1)) then fst (compressFile backup w3) else w3 in
      let w5 := if 0 <? spolicy.MaxBackups (Policy (opt s1))
                then fst (pruneBackups (path s1) (spolicy.MaxBackups (Policy (opt s1))) w4)
                else w4 in
      openCurrent w5 s1
    end
  | (w2, Err _) => openCurrent w2 s1
  end.

(** The last step of [Write]: append, then count what was stored.  A nil
    [*os.File] answers [os.ErrInvalid] with no byte written. *)
Definition appendEntry (entry : list Byte.byte) (w : World) (s : rotatingFileSink)
  : World * rotatingFileSink * option error :=
  match file s with
  | Some f =>
    match file_Write f entry w with
    | (w1, (n, err)) => (w1, set_size (add64 (size s) n) s, err)
    end
  | None => (w, set_size (add64 (size s) 0) s, Some ErrInvalid)
  end.

Definition Write (ctx : Context) (entry : list Byte.byte) (w : World)
    (s : rotatingFileSink) : World * rotatingFileSink * option error :=
  match ctx_Err ctx with
  | Some e => (w, s, Some e)
  | None =>
    if closed s then (w, s, Some ErrRotationClosed)
    else
      match (match file s with
             | None => openCurrent w s
             | Some _ => (w, s, None)
             end) with
      | (w1, s1, Some e) => (w1, s1, Some e)
      | (w1, s1, None) =>
        if shouldRotate s1 (time_Now w1) (Z.of_nat (length entry)) then
          match rotateLocked w1 s1 with
          | (w2, s2, Some e) => (w2, s2, Some e)
          | (w2, s2, None) => appendEntry entry w2 s2
          end
        else appendEntry entry w1 s1
      end
  end.

Definition Flush (ctx : Context) (w : World) (s : rotatingFileSink)
  : World * rotatingFileSink * option error :=
  match ctx_Err ctx with
  | Some e => (w, s, Some e)
  | None =>
    if closed s then (w, s, Some ErrRotationClosed)
    else
      match file s with
      | None => (w, s, None)
      | Some f => match file_Sync f w with (w1, r) => (w1, s, r) end
      end
  end.

Definition Close (ctx : Context) (w : World) (s : rotatingFileSink)
  : World * rotatingFileSink * option error :=
  if closed s then (w, s, None)
  else
    let s1 := set_closed true s in
    match file s1 with
    | Some f => match file_Close f w with (w1, r) => (w1, set_file None s1, r) end
    | None => (w, s1, None)
    end.

End WithGzip.

End RotatingFile.

(** ** The sink contract ([apis/sink]) *)

(** [asink.Sink]: an implementation is a type of states with the four
    methods; each call returns the next state and the error. *)
Class Sink (S : Type) : Type := {
  sink_Name : S -> string;
  sink_Write : Context -> list Byte.byte -> S -> S * option error;
  sink_Flush : Context -> S -> S * option error;
  sink_Close : Context -> S -> S * option error
}.

(** The rotating file sink implements the contract; its state is the sink
    together with the world it acts on. *)
#[export] Instance rotating_Sink (gzip : list Byte.byte -> list Byte.byte)
  : Sink (World * RotatingFile.rotatingFileSink) := {
  sink_Name := fun st => RotatingFile.Name (snd st);
  sink_Write := fun ctx e st =>
    match RotatingFile.Write gzip ctx e (fst st) (snd st) with
    | (w, s, r) => ((w, s), r)
    end;
  sink_Flush := fun ctx st =>
    match RotatingFile.Flush ctx (fst st) (snd st) with
    | (w, s, r) => ((w, s), r)
    end;
  sink_Close := fun ctx st =>
    match RotatingFile.Close ctx (fst st) (snd st) with
    | (w, s, r) => ((w, s), r)
    end
}.

(** The calls a sink receives. *)
Inductive sinkcall : Type :=
| GotWrite (entry : list Byte.byte)
| GotFlush
| GotClose.

(** A sink that keeps the list of the calls made on it, in order, and hands
    each call on to the sink it observes. *)
Record Traced (S : Type) : Type := mkTraced {
  observed : S;
  calls : list sinkcall
}.
Arguments mkTraced {S} observed calls.
Arguments observed {S} t.
Arguments calls {S} t.

#[export] Instance traced_Sink {S : Type} `{Sink S} : Sink (Traced S) := {
  sink_Name := fun t => sink_Name (observed t);
  sink_Write := fun ctx e t =>
    match sink_Write ctx e (observed t) with
    | (s, r) => (mkTraced s (calls t ++ [GotWrite e]), r)
    end;
  sink_Flush := fun ctx t =>
    match sink_Flush ctx (observed t) with
    | (s, r) => (mkTraced s (calls t ++ [GotFlush]), r)
    end;
  sink_Close := fun ctx t =>
    match sink_Close ctx (observed t) with
    | (s, r) => (mkTraced s (calls t ++ [GotClose]), r)
    end
}.

(** The entries of the [Write] calls of a trace, in order. *)
Definition written (cs : list sinkcall) : list (list Byte.byte) :=
  omap (fun c => match c with GotWrite e => Some e | _ => None end) cs.

(** ** The batch sink *)

Module BatchSink.

Record BatchOptions : Type := mkOptions {
  QueueSize : Z;
  Batch : spolicy.Batch;
  Backpressure : spolicy.Backpressure;
  OptName : string        (* the field [Name] *)
}.

Section WithNext.

Context {I : Type} `{Sink I}.

(** The fields of [batchSink].  The buffered channel [queue] is the list of
    its pending elements, oldest first; an element is a [[]byte], [None]
    when it is nil.  A channel of [struct{}] that is only ever closed is the
    flag that says it has been. *)
Record batchSink : Type := mkBatchSink {
  next : I;
  opt : BatchOptions;
  queue : list (option (list Byte.byte));
  stop : bool;
  done : bool;
  closed : bool
}.

Definition set_next (n : I) (s : batchSink) : batchSink :=
  mkBatchSink n (opt s) (queue s) (stop s) (done s) (closed s).

Definition set_queue (q : list (option (list Byte.byte))) (s : batchSink) : batchSink :=
  mkBatchSink (next s) (opt s) q (stop s) (done s) (closed s).

Definition capacity (s : batchSink) : nat := Z.to_nat (QueueSize (opt s)).

(** A send on [queue] can proceed when the buffer has room. *)
Definition has_room (s : batchSink) : bool := (length (queue s) <? capacity s)%nat.

Definition send (buf : list Byte.byte) (s : batchSink) : batchSink :=
  set_queue (queue s ++ [Some buf]) s.

(** The state [WithBatch] builds; the worker it starts is [start] below. *)
Definition WithBatch (n : I) (o : BatchOptions) : batchSink :=
  let o1 := if QueueSize o <=? 0
            then mkOptions 1024 (Batch o) (Backpressure o) (OptName o) else o in
  let o2 := match Backpressure o1 with
            | spolicy.BackpressureBlock | spolicy.BackpressureDrop
            | spolicy.BackpressureShed => o1
            | _ => mkOptions (QueueSize o1) (Batch o1) spolicy.BackpressureBlock (OptName o1)
            end in
  mkBatchSink n o2 [] false false false.

Definition Name (s : batchSink) : string :=
  if negb (String.eqb (OptName (opt s)) EmptyString) then OptName (opt s)
  else ("batch(" ++ sink_Name (next s) ++ ")")%string.

(** How a call that may block stands after its non-blocking part: it has
    returned, or its goroutine is parked at a blocking [select]. *)
Inductive progress : Type :=
| Returned (err : option error)
| Parked (buf : list Byte.byte).

(** The non-blocking [select] of [Write] and the [switch] that follows it,
    up to the return or to the blocking [select]. *)
Definition try_send (buf : list Byte.byte) (s : batchSink) : batchSink * progress :=
  if has_room s then (send buf s, Returned None)
  else
    match Backpressure (opt s) with
    | spolicy.BackpressureDrop | spolicy.BackpressureShed =>
      (s, Returned (Some ErrQueueFull))
    | spolicy.BackpressureBlock => (s, Parked buf)
    | _ => (s, Parked buf)
    end.

(** [Write] up to its return or to the blocking [select]. *)
Definition Write (ctx : Context) (entry : list Byte.byte) (s : batchSink)
  : batchSink * progress :=
  if closed s then (s, Returned (Some ErrBatchClosed))
  else
    let buf := entry in                       (* make + copy *)
    try_send buf s.

(** The blocking [select] of [Write]: the cases that are ready, each with
    the state it leads to and the error [Write] then returns.  When the
    list is empty the goroutine stays parked; when it has two elements the
    runtime picks either. *)
Definition select_send (ctx : Context) (buf : list Byte.byte) (s : batchSink)
  : list (batchSink * option error) :=
  (if has_room s then [(send buf s, None)] else []) ++
  (match ctx_Err ctx with
   | Some e => [(s, Some e)]
   | None => []
   end).

Definition Flush (ctx : Context) (s : batchSink) : batchSink * option error :=
  if closed s then (s, Some ErrBatchClosed)
  else
    match sink_Flush ctx (next s) with
    | (n, r) => (set_next n s, r)
    end.

(** How [Close] stands after the swap of the flag: it has returned,
    because the flag was set already, or it goes on to close [stop]. *)
Inductive closing_progress : Type :=
| CloseReturned (err : option error)
| CloseGoesOn.

(** [Close] up to and including [s.closed.Swap(true)]. *)
Definition Close (ctx : Context) (s : batchSink) : batchSink * closing_progress :=
  if closed s then (s, CloseReturned None)
  else (mkBatchSink (next s) (opt s) (queue s) (stop s) (done s) true, CloseGoesOn).

(** [close(s.stop)], the statement of [Close] that follows the swap. *)
Definition close_stop (s : batchSink) : batchSink :=
  mkBatchSink (next s) (opt s) (queue s) true (done s) (closed s).

(** The [select] of [Close]: the ready cases, as for [select_send]. *)
Definition select_done (ctx : Context) (s : batchSink)
  : list (batchSink * option error) :=
  (if done s
   then [match sink_Close ctx (next s) with (n, r) => (set_next n s, r) end]
   else []) ++
  (match ctx_Err ctx with
   | Some e => [(s, Some e)]
   | None => []
   end).

(** *** The worker goroutine, [run] *)

(** The closure [flush] of [run], on the inner sink and the pending batch. *)
Definition deliver (batch : list (list Byte.byte)) (n : I) : I :=
  foldl (fun n e => fst (sink_Write Background e n)) n batch.

Definition flush (n : I) (batch : list (list Byte.byte)) : I * list (list Byte.byte) :=
  match batch with
  | [] => (n, batch)
  | _ => (fst (sink_Flush Background (deliver batch n)), [])
  end.

(** The body shared by the two receive cases. *)
Definition received (maxEntries : Z) (e : option (list Byte.byte))
    (n : I) (batch : list (list Byte.byte)) : I * list (list Byte.byte) :=
  match e with
  | None => (n, batch)
  | Some b =>
    let batch1 := batch ++ [b] in
    if (0 <? maxEntries) && (Z.of_nat (length batch1) >=? maxEntries)
    then flush n batch1
    else (n, batch1)
  end.

(** Where the worker stands: at the outer [select]; at the [select] of the
    drain loop entered on [stop]; past the last [flush], at its [return];
    or returned, the deferred [close(s.done)] made. *)
Inductive location : Type :=
| Running
| Draining
| Returning
| Exited.

Record worker : Type := mkWorker {
  at_ : location;
  batch : list (list Byte.byte)
}.

Definition start : worker := mkWorker Running [].

(** The turns of the worker: the cases of its [select] statements, and its
    return. *)
Inductive wakeup : Type :=
| OnQueue       (* case e := <-s.queue *)
| OnTick        (* case <-flushC *)
| OnStop        (* case <-s.stop *)
| OnDefault     (* default, in the drain loop: flush() *)
| OnReturn.     (* return, and the deferred close(s.done) *)

(** One turn of the worker on the case the runtime chose; [None] when that
    case is not ready where the worker stands.  The last [flush] and the
    return are two turns: the inner sink has received the last batch
    before [done] is closed, and other goroutines run in between. *)
Definition run_step (c : wakeup) (s : batchSink) (k : worker)
  : option (batchSink * worker) :=
  let maxEntries := spolicy.MaxEntries (Batch (opt s)) in
  match at_ k, c, queue s with
  | Running, OnQueue, e :: q =>
    match received maxEntries e (next s) (batch k) with
    | (n, b) => Some (set_next n (set_queue q s), mkWorker Running b)
    end
  | Running, OnTick, _ =>
    if 0 <? spolicy.Interval (Batch (opt s)) then
      match flush (next s) (batch k) with
      | (n, b) => Some (set_next n s, mkWorker Running b)
      end
    else None
  | Running, OnStop, _ =>
    if stop s then Some (s, mkWorker Draining (batch k)) else None
  | Draining, OnQueue, e :: q =>
    match received maxEntries e (next s) (batch k) with
    | (n, b) => Some (set_next n (set_queue q s), mkWorker Draining b)
    end
  | Draining, OnDefault, [] =>
    match flush (next s) (batch k) with
    | (n, b) => Some (set_next n s, mkWorker Returning b)
    end
  | Returning, OnReturn, _ =>
    Some (mkBatchSink (next s) (opt s) (queue s) (stop s) true (closed s),
          mkWorker Exited (batch k))
  | _, _, _ => None
  end.

(** *** The sink and its goroutines together *)

(** The producers parked in [Write], with the buffer each holds; the worker;
    whether a [Close] is waiting at its [select].  The caller of [Close]
    that has won the swap of the flag and has not closed [stop] yet is not
    recorded apart: no other statement sets the flag or closes [stop], so
    that caller is there exactly when the flag is set and [stop] is open. *)
Record system : Type := mkSystem {
  sink : batchSink;
  work : worker;
  parked : list (list Byte.byte);
  closing : bool
}.

Definition boot (n : I) (o : BatchOptions) : system :=
  mkSystem (WithBatch n o) start [] false.

(** What can happen next: a producer calls a method, a parked call takes
    one of its ready cases, or the worker takes a turn.  [DoWrite] and
    [DoFlush] are a whole call, up to its return or its [select], in one
    turn.  A call can also read the flag, find the sink open, and go on
    only after other goroutines have had turns, a [Close] among them:
    [LateWrite] and [LateFlush] are what is left of such a call after the
    test of the flag.  A [Close] is three turns: [DoClose] is the call up
    to the swap of the flag, [CloseSignals] the [close(s.stop)] that the
    winner of the swap makes next, after which it waits at its [select],
    and [CloseResumes] the case that [select] takes. *)
Inductive event : Type :=
| DoWrite (ctx : Context) (entry : list Byte.byte)
| LateWrite (entry : list Byte.byte)
| ParkedSends (i : nat)
| ParkedCancelled (i : nat) (ctx : Context)
| DoFlush (ctx : Context)
| LateFlush (ctx : Context)
| DoClose (ctx : Context)
| CloseSignals
| CloseResumes (ctx : Context) (onDone : bool)
| Worker (c : wakeup).

(** One event: the next system and the entries whose [Write] returned nil
    with it; [None] when the event cannot happen in this state. *)
Definition step (ev : event) (y : system) : option (system * list (list Byte.byte)) :=
  match ev with
  | DoWrite ctx entry =>
    match Write ctx entry (sink y) with
    | (s, Returned None) => Some (mkSystem s (work y) (parked y) (closing y), [entry])
    | (s, Returned (Some _)) => Some (mkSystem s (work y) (parked y) (closing y), [])
    | (s, Parked buf) =>
      Some (mkSystem s (work y) (parked y ++ [buf]) (closing y), [])
    end
  | LateWrite entry =>
    match try_send entry (sink y) with
    | (s, Returned None) => Some (mkSystem s (work y) (parked y) (closing y), [entry])
    | (s, Returned (Some _)) => Some (mkSystem s (work y) (parked y) (closing y), [])
    | (s, Parked buf) =>
      Some (mkSystem s (work y) (parked y ++ [buf]) (closing y), [])
    end
  | ParkedSends i =>
    match parked y !! i with
    | Some buf =>
      if has_room (sink y)
      then Some (mkSystem (send buf (sink y)) (work y) (delete i (parked y)) (closing y),
                 [buf])
      else None
    | None => None
    end
  | ParkedCancelled i ctx =>
    match parked y !! i, ctx_Err ctx with
    | Some _, Some _ => Some (mkSystem (sink y) (work y) (delete i (parked y)) (closing y), [])
    | _, _ => None
    end
  | DoFlush ctx =>
    Some (mkSystem (fst (Flush ctx (sink y))) (work y) (parked y) (closing y), [])
  | LateFlush ctx =>
    Some (mkSystem (set_next (fst (sink_Flush ctx (next (sink y)))) (sink y))
                   (work y) (parked y) (closing y), [])
  | DoClose ctx =>
    match Close ctx (sink y) with
    | (s, _) => Some (mkSystem s (work y) (parked y) (closing y), [])
    end
  | CloseSignals =>
    if closed (sink y) && negb (stop (sink y))
    then Some (mkSystem (close_stop (sink y)) (work y) (parked y) true, [])
    else None
  | CloseResumes ctx onDone =>
    if closing y then
      if onDone then
        if done (sink y)
        then Some (mkSystem (set_next (fst (sink_Close ctx (next (sink y)))) (sink y))
                            (work y) (parked y) false, [])
        else None
      else
        match ctx_Err ctx with
        | Some _ => Some (mkSystem (sink y) (work y) (parked y) false, [])
        | None => None
        end
    else None
  | Worker c =>
    match run_step c (sink y) (work y) with
    | Some (s, k) => Some (mkSystem s k (parked y) (closing y), [])
    | None => None
    end
  end.

(** A schedule of events from a state: the state reached and the entries
    accepted, in the order their [Write]s returned. *)
Fixpoint run (evs : list event) (y : system) : option (system * list (list Byte.byte)) :=
  match evs with
  | [] => Some (y, [])
  | ev :: rest =>
    match step ev y with
    | Some (y1, acc1) =>
      match run rest y1 with
      | Some (y2, acc2) => Some (y2, acc1 ++ acc2)
      | None => None
      end
    | None => None
    end
  end.

End WithNext.

Arguments batchSink I : clear implicits.
Arguments system I : clear implicits.

End BatchSink.

(** * The vocabulary of the properties *)

(** No fault is scheduled for the calls of kind [k]. *)
Definition quiet (k : syscall) (w : World) : bool :=
  match w_faults w !! k with
  | Some (_ :: _) => false
  | _ => true
  end.

(** The log of [w'] is the log of [w] followed by calls that all satisfy
    [P]: what happened between the two worlds. *)
Definition extends (P : oscall -> Prop) (w w' : World) : Prop :=
  exists l, w_log w' = w_log w ++ l /\ Forall P l.

(** The operating system does not fail: no fault is scheduled for any kind
    of call. *)
Definition calm (w : World) : Prop := forall k, quiet k w = true.

(** From [w] to [w'] the clock and the umask are the same, and a kind of
    call that had no fault scheduled still has none. *)
Definition steady (w w' : World) : Prop :=
  w_clock w' = w_clock w /\ w_umask w' = w_umask w /\
  (forall k, quiet k w = true -> quiet k w' = true).

(** The world when the clock shows [t]. *)
Definition at_time (t : Time) (w : World) : World :=
  mkWorld (w_dir w) t (w_umask w) (w_faults w) (w_log w).

(** The calls a [Write] cannot do without do not fail: those that open the
    active file, the stat and the rename of a rotation, and the write.  The
    close of a file, the compression and the pruning may fail. *)
Definition dependable (w : World) : Prop :=
  quiet SysMkdirAll w = true /\ quiet SysOpenFile w = true /\
  quiet SysFstat w = true /\ quiet SysStat w = true /\
  quiet SysRename w = true /\ quiet SysWrite w = true.

(** Ascending order in an integer key. *)
Definition key_le {A : Type} (key : A -> Z) (a b : A) : Prop := key a <= key b.

(** Permission bits of a file mode. *)
Definition owner_read (m : Z) : bool := Z.testbit m 8.
Definition owner_write (m : Z) : bool := Z.testbit m 7.
Definition owner_exec (m : Z) : bool := Z.testbit m 6.
Definition group_read (m : Z) : bool := Z.testbit m 5.
Definition group_write (m : Z) : bool := Z.testbit m 4.
Definition group_exec (m : Z) : bool := Z.testbit m 3.
Definition other_read (m : Z) : bool := Z.testbit m 2.
Definition other_write (m : Z) : bool := Z.testbit m 1.
Definition other_exec (m : Z) : bool := Z.testbit m 0.

(** A stand-in for the compressor, to run the sink on concrete inputs: it
    stores the bytes as they are.  No property below depends on it. *)
Definition store_only (bytes : list Byte.byte) : list Byte.byte := bytes.

Module RotatingFileTerms.
Import RotatingFile.

(** The calls of a client, to speak of what follows a [Close]. *)
Inductive call : Type :=
| CallsWrite (ctx : Context) (entry : list Byte.byte)
| CallsFlush (ctx : Context)
| CallsClose (ctx : Context).

Definition invoke (gzip : list Byte.byte -> list Byte.byte) (c : call)
    (w : World) (s : rotatingFileSink) : World * rotatingFileSink * option error :=
  match c with
  | CallsWrite ctx entry => Write gzip ctx entry w s
  | CallsFlush ctx => Flush ctx w s
  | CallsClose ctx => Close ctx w s
  end.

Fixpoint invoke_all (gzip : list Byte.byte -> list Byte.byte) (cs : list call)
    (w : World) (s : rotatingFileSink) : World * rotatingFileSink :=
  match cs with
  | [] => (w, s)
  | c :: rest =>
    match invoke gzip c w s with
    | (w1, s1, _) => invoke_all gzip rest w1 s1
    end
  end.

(** One mebibyte, and one day in nanoseconds. *)
Definition MiB : Z := 1048576.
Definition Day : Duration := 86400000000000.

(** The defensive reopening at the head of [Write]. *)
Definition ensureOpen (w : World) (s : rotatingFileSink)
  : World * rotatingFileSink * option error :=
  match file s with
  | None => openCurrent w s
  | Some _ => (w, s, None)
  end.

(** What [Write] does before it appends: the reopening and the rotation.
    An error here is the error of [Write]; otherwise the append runs in the
    state returned. *)
Definition beforeAppend (gzip : list Byte.byte -> list Byte.byte)
    (entry : list Byte.byte) (w : World) (s : rotatingFileSink)
  : World * rotatingFileSink * option error :=
  match ensureOpen w s with
  | (w1, s1, Some e) => (w1, s1, Some e)
  | (w1, s1, None) =>
    if shouldRotate s1 (time_Now w1) (Z.of_nat (length entry))
    then rotateLocked gzip w1 s1
    else (w1, s1, None)
  end.

(** A call of the rotation: anything but a write to a file. *)
Definition not_write (c : oscall) : Prop := forall n b, c <> CallWrite n b.

(** A call other than the rename. *)
Definition not_rename (c : oscall) : Prop := forall a b, c <> CallRename a b.

(** A directory with nothing in it, at 2025-03-01 12:34:56 UTC, umask 022,
    and an operating system that does not fail. *)
Definition empty_world : World :=
  mkWorld ∅ 1740832496000000000 18 ∅ [].

Definition app_log (p : spolicy.Rotation) : FileRotationOptions :=
  mkOptions "/var/log/app.log" p EmptyString 0.

(** The active file, three bytes old content written at the epoch, seen two
    days later. *)
Definition old_file : File := mkFile [Byte.x6f; Byte.x6c; Byte.x64] 0 416.

Definition aged_world (faults : gmap syscall (list fault)) : World :=
  mkWorld {[ "app.log"%string := old_file ]} (2 * Day) 18 faults [].

(** The sink open on that file, with a limit of one day of age. *)
Definition aged_sink : rotatingFileSink :=
  mkSink "/var/log/app.log"
         (mkOptions "/var/log/app.log" (spolicy.mkRotation 0 1 0 false) EmptyString 416)
         (Some (mkHandle "app.log" active_flags)) 3 0 false.

(** The names [pruneBackups] takes for backups of [basePath]: those that
    start with the base name and a dot. *)
Definition is_backup (basePath name : string) : Prop :=
  HasPrefix name (filepath_Base basePath ++ ".")%string = true.

#[export] Instance is_backup_dec basePath name : Decision (is_backup basePath name).
Proof. unfold is_backup. apply _. Defined.

(** The backups of [basePath] among the files of a directory. *)
Definition backups_in (basePath : string) (d : gmap string File) : gmap string File :=
  filter (fun kv => is_backup basePath kv.1) d.

(** The record [pruneBackups] makes of an entry. *)
Definition backup_of (d : gmap string File) (name : string) : backup :=
  mkBackup name (match d !! name with Some f => f_modTime f | None => 0 end).

(** What [os.ReadDir] lists. *)
Definition listing (d : gmap string File) : list string :=
  sort_slice String.ltb (fst <$> map_to_list d).

(** The slice [backups] that [pruneBackups] builds from the listing. *)
Definition selected (basePath : string) (w : World) : list backup :=
  match os_ReadDir w with
  | (w1, Ok entries) =>
    snd (collect_backups (filepath_Base basePath ++ ".")%string entries w1 [])
  | (_, Err _) => []
  end.

(** The order of [sort.Slice] in [pruneBackups]. *)
Definition older (a b : backup) : bool := time_Before (b_modTime a) (b_modTime b).

(** The number of files of a directory. *)
Definition file_count (d : gmap string File) : nat := stdpp.base.size d.

(** A directory with the active file and three files whose names start
    with "app.log.": a compressed backup, an unrelated file of notes, and
    a plain backup, modified in that order. *)
Definition crowded_dir : gmap string File :=
  {[ "app.log"%string := mkFile [Byte.x61] 40 416;
     "app.log.20250101-000000.gz"%string := mkFile [Byte.x1f] 10 416;
     "app.log.notes"%string := mkFile [Byte.x6e] 20 416;
     "app.log.20250301-000000"%string := mkFile [Byte.x62] 30 416;
     "other.log.1"%string := mkFile [] 5 416 ]}.

Definition crowded_world : World := mkWorld crowded_dir 50 18 ∅ [].

(** The size the sink keeps for the file it holds is the size of the
    active file in the directory, exactly or as a 64-bit counter has it. *)
Definition tracks (w : World) (s : rotatingFileSink) : Prop :=
  forall h, file s = Some h ->
    h_name h = filepath_Base (path s) /\
    exists f, w_dir w !! filepath_Base (path s) = Some f /\
      (size s = Z.of_nat (length (f_data f)) \/
       size s = wrap64 (Z.of_nat (length (f_data f)))).


End RotatingFileTerms.

Module BatchSinkTerms.
Import BatchSink.

(** A trace in which [Close] comes at most once and only [Flush] after it. *)
Fixpoint closed_last (cs : list sinkcall) : Prop :=
  match cs with
  | [] => True
  | GotClose :: rest => Forall (fun c => c = GotFlush) rest
  | _ :: rest => closed_last rest
  end.

Section WithNext.
Context {I : Type} `{Sink I}.

(** The entries the inner sink has been handed in its [Write], in order,
    when the inner sink is one that keeps the trace of its calls. *)
Definition delivered (y : system (Traced I)) : list (list Byte.byte) :=
  written (calls (next (sink y))).

(** The entries accepted and not yet handed on: the batch of the worker,
    then the queue. *)
Definition pending (y : system I) : list (list Byte.byte) :=
  batch (work y) ++ omap id (queue (sink y)).

(** The worker that is past its last flush holds no batch. *)
Definition settled (y : system I) : Prop :=
  at_ (work y) = Returning \/ at_ (work y) = Exited -> batch (work y) = [].

(** What holds of a batch sink with options [o], its worker and its callers
    from [boot] on: the options are those it was built with, the queue is
    within its capacity and holds no nil entry, the batch of the worker is
    below a positive [MaxEntries], no caller is parked in the modes that
    drop, [stop] is closed only once the flag is set, a [Close] waits only
    once [stop] is closed, and [done] is closed exactly when the worker has
    returned, which it does only after [stop]. *)
Definition coherent (o : BatchOptions) (y : system I) : Prop :=
  opt (sink y) = o /\
  (length (queue (sink y)) <= capacity (sink y))%nat /\
  Forall (fun e => e <> None) (queue (sink y)) /\
  (0 < spolicy.MaxEntries (Batch o) ->
   Z.of_nat (length (batch (work y))) < spolicy.MaxEntries (Batch o)) /\
  (Backpressure o = spolicy.BackpressureDrop \/ Backpressure o = spolicy.BackpressureShed ->
   parked y = []) /\
  (stop (sink y) = true -> closed (sink y) = true) /\
  (closing y = true -> stop (sink y) = true) /\
  match at_ (work y) with
  | Running => done (sink y) = false
  | Draining => stop (sink y) = true /\ done (sink y) = false
  | Returning => stop (sink y) = true /\ done (sink y) = false
  | Exited => stop (sink y) = true /\ done (sink y) = true
  end.

(** The turns the worker takes by itself once [stop] is closed: into the
    drain loop, through the queue, out by the default case, and the
    return. *)
Definition drain_schedule (y : system I) : list event :=
  (match at_ (work y) with Running => [Worker OnStop] | _ => [] end) ++
  (match at_ (work y) with
   | Returning => []
   | _ => repeat (Worker OnQueue) (length (queue (sink y))) ++ [Worker OnDefault]
   end) ++
  [Worker OnReturn].


End WithNext.

End BatchSinkTerms.

(** A batch sink over a rotating file sink, to run on concrete inputs. *)

Definition entry_a : list Byte.byte := [Byte.x61].
Definition entry_b : list Byte.byte := [Byte.x62].
Definition entry_c : list Byte.byte := [Byte.x63].

(** A file sink open on the aged file, with no rotation, under a trace. *)
Definition file_next : Traced (World * RotatingFile.rotatingFileSink) :=
  mkTraced
    (RotatingFileTerms.aged_world ∅,
     RotatingFile.mkSink "/var/log/app.log"
       (RotatingFile.mkOptions "/var/log/app.log"
          (spolicy.mkRotation 0 0 0 false) EmptyString 416)
       (Some (mkHandle "app.log" RotatingFile.active_flags)) 3 0 false)
    [].

#[local] Instance file_next_Sink : Sink (Traced (World * RotatingFile.rotatingFileSink)) :=
  @traced_Sink _ (rotating_Sink store_only).

#[local] Instance file_Sink : Sink (World * RotatingFile.rotatingFileSink) :=
  rotating_Sink store_only.

(** A queue of one, dropping, flushing every second entry. *)
Definition small_options (mode : spolicy.Backpressure) : BatchSink.BatchOptions :=
  BatchSink.mkOptions 1 (spolicy.mkBatch 2 0) mode EmptyString.

(** The file [h] of a file sink under trace holds [data] followed by the
    entries the sink has been handed; writes to it do not fail; and until
    the sink is closed it is open on that file and does not rotate. *)
Definition file_holds (h : handle) (data : list Byte.byte)
    (t : Traced (World * RotatingFile.rotatingFileSink)) : Prop :=
  quiet SysWrite (fst (observed t)) = true /\
  (exists f, w_dir (fst (observed t)) !! h_name h = Some f /\
             f_data f = data ++ concat (written (calls t))) /\
  ((GotClose ∉ calls t) ->
   RotatingFile.closed (snd (observed t)) = false /\
   RotatingFile.file (snd (observed t)) = Some h /\
   spolicy.MaxSizeMB (RotatingFile.Policy (RotatingFile.opt (snd (observed t)))) = 0 /\
   spolicy.MaxAgeDays (RotatingFile.Policy (RotatingFile.opt (snd (observed t)))) = 0).


(** * Properties *)

#[local] Arguments Z.ldiff : simpl never.
#[local] Arguments Z.land : simpl never.
#[local] Arguments Z.lor : simpl never.
#[local] Arguments Z.testbit : simpl never.
#[local] Arguments Z.of_nat : simpl never.
#[local] Arguments Z.to_nat : simpl never.

(** The repository's own test of the naming scheme. *)
Example rotatedFilename_format :
  rotatedFilename "/var/log/app.log" 1740832496000000000
  = "app.log.20250301-123456"%string.
Proof. vm_compute. reflexivity. Qed.

Example filepath_Base_examples :
  filepath_Base "/var/log/app.log" = "app.log"%string /\
  filepath_Base "app.log" = "app.log"%string /\
  filepath_Base "/var/log/" = "log"%string /\
  filepath_Base "///" = "/"%string /\
  filepath_Base EmptyString = "."%string.
Proof. repeat split; reflexivity. Qed.

(** ** Machine arithmetic *)

Lemma wrap64_id z : in_int64 z -> wrap64 z = z.
Proof.
  unfold in_int64, min_int64, max_int64, wrap64. intros Hz.
  rewrite Z.mod_small by lia. lia.
Qed.

Lemma wrap64_range z : in_int64 (wrap64 z).
Proof.
  unfold in_int64, min_int64, max_int64, wrap64.
  pose proof (Z.mod_pos_bound (z + 9223372036854775808) 18446744073709551616).
  lia.
Qed.

Lemma time_Sub_range t u : in_int64 (time_Sub t u).
Proof.
  unfold time_Sub, in_int64, min_int64, max_int64.
  destruct (Z.gtb_spec (t - u) 9223372036854775807); [lia |].
  destruct (Z.ltb_spec (t - u) (-9223372036854775808)); lia.
Qed.

(** Clamping the difference does not change how it compares with a
    positive duration. *)
Lemma time_Sub_geb t u d :
  min_int64 < d <= max_int64 -> (time_Sub t u >=? d) = (t - u >=? d).
Proof.
  unfold time_Sub, min_int64, max_int64. intros Hd.
  destruct (Z.gtb_spec (t - u) 9223372036854775807).
  - destruct (Z.geb_spec 9223372036854775807 d), (Z.geb_spec (t - u) d); lia.
  - destruct (Z.ltb_spec (t - u) (-9223372036854775808)); [| reflexivity].
    destruct (Z.geb_spec (-9223372036854775808) d), (Z.geb_spec (t - u) d); lia.
Qed.

(** ** The operating system: what a call leaves alone *)

Lemma enter_spec k c w :
  w_dir (snd (enter k c w)) = w_dir w /\
  w_clock (snd (enter k c w)) = w_clock w /\
  w_umask (snd (enter k c w)) = w_umask w /\
  w_log (snd (enter k c w)) = w_log w ++ [c].
Proof.
  unfold enter. simpl.
  destruct (w_faults w !! k) as [[| f rest] |]; simpl; auto.
Qed.

Lemma enter_quiet k c w : quiet k w = true -> enter k c w = (None, record_call c w).
Proof.
  unfold quiet, enter. simpl.
  destruct (w_faults w !! k) as [[| f rest] |]; simpl; congruence.
Qed.

Lemma quiet_enter k k' c w : quiet k w = true -> quiet k (snd (enter k' c w)) = true.
Proof.
  unfold quiet, enter. simpl.
  destruct (w_faults w !! k') as [[| f rest] |] eqn:E; simpl; auto.
  destruct (decide (k' = k)) as [-> | Hne].
  - rewrite E. discriminate.
  - rewrite lookup_insert_ne by done. auto.
Qed.

Lemma quiet_record_call k c w : quiet k (record_call c w) = quiet k w.
Proof. reflexivity. Qed.

Lemma quiet_set_dir k d w : quiet k (set_dir d w) = quiet k w.
Proof. reflexivity. Qed.

Lemma extends_refl P w : extends P w w.
Proof. exists []. split; [symmetry; apply app_nil_r | constructor]. Qed.

Lemma extends_trans P w1 w2 w3 :
  extends P w1 w2 -> extends P w2 w3 -> extends P w1 w3.
Proof.
  intros (l1 & E1 & F1) (l2 & E2 & F2). exists (l1 ++ l2). split.
  - rewrite E2, E1, app_assoc. reflexivity.
  - apply Forall_app; auto.
Qed.

Lemma extends_weaken (P Q : oscall -> Prop) w w' :
  (forall c, P c -> Q c) -> extends P w w' -> extends Q w w'.
Proof.
  intros HPQ (l & E & F). exists l. split; [exact E |].
  eapply Forall_impl; eauto.
Qed.

Lemma extends_same_log P w w' : w_log w' = w_log w -> extends P w w'.
Proof. intros E. exists []. rewrite E, app_nil_r. split; [reflexivity | constructor]. Qed.

Lemma extends_enter (P : oscall -> Prop) k c w :
  P c -> extends P w (snd (enter k c w)).
Proof.
  intros Hc. exists [c]. split; [apply enter_spec |].
  constructor; [exact Hc | constructor].
Qed.

Lemma extends_set_dir P d w w' : extends P w w' -> extends P w (set_dir d w').
Proof. intros (l & E & F). exists l. auto. Qed.

Lemma extends_append_to P name bytes w w' :
  extends P w w' -> extends P w (append_to name bytes w').
Proof.
  intros Hx. unfold append_to.
  destruct bytes; [exact Hx |].
  destruct (w_dir w' !! name); [apply extends_set_dir |]; exact Hx.
Qed.

(** Every call extends the log by itself. *)
Ltac one_call HP :=
  match goal with
  | |- context [enter ?k ?c ?x] =>
    let Hx := fresh "Hx" in
    pose proof (extends_enter _ k c x HP) as Hx;
    destruct (enter k c x) as [[?ft |] ?w]; simpl in Hx |- *;
    repeat match goal with
           | |- context [match ?d !! ?n with _ => _ end] => destruct (d !! n)
           | |- context [if ?b then _ else _] => destruct b
           end;
    simpl; auto using extends_set_dir, extends_append_to
  end.

Lemma os_MkdirAll_extends (P : oscall -> Prop) m w :
  P (CallMkdirAll m) -> extends P w (fst (os_MkdirAll m w)).
Proof. intros HP. unfold os_MkdirAll. one_call HP. Qed.

Lemma os_OpenFile_extends (P : oscall -> Prop) n f m w :
  P (CallOpenFile n f m) -> extends P w (fst (os_OpenFile n f m w)).
Proof. intros HP. unfold os_OpenFile. one_call HP. Qed.

Lemma os_Open_extends (P : oscall -> Prop) n w :
  P (CallOpen n) -> extends P w (fst (os_Open n w)).
Proof. intros HP. unfold os_Open. one_call HP. Qed.

Lemma file_Stat_extends (P : oscall -> Prop) h w :
  P (CallFstat (h_name h)) -> extends P w (fst (file_Stat h w)).
Proof. intros HP. unfold file_Stat. one_call HP. Qed.

Lemma file_Write_extends (P : oscall -> Prop) h bytes w :
  P (CallWrite (h_name h) bytes) -> extends P w (fst (file_Write h bytes w)).
Proof. intros HP. unfold file_Write. one_call HP. Qed.

Lemma file_Sync_extends (P : oscall -> Prop) h w :
  P (CallSync (h_name h)) -> extends P w (fst (file_Sync h w)).
Proof. intros HP. unfold file_Sync. one_call HP. Qed.

Lemma file_Close_extends (P : oscall -> Prop) h w :
  P (CallClose (h_name h)) -> extends P w (fst (file_Close h w)).
Proof. intros HP. unfold file_Close. one_call HP. Qed.

Lemma os_Stat_extends (P : oscall -> Prop) n w :
  P (CallStat n) -> extends P w (fst (os_Stat n w)).
Proof. intros HP. unfold os_Stat. one_call HP. Qed.

Lemma os_Rename_extends (P : oscall -> Prop) a b w :
  P (CallRename a b) -> extends P w (fst (os_Rename a b w)).
Proof. intros HP. unfold os_Rename. one_call HP. Qed.

Lemma os_Remove_extends (P : oscall -> Prop) n w :
  P (CallRemove n) -> extends P w (fst (os_Remove n w)).
Proof. intros HP. unfold os_Remove. one_call HP. Qed.

Lemma os_ReadDir_extends (P : oscall -> Prop) w :
  P CallReadDir -> extends P w (fst (os_ReadDir w)).
Proof. intros HP. unfold os_ReadDir. one_call HP. Qed.

Lemma entry_Info_extends (P : oscall -> Prop) n w :
  P (CallInfo n) -> extends P w (fst (entry_Info n w)).
Proof. intros HP. unfold entry_Info. one_call HP. Qed.

(** The calls that only look leave the directory as it is. *)
Ltac dir_kept :=
  match goal with
  | |- context [enter ?k ?c ?x] =>
    let Hs := fresh "Hs" in
    pose proof (enter_spec k c x) as Hs;
    destruct (enter k c x) as [[?ft |] ?w]; simpl in Hs |- *;
    destruct Hs as (? & _);
    repeat match goal with
           | |- context [match ?d !! ?n with _ => _ end] => destruct (d !! n)
           end;
    simpl; auto
  end.

Lemma os_MkdirAll_dir m w : w_dir (fst (os_MkdirAll m w)) = w_dir w.
Proof. unfold os_MkdirAll. dir_kept. Qed.

Lemma os_Open_dir n w : w_dir (fst (os_Open n w)) = w_dir w.
Proof. unfold os_Open. dir_kept. Qed.

Lemma file_Stat_dir h w : w_dir (fst (file_Stat h w)) = w_dir w.
Proof. unfold file_Stat. dir_kept. Qed.

Lemma file_Sync_dir h w : w_dir (fst (file_Sync h w)) = w_dir w.
Proof. unfold file_Sync. dir_kept. Qed.

Lemma file_Close_dir h w : w_dir (fst (file_Close h w)) = w_dir w.
Proof. unfold file_Close. dir_kept. Qed.

Lemma os_Stat_dir n w : w_dir (fst (os_Stat n w)) = w_dir w.
Proof. unfold os_Stat. dir_kept. Qed.

Lemma os_ReadDir_dir w : w_dir (fst (os_ReadDir w)) = w_dir w.
Proof. unfold os_ReadDir. dir_kept. Qed.

Lemma entry_Info_dir n w : w_dir (fst (entry_Info n w)) = w_dir w.
Proof. unfold entry_Info. dir_kept. Qed.

(** A call that fails on a scheduled fault changes nothing on disk. *)
Lemma os_Rename_failed a b w e :
  snd (os_Rename a b w) = Some e -> w_dir (fst (os_Rename a b w)) = w_dir w.
Proof.
  unfold os_Rename.
  pose proof (enter_spec SysRename (CallRename a b) w) as (Hd & _).
  destruct (enter SysRename (CallRename a b) w) as [[ft |] w1]; simpl in *; auto.
  destruct (w_dir w1 !! a); simpl; [discriminate | auto].
Qed.

(** ** The sort *)

Section SortingFacts.
Context {A : Type}.

Lemma insert_sorted_perm (less : A -> A -> bool) x l :
  insert_sorted less x l ≡ₚ x :: l.
Proof.
  induction l as [| y l IH]; simpl; [reflexivity |].
  destruct (less y x); [| reflexivity].
  rewrite IH. apply perm_swap.
Qed.

Lemma sort_slice_perm (less : A -> A -> bool) l : sort_slice less l ≡ₚ l.
Proof.
  induction l as [| x l IH]; simpl; [reflexivity |].
  rewrite insert_sorted_perm, IH. reflexivity.
Qed.

(** Ordering by an integer key, as [sort.Slice] does with
    [modTime.Before]: the result is ascending in the key. *)
Variable key : A -> Z.

Lemma insert_sorted_sorted x l :
  StronglySorted (key_le key) l ->
  StronglySorted (key_le key) (insert_sorted (fun a b => key a <? key b) x l).
Proof.
  induction l as [| y l IH]; simpl; intros Hs.
  - repeat constructor.
  - apply StronglySorted_cons in Hs as [Hy Hl].
    destruct (Z.ltb_spec (key y) (key x)) as [Hlt | Hge].
    + apply StronglySorted_cons. split; [| auto].
      rewrite insert_sorted_perm. constructor; [unfold key_le; lia | exact Hy].
    + apply StronglySorted_cons. split.
      * constructor; [exact Hge |].
        eapply Forall_impl; [exact Hy |]. unfold key_le. intros; simpl in *; lia.
      * apply StronglySorted_cons. auto.
Qed.

Lemma sort_slice_sorted l :
  StronglySorted (key_le key) (sort_slice (fun a b => key a <? key b) l).
Proof.
  induction l as [| x l IH]; simpl; [constructor |].
  apply insert_sorted_sorted, IH.
Qed.
End SortingFacts.

Module RotatingFileProps.
Import RotatingFile RotatingFileTerms.

Section WithGzip.
Variable gzip : list Byte.byte -> list Byte.byte.

(** *** Cancellation comes first *)

(** C9. With a context that already reports an error, [Write] and [Flush]
    return that error and leave the world and the sink as they are,
    whatever the sink's state: on a closed sink the result is the context's
    error, not [ErrRotationClosed]. *)
Theorem cancelled_context_wins ctx e entry w s :
  ctx_Err ctx = Some e ->
  Write gzip ctx entry w s = (w, s, Some e) /\
  Flush ctx w s = (w, s, Some e).
Proof. intros He. unfold Write, Flush. rewrite He. split; reflexivity. Qed.

(** *** Closed is for good *)

Lemma Close_sets_closed ctx w s : closed (snd (fst (Close ctx w s))) = true.
Proof.
  unfold Close. destruct (closed s) eqn:E; [exact E |].
  simpl. destruct (file s); [destruct (file_Close _ _) |]; reflexivity.
Qed.

Lemma Write_closed ctx entry w s :
  closed s = true -> ctx_Err ctx = None ->
  Write gzip ctx entry w s = (w, s, Some ErrRotationClosed).
Proof. intros Hc Hx. unfold Write. rewrite Hx, Hc. reflexivity. Qed.

Lemma Flush_closed ctx w s :
  closed s = true -> ctx_Err ctx = None ->
  Flush ctx w s = (w, s, Some ErrRotationClosed).
Proof. intros Hc Hx. unfold Flush. rewrite Hx, Hc. reflexivity. Qed.

Lemma Close_closed ctx w s : closed s = true -> Close ctx w s = (w, s, None).
Proof. intros Hc. unfold Close. rewrite Hc. reflexivity. Qed.

Lemma invoke_closed c w s :
  closed s = true -> fst (invoke gzip c w s) = (w, s).
Proof.
  intros Hc. destruct c as [ctx entry | ctx | ctx]; simpl.
  - unfold Write. rewrite Hc. destruct (ctx_Err ctx); reflexivity.
  - unfold Flush. rewrite Hc. destruct (ctx_Err ctx); reflexivity.
  - rewrite Close_closed by assumption. reflexivity.
Qed.

Lemma invoke_all_closed cs w s :
  closed s = true -> invoke_all gzip cs w s = (w, s).
Proof.
  intros Hc. induction cs as [| c cs IH]; [reflexivity |]. simpl.
  pose proof (invoke_closed c w s Hc) as E.
  destruct (invoke gzip c w s) as [[w1 s1] r]. simpl in E.
  injection E as -> ->. exact IH.
Qed.

(** *** Opening the active file *)

(** Case analysis on every call that is entered in the goal, with what the
    call leaves unchanged. *)
Ltac enter_cases :=
  repeat match goal with
  | |- context [enter ?k ?c ?x] =>
    let H := fresh "Hent" in
    pose proof (enter_spec k c x) as H;
    destruct (enter k c x) as [[?ft |] ?w];
    simpl in H; destruct H as (? & ? & ? & ?); simpl
  end.

Lemma openCurrent_ok w s w' s' :
  openCurrent w s = (w', s', None) ->
  file s' = Some (mkHandle (filepath_Base (path s)) active_flags) /\
  path s' = path s /\ opt s' = opt s /\ closed s' = closed s /\
  (exists f, w_dir w' !! filepath_Base (path s) = Some f /\
             size s' = Z.of_nat (length (f_data f)) /\ created s' = f_modTime f) /\
  w_log w' = w_log w ++ [CallMkdirAll 493;
                         CallOpenFile (filepath_Base (path s)) active_flags (FileMode (opt s));
                         CallFstat (filepath_Base (path s))].
Proof.
  unfold openCurrent, os_MkdirAll, os_OpenFile, file_Stat, file_Close.
  enter_cases; try discriminate.
  destruct (w_dir w1 !! filepath_Base (path s)) as [f |] eqn:Ef.
  - change (Z.land active_flags O_TRUNC =? 0) with true. cbv iota.
    enter_cases; try (intros; discriminate). simpl.
    destruct (w_dir w2 !! filepath_Base (path s)) as [f' |] eqn:Ef'; [| discriminate].
    intros [= <- <-]. simpl. repeat split; try reflexivity.
    + exists f'. auto.
    + repeat match goal with H : w_log _ = _ |- _ => rewrite H end.
      rewrite <- !app_assoc. reflexivity.
  - change (Z.land active_flags O_CREATE =? 0) with false. cbv iota.
    enter_cases; try (intros; discriminate). simpl.
    destruct (w_dir w2 !! filepath_Base (path s)) as [f' |] eqn:Ef'; [| discriminate].
    intros [= <- <-]. simpl. repeat split; try reflexivity.
    + exists f'. auto.
    + repeat match goal with H : w_log _ = _ |- _ => rewrite H end.
      simpl. rewrite <- !app_assoc. reflexivity.
Qed.

Lemma os_OpenFile_handle n f m w h :
  snd (os_OpenFile n f m w) = Ok h -> h = mkHandle n f.
Proof.
  unfold os_OpenFile.
  destruct (enter SysOpenFile (CallOpenFile n f m) w) as [[ft |] w1]; simpl;
    [discriminate |].
  destruct (w_dir w1 !! n).
  - destruct (Z.land f O_TRUNC =? 0); simpl; congruence.
  - destruct (Z.land f O_CREATE =? 0); simpl; congruence.
Qed.

(** Whether it succeeds or not, [openCurrent] makes no call but these
    four, on the active file, with the flags and the mode of the sink. *)
Lemma openCurrent_extends (P : oscall -> Prop) w s :
  P (CallMkdirAll 493) ->
  P (CallOpenFile (filepath_Base (path s)) active_flags (FileMode (opt s))) ->
  P (CallFstat (filepath_Base (path s))) ->
  P (CallClose (filepath_Base (path s))) ->
  extends P w (fst (fst (openCurrent w s))).
Proof.
  intros P1 P2 P3 P4. unfold openCurrent.
  pose proof (os_MkdirAll_extends P 493 w P1) as X1.
  destruct (os_MkdirAll 493 w) as [w1 [e |]]; simpl in *; [exact X1 |].
  pose proof (os_OpenFile_extends P _ _ _ w1 P2) as X2.
  pose proof (os_OpenFile_handle (filepath_Base (path s)) active_flags
                (FileMode (opt s)) w1) as Hh.
  destruct (os_OpenFile _ _ _ w1) as [w2 [f | e]]; simpl in *;
    [| eauto using extends_trans].
  specialize (Hh f eq_refl). subst f.
  pose proof (file_Stat_extends P (mkHandle (filepath_Base (path s)) active_flags)
                w2 P3) as X3.
  destruct (file_Stat _ w2) as [w3 [info | e]]; simpl in *;
    [eauto using extends_trans |].
  pose proof (file_Close_extends P (mkHandle (filepath_Base (path s)) active_flags)
                w3 P4) as X4.
  eauto using extends_trans.
Qed.

(** A failed [openCurrent] leaves every field of the sink as it was. *)
Lemma openCurrent_failed w s w' s' e :
  openCurrent w s = (w', s', Some e) -> s' = s.
Proof.
  unfold openCurrent.
  destruct (os_MkdirAll 493 w) as [w1 [e1 |]]; [congruence |].
  destruct (os_OpenFile _ _ _ w1) as [w2 [f | e2]]; [| congruence].
  destruct (file_Stat f w2) as [w3 [info | e3]]; congruence.
Qed.

(** *** The default file mode *)

(** C7, as the code has it.  A sink built with a zero [FileMode] opens its
    active file, and nothing else, with [O_CREATE|O_APPEND|O_WRONLY] and
    mode 0640; a file it has to create gets 0640 less the umask.  0640 is
    read and write for the owner, read only for the group, nothing for the
    others, and no execute bit. *)
Theorem default_mode_is_0640 o w :
  Path o <> EmptyString -> FileMode o = 0 ->
  extends (fun c => forall n f m, c = CallOpenFile n f m ->
             n = filepath_Base (Path o) /\ f = active_flags /\ m = 416)
          w (fst (NewRotatingFileSink o w)) /\
  (forall s, snd (NewRotatingFileSink o w) = Ok s ->
     FileMode (opt s) = 416 /\
     file s = Some (mkHandle (filepath_Base (Path o)) active_flags) /\
     In (CallOpenFile (filepath_Base (Path o)) active_flags 416)
        (w_log (fst (NewRotatingFileSink o w))) /\
     (w_dir w !! filepath_Base (Path o) = None ->
      exists f, w_dir (fst (NewRotatingFileSink o w)) !! filepath_Base (Path o) = Some f /\
                f_perm f = Z.ldiff 416 (w_umask w))) /\
  Z.land active_flags O_APPEND = O_APPEND /\
  (owner_read 416 = true /\ owner_write 416 = true /\ owner_exec 416 = false) /\
  (group_read 416 = true /\ group_write 416 = false /\ group_exec 416 = false) /\
  (other_read 416 = false /\ other_write 416 = false /\ other_exec 416 = false).
Proof.
  intros Hp Hm. unfold NewRotatingFileSink.
  apply String.eqb_neq in Hp. rewrite Hp. simpl FileMode. rewrite Hm.
  change (0 =? 0) with true. cbv iota. simpl Path. simpl Policy. simpl OptName.
  assert (Hs0 : exists s0, s0 = mkSink (Path o)
            (mkOptions (Path o) (normalizeRotationPolicy (Policy o)) (OptName o) 416)
            None 0 time_zero false /\ path s0 = Path o /\ FileMode (opt s0) = 416)
    by (eexists; repeat split).
  destruct Hs0 as (s0 & Es0 & Hpath0 & Hmode0). rewrite <- Es0.
  split; [| split; [| repeat split; reflexivity]].
  - pose proof (openCurrent_extends
      (fun c => forall n f m, c = CallOpenFile n f m ->
         n = filepath_Base (Path o) /\ f = active_flags /\ m = 416) w s0) as X.
    destruct (openCurrent w s0) as [[w1 s1] [e |]]; simpl in *;
      rewrite Hpath0, Hmode0 in X;
      apply X; intros; try discriminate;
      match goal with H : CallOpenFile _ _ _ = CallOpenFile _ _ _ |- _ =>
        injection H as <- <- <- end; auto.
  - intros s Hs.
    destruct (openCurrent w s0) as [[w1 s1] [e |]] eqn:E; simpl in Hs; [discriminate |].
    injection Hs as <-. simpl fst.
    pose proof (openCurrent_ok w s0 w1 s1 E) as (Hf & Hpath & Hopt & _ & _ & Hlog).
    rewrite Hpath0, ?Hmode0 in *.
    repeat split.
    + rewrite Hopt. exact Hmode0.
    + exact Hf.
    + rewrite Hlog. apply in_or_app. right. simpl. auto.
    + intros Hnone. revert E. unfold openCurrent, os_MkdirAll, os_OpenFile, file_Stat.
      rewrite Hpath0, Hmode0.
      enter_cases; try discriminate.
      replace (w_dir w2 !! filepath_Base (Path o)) with (@None File) by congruence.
      change (Z.land active_flags O_CREATE =? 0) with false. cbv iota.
      enter_cases; try discriminate. simpl.
      match goal with H : w_dir ?w3 = <[_ := _]> _ |- _ => rewrite H end.
      rewrite lookup_insert_eq. intros [= <- <-]. simpl.
      match goal with H : w_dir ?w3 = <[_ := _]> _ |- _ => rewrite H end.
      rewrite lookup_insert_eq. eexists; split; [reflexivity |]. simpl. congruence.
Qed.

(** *** When a write rotates *)

Lemma normalizeRotationPolicy_spec p :
  spolicy.MaxSizeMB (normalizeRotationPolicy p) = Z.max 0 (spolicy.MaxSizeMB p) /\
  spolicy.MaxAgeDays (normalizeRotationPolicy p) = Z.max 0 (spolicy.MaxAgeDays p) /\
  spolicy.MaxBackups (normalizeRotationPolicy p) = Z.max 0 (spolicy.MaxBackups p) /\
  spolicy.Compress (normalizeRotationPolicy p) = spolicy.Compress p.
Proof.
  unfold normalizeRotationPolicy. destruct p as [a b c d]. simpl.
  destruct (Z.ltb_spec a 0); simpl;
    destruct (Z.ltb_spec b 0); simpl;
    destruct (Z.ltb_spec c 0); simpl; repeat split; lia.
Qed.

(** The rule of [shouldRotate], for limits and sizes that the 64-bit
    arithmetic can hold: the size limit is [MaxSizeMB] mebibytes, the age
    limit [MaxAgeDays] days. *)
Lemma shouldRotate_in_range s now n :
  in_int64 (size s + n) ->
  spolicy.MaxSizeMB (Policy (opt s)) * MiB <= max_int64 ->
  spolicy.MaxAgeDays (Policy (opt s)) * Day <= max_int64 ->
  shouldRotate s now n = true <->
  (0 < spolicy.MaxSizeMB (Policy (opt s)) /\
   size s + n > spolicy.MaxSizeMB (Policy (opt s)) * MiB) \/
  (0 < spolicy.MaxAgeDays (Policy (opt s)) /\
   now - created s >= spolicy.MaxAgeDays (Policy (opt s)) * Day).
Proof.
  unfold shouldRotate, add64, mul64, MiB, Day, Hour.
  set (m := spolicy.MaxSizeMB (Policy (opt s))).
  set (a := spolicy.MaxAgeDays (Policy (opt s))).
  intros Hsz Hm Ha.
  rewrite (wrap64_id (size s + n)) by exact Hsz.
  assert (Em : 0 < m -> wrap64 (wrap64 (m * 1024) * 1024) = m * 1048576).
  { intros Hpos. unfold max_int64 in Hm.
    rewrite (wrap64_id (m * 1024)) by (unfold in_int64, min_int64, max_int64; lia).
    rewrite wrap64_id by (unfold in_int64, min_int64, max_int64; lia). lia. }
  assert (Ea : 0 < a -> wrap64 (wrap64 (a * 24) * 3600000000000) = a * 86400000000000).
  { intros Hpos. unfold max_int64 in Ha.
    rewrite (wrap64_id (a * 24)) by (unfold in_int64, min_int64, max_int64; lia).
    rewrite wrap64_id by (unfold in_int64, min_int64, max_int64; lia). lia. }
  destruct (Z.ltb_spec 0 m) as [Hm0 | Hm0]; simpl.
  - rewrite (Em Hm0).
    destruct (Z.gtb_spec (size s + n) (m * 1048576)) as [Hgt | Hle].
    + split; [intros _; left; lia | reflexivity].
    + destruct (Z.ltb_spec 0 a) as [Ha0 | Ha0]; simpl.
      * rewrite (Ea Ha0).
        rewrite time_Sub_geb by (unfold min_int64, max_int64 in *; lia).
        destruct (Z.geb_spec (now - created s) (a * 86400000000000));
          split; intros; try discriminate; try reflexivity; lia.
      * split; [discriminate | lia].
  - destruct (Z.ltb_spec 0 a) as [Ha0 | Ha0]; simpl.
    + rewrite (Ea Ha0).
      rewrite time_Sub_geb by (unfold min_int64, max_int64 in *; lia).
      destruct (Z.geb_spec (now - created s) (a * 86400000000000));
        split; intros; try discriminate; try reflexivity; lia.
    + split; [discriminate | lia].
Qed.

(** With both dimensions disabled no write rotates, whatever the size and
    the age. *)
Lemma shouldRotate_disabled s now n :
  spolicy.MaxSizeMB (Policy (opt s)) = 0 ->
  spolicy.MaxAgeDays (Policy (opt s)) = 0 ->
  shouldRotate s now n = false.
Proof. intros Hm Ha. unfold shouldRotate. rewrite Hm, Ha. reflexivity. Qed.

(** [Write] on an open sink that holds its file: the rotation, if
    [shouldRotate] asks for one, then the append. *)
Lemma Write_open ctx entry w s h :
  ctx_Err ctx = None -> closed s = false -> file s = Some h ->
  Write gzip ctx entry w s =
  if shouldRotate s (time_Now w) (Z.of_nat (length entry)) then
    match rotateLocked gzip w s with
    | (w2, s2, Some e) => (w2, s2, Some e)
    | (w2, s2, None) => appendEntry entry w2 s2
    end
  else appendEntry entry w s.
Proof. intros Hx Hc Hf. unfold Write. rewrite Hx, Hc, Hf. reflexivity. Qed.

(** *** The steps of [Write] *)

Lemma Write_steps ctx entry w s :
  ctx_Err ctx = None -> closed s = false ->
  Write gzip ctx entry w s =
  match beforeAppend gzip entry w s with
  | (w1, s1, Some e) => (w1, s1, Some e)
  | (w1, s1, None) => appendEntry entry w1 s1
  end.
Proof.
  intros Hx Hc. unfold Write, beforeAppend, ensureOpen. rewrite Hx, Hc.
  destruct (match file s with None => openCurrent w s | Some _ => (w, s, None) end)
    as [[w1 s1] [e |]]; [reflexivity |].
  destruct (shouldRotate s1 (time_Now w1) (Z.of_nat (length entry))); [| reflexivity].
  destruct (rotateLocked gzip w1 s1) as [[w2 s2] [e |]]; reflexivity.
Qed.

Lemma ensureOpen_ok w s w1 s1 :
  ensureOpen w s = (w1, s1, None) -> exists h, file s1 = Some h.
Proof.
  unfold ensureOpen. destruct (file s) as [h |] eqn:Ef.
  - intros [= <- <-]. eauto.
  - intros E. apply openCurrent_ok in E as (Hf & _). eauto.
Qed.

(** The sink as [rotateLocked] leaves it when it fails: the handle is
    gone, every other field is as before. *)
Lemma rotateLocked_failed w s w' s' e :
  rotateLocked gzip w s = (w', s', Some e) -> s' = set_file None s.
Proof.
  unfold rotateLocked.
  assert (Hs1 : forall w1 s1,
    (let '(w1, s1) := (w1, s1) in
     match os_Stat (filepath_Base (path s1)) w1 with
     | (w2, Ok _) =>
       match os_Rename (filepath_Base (path s1))
                       (rotatedFilename (path s1) (time_Now w2)) w2 with
       | (w3, Some e) => (w3, s1, Some e)
       | (w3, None) =>
         openCurrent
           (if 0 <? spolicy.MaxBackups (Policy (opt s1))
            then fst (pruneBackups (path s1) (spolicy.MaxBackups (Policy (opt s1)))
                        (if spolicy.Compress (Policy (opt s1))
                         then fst (compressFile gzip
                                     (rotatedFilename (path s1) (time_Now w2)) w3)
                         else w3))
            else (if spolicy.Compress (Policy (opt s1))
                  then fst (compressFile gzip
                              (rotatedFilename (path s1) (time_Now w2)) w3)
                  else w3)) s1
       end
     | (w2, Err _) => openCurrent w2 s1
     end) = (w', s', Some e) -> s' = s1).
  { intros w1 s1.
    destruct (os_Stat _ w1) as [w2 [info | e0]].
    - destruct (os_Rename _ _ w2) as [w3 [e1 |]]; [congruence |].
      apply openCurrent_failed.
    - apply openCurrent_failed. }
  destruct (file s) as [f |] eqn:Ef.
  - intros E. apply Hs1 in E. exact E.
  - intros E. apply Hs1 in E. subst s'. destruct s; simpl in *. subst. reflexivity.
Qed.

Lemma rotateLocked_ok w s w' s' :
  rotateLocked gzip w s = (w', s', None) ->
  exists h, file s' = Some h.
Proof.
  unfold rotateLocked.
  destruct (match file s with
            | Some f => (fst (file_Close f w), set_file None s)
            | None => (w, s)
            end) as [w1 s1].
  destruct (os_Stat _ w1) as [w2 [info | e0]].
  - destruct (os_Rename _ _ w2) as [w3 [e1 |]]; [discriminate |].
    intros E. apply openCurrent_ok in E as (Hf & _). eauto.
  - intros E. apply openCurrent_ok in E as (Hf & _). eauto.
Qed.

Lemma beforeAppend_ok entry w s w1 s1 :
  beforeAppend gzip entry w s = (w1, s1, None) -> exists h, file s1 = Some h.
Proof.
  unfold beforeAppend.
  destruct (ensureOpen w s) as [[w0 s0] [e |]] eqn:E0; [discriminate |].
  destruct (shouldRotate s0 (time_Now w0) (Z.of_nat (length entry))).
  - apply rotateLocked_ok.
  - intros [= <- <-]. eapply ensureOpen_ok; eauto.
Qed.

(** *** Counting what was written *)

(** C8. When [Write] gets to its append, in the state [(w1, s1)] that the
    reopening and the rotation leave, the file write it makes on the open
    handle reports a count [n] and an error [err]; [Write] returns [err],
    and the size it keeps is the size of [s1] plus [n] in 64-bit
    arithmetic, which is exactly [size s1 + n] when that fits.  [err] is
    not looked at: the count is added when it is an error too. *)
Theorem write_counts_stored_bytes ctx entry w s w1 s1 :
  ctx_Err ctx = None -> closed s = false ->
  beforeAppend gzip entry w s = (w1, s1, None) ->
  exists h w2 n err,
    file s1 = Some h /\
    file_Write h entry w1 = (w2, (n, err)) /\
    0 <= n <= Z.of_nat (length entry) /\
    Write gzip ctx entry w s = (w2, set_size (add64 (size s1) n) s1, err) /\
    (in_int64 (size s1 + n) ->
     size (snd (fst (Write gzip ctx entry w s))) = size s1 + n).
Proof.
  intros Hx Hc Hb.
  destruct (beforeAppend_ok _ _ _ _ _ Hb) as [h Hh].
  rewrite (Write_steps ctx entry w s Hx Hc), Hb.
  unfold appendEntry. rewrite Hh.
  destruct (file_Write h entry w1) as [w2 [n err]] eqn:Ew.
  exists h, w2, n, err. repeat split; auto.
  - revert Ew. unfold file_Write.
    destruct (enter SysWrite _ w1) as [ft w1']. intros [= _ <- _]. lia.
  - revert Ew. unfold file_Write.
    destruct (enter SysWrite _ w1) as [ft w1']. intros [= _ <- _].
    apply inj_le. destruct ft as [[e | k e] |]; simpl; try lia.
    rewrite length_take. lia.
  - intros Hr. simpl. unfold add64. apply wrap64_id. exact Hr.
Qed.

(** *** A rotation that fails *)

Lemma collect_backups_extends (P : oscall -> Prop) prefix entries w acc :
  (forall n, P (CallInfo n)) ->
  extends P w (fst (collect_backups prefix entries w acc)).
Proof.
  intros HP. revert w acc.
  induction entries as [| name rest IH]; intros w acc; simpl.
  - apply extends_refl.
  - destruct (negb (HasPrefix name prefix)); [apply IH |].
    pose proof (entry_Info_extends P name w (HP name)) as X.
    destruct (entry_Info name w) as [w1 [info | e]]; simpl in X;
      eapply extends_trans; eauto.
Qed.

Lemma remove_each_extends (P : oscall -> Prop) l w :
  (forall n, P (CallRemove n)) -> extends P w (remove_each l w).
Proof.
  intros HP. revert w. induction l as [| b rest IH]; intros w; simpl.
  - apply extends_refl.
  - eapply extends_trans; [apply os_Remove_extends, HP | apply IH].
Qed.

Lemma pruneBackups_extends (P : oscall -> Prop) basePath k w :
  P CallReadDir -> (forall n, P (CallInfo n)) -> (forall n, P (CallRemove n)) ->
  extends P w (fst (pruneBackups basePath k w)).
Proof.
  intros P1 P2 P3. unfold pruneBackups.
  destruct (k <=? 0); [apply extends_refl |].
  pose proof (os_ReadDir_extends P w P1) as X1.
  destruct (os_ReadDir w) as [w1 [entries | e]]; simpl in X1; [| exact X1].
  pose proof (collect_backups_extends P (filepath_Base basePath ++ ".")%string
                entries w1 [] P2) as X2.
  destruct (collect_backups _ entries w1 []) as [w2 backups]. simpl in X2.
  destruct (Z.of_nat (length backups) <=? k); simpl.
  - eapply extends_trans; eauto.
  - eapply extends_trans; [eapply extends_trans; eauto |].
    apply remove_each_extends, P3.
Qed.

Lemma gzip_copy_extends (P : oscall -> Prop) src dst w :
  P (CallGzip (h_name src) (h_name dst)) ->
  extends P w (fst (gzip_copy gzip src dst w)).
Proof. intros HP. unfold gzip_copy. one_call HP. Qed.

Lemma close_both_extends (P : oscall -> Prop) src dst w :
  (forall n, P (CallClose n)) -> extends P w (close_both src dst w).
Proof.
  intros HP. unfold close_both.
  eapply extends_trans; apply file_Close_extends, HP.
Qed.

Lemma compressFile_extends (P : oscall -> Prop) srcPath w :
  (forall c, not_write c -> P c) ->
  extends P w (fst (compressFile gzip srcPath w)).
Proof.
  intros HP.
  assert (HQ : forall c, (forall n b, c <> CallWrite n b) -> P c) by exact HP.
  unfold compressFile.
  pose proof (os_Open_extends P srcPath w) as X1.
  destruct (os_Open srcPath w) as [w1 [src | e]]; simpl in X1;
    [| apply X1, HQ; discriminate].
  pose proof (os_OpenFile_extends P (srcPath ++ ".gz")%string
                (Z.lor (Z.lor O_CREATE O_WRONLY) O_TRUNC) 416 w1) as X2.
  destruct (os_OpenFile _ _ _ w1) as [w2 [dst | e]]; simpl in X2.
  - pose proof (gzip_copy_extends P src dst w2) as X3.
    destruct (gzip_copy gzip src dst w2) as [w3 [e |]]; simpl in X3 |- *.
    + eapply extends_trans; [eapply extends_trans; [eapply extends_trans |] |].
      * apply X1, HQ; discriminate.
      * apply X2, HQ; discriminate.
      * apply X3, HQ; discriminate.
      * apply close_both_extends. intros; apply HQ; discriminate.
    + pose proof (os_Remove_extends P srcPath w3) as X4.
      destruct (os_Remove srcPath w3) as [w4 r]; simpl in X4 |- *.
      eapply extends_trans;
        [eapply extends_trans; [eapply extends_trans; [eapply extends_trans |] |] |].
      * apply X1, HQ; discriminate.
      * apply X2, HQ; discriminate.
      * apply X3, HQ; discriminate.
      * apply X4, HQ; discriminate.
      * apply close_both_extends. intros; apply HQ; discriminate.
  - simpl. eapply extends_trans; [eapply extends_trans |].
    + apply X1, HQ; discriminate.
    + apply X2, HQ; discriminate.
    + apply file_Close_extends, HQ; discriminate.
Qed.

(** A rotation writes to no file. *)
Lemma rotateLocked_no_write w s :
  extends not_write w (fst (fst (rotateLocked gzip w s))).
Proof.
  assert (HQ : forall c, (forall n b, c <> CallWrite n b) -> not_write c)
    by (intros c Hc; exact Hc).
  unfold rotateLocked.
  assert (X0 : extends not_write w
                 (fst (match file s with
                       | Some f => (fst (file_Close f w), set_file None s)
                       | None => (w, s)
                       end))).
  { destruct (file s); simpl; [| apply extends_refl].
    apply file_Close_extends, HQ; discriminate. }
  destruct (match file s with
            | Some f => (fst (file_Close f w), set_file None s)
            | None => (w, s)
            end) as [w1 s1]. simpl in X0.
  assert (Xo : forall wa, extends not_write wa (fst (fst (openCurrent wa s1)))).
  { intros wa. apply openCurrent_extends; apply HQ; discriminate. }
  pose proof (os_Stat_extends not_write (filepath_Base (path s1)) w1) as X1.
  destruct (os_Stat _ w1) as [w2 [info | e0]]; simpl in X1.
  - pose proof (os_Rename_extends not_write (filepath_Base (path s1))
                  (rotatedFilename (path s1) (time_Now w2)) w2) as X2.
    destruct (os_Rename _ _ w2) as [w3 [e1 |]]; simpl in X2 |- *.
    + eapply extends_trans; [eapply extends_trans; [exact X0 |] |].
      * apply X1, HQ; discriminate.
      * apply X2, HQ; discriminate.
    + eapply extends_trans; [| apply Xo].
      eapply extends_trans; [eapply extends_trans; [eapply extends_trans;
        [exact X0 | apply X1, HQ; discriminate] | apply X2, HQ; discriminate] |].
      assert (X4 : extends not_write w3
                (if spolicy.Compress (Policy (opt s1))
                 then fst (compressFile gzip
                             (rotatedFilename (path s1) (time_Now w2)) w3)
                 else w3)).
      { destruct (spolicy.Compress _); [| apply extends_refl].
        apply compressFile_extends. auto. }
      destruct (0 <? spolicy.MaxBackups (Policy (opt s1))); [| exact X4].
      eapply extends_trans; [exact X4 |].
      apply pruneBackups_extends; intros; apply HQ; discriminate.
  - eapply extends_trans; [| apply Xo].
    eapply extends_trans; [exact X0 | apply X1, HQ; discriminate].
Qed.

Lemma extends_last (P : oscall -> Prop) w w' :
  extends P w w' -> (length (w_log w) < length (w_log w'))%nat ->
  exists c, last (w_log w') = Some c /\ P c.
Proof.
  intros (l & E & F) Hlen. rewrite E in Hlen |- *.
  destruct (last l) as [c |] eqn:El.
  - exists c. split.
    + rewrite last_app, El. reflexivity.
    + apply last_Some_elem_of in El. rewrite Forall_forall in F. apply F, El.
  - apply last_None in El. subst l. rewrite app_nil_r in Hlen. lia.
Qed.

Lemma extends_length (P : oscall -> Prop) w w' :
  extends P w w' -> (length (w_log w) <= length (w_log w'))%nat.
Proof. intros (l & E & _). rewrite E, length_app. lia. Qed.

(** [openCurrent] always makes at least one call. *)
Lemma openCurrent_grows w s :
  (length (w_log w) < length (w_log (fst (fst (openCurrent w s)))))%nat.
Proof.
  unfold openCurrent.
  pose proof (enter_spec SysMkdirAll (CallMkdirAll 493) w) as (_ & _ & _ & Hl).
  unfold os_MkdirAll.
  destruct (enter SysMkdirAll (CallMkdirAll 493) w) as [[ft |] w1]; simpl in Hl |- *.
  - rewrite Hl, length_app. simpl. lia.
  - assert (Hrest : (length (w_log w1) <=
              length (w_log (fst (fst
                (match os_OpenFile (filepath_Base (path s)) active_flags
                         (FileMode (opt s)) w1 with
                 | (w2, Err e) => (w2, s, Some e)
                 | (w2, Ok f) =>
                   match file_Stat f w2 with
                   | (w3, Err e) => (fst (file_Close f w3), s, Some e)
                   | (w3, Ok info) =>
                     (w3, mkSink (path s) (opt s) (Some f) (fi_Size info)
                                 (fi_ModTime info) (closed s), None)
                   end
                 end)))))%nat).
    { apply (extends_length (fun _ => True)).
      pose proof (os_OpenFile_extends (fun _ => True) (filepath_Base (path s))
                    active_flags (FileMode (opt s)) w1 I) as X2.
      destruct (os_OpenFile _ _ _ w1) as [w2 [f | e]]; simpl in X2 |- *; [| exact X2].
      pose proof (file_Stat_extends (fun _ => True) f w2 I) as X3.
      destruct (file_Stat f w2) as [w3 [info | e]]; simpl in X3 |- *.
      - eapply extends_trans; eauto.
      - eapply extends_trans; [eapply extends_trans; eauto |].
        apply file_Close_extends. exact I. }
    rewrite Hl, length_app in Hrest. simpl in Hrest. lia.
Qed.

Lemma openCurrent_last_call w s :
  exists c, last (w_log (fst (fst (openCurrent w s)))) = Some c /\ not_rename c.
Proof.
  apply (extends_last not_rename w).
  - apply openCurrent_extends; intros a b; discriminate.
  - apply openCurrent_grows.
Qed.

(** When the rotation stops at the rename, which is then the last call in
    the log, the directory is as it was. *)
Lemma rotateLocked_rename_failed w s w' s' e :
  rotateLocked gzip w s = (w', s', Some e) ->
  (exists a b, last (w_log w') = Some (CallRename a b)) ->
  w_dir w' = w_dir w.
Proof.
  unfold rotateLocked.
  assert (D0 : w_dir (fst (match file s with
                           | Some f => (fst (file_Close f w), set_file None s)
                           | None => (w, s)
                           end)) = w_dir w).
  { destruct (file s); simpl; [apply file_Close_dir | reflexivity]. }
  destruct (match file s with
            | Some f => (fst (file_Close f w), set_file None s)
            | None => (w, s)
            end) as [w1 s1]. simpl in D0.
  pose proof (os_Stat_dir (filepath_Base (path s1)) w1) as D1.
  destruct (os_Stat _ w1) as [w2 [info | e0]]; simpl in D1.
  - pose proof (os_Rename_failed (filepath_Base (path s1))
                  (rotatedFilename (path s1) (time_Now w2)) w2) as D2.
    destruct (os_Rename _ _ w2) as [w3 [e1 |]]; simpl in D2.
    + intros [= <- _ _] _. rewrite (D2 e1 eq_refl). congruence.
    + intros E (a & b & Hlast).
      match type of E with openCurrent ?wx ?sx = _ =>
        destruct (openCurrent_last_call wx sx) as (c & Hc & Hnr); rewrite E in Hc
      end.
      simpl in Hc. rewrite Hlast in Hc. injection Hc as <-.
      exfalso. exact (Hnr a b eq_refl).
  - intros E (a & b & Hlast).
    destruct (openCurrent_last_call w2 s1) as (c & Hc & Hnr). rewrite E in Hc.
    simpl in Hc. rewrite Hlast in Hc. injection Hc as <-.
    exfalso. exact (Hnr a b eq_refl).
Qed.

End WithGzip.

(** *** Concrete runs *)

(** C1, where the code departs from it.  With [MaxAgeDays] = 106752 and no
    size limit, the age limit in nanoseconds does not fit 64 bits and comes
    out negative: the sink rotates on the first write to a file that it
    created in the same instant, whose age, zero, is far below 106752
    days. *)
Theorem age_limit_overflow_rotates :
  let p := spolicy.mkRotation 0 106752 0 false in
  match NewRotatingFileSink (app_log p) empty_world with
  | (w1, Ok s1) =>
    Policy (opt s1) = p /\
    time_Now w1 - created s1 = 0 /\
    0 < 106752 * Day /\
    shouldRotate s1 (time_Now w1) 1 = true /\
    match Write store_only Background [Byte.x58] w1 s1 with
    | (w2, s2, r) =>
      r = None /\
      In (CallRename "app.log" "app.log.20250301-123456") (w_log w2) /\
      w_dir w2 !! "app.log.20250301-123456"%string
        = Some (mkFile [] 1740832496000000000 416) /\
      w_dir w2 !! "app.log"%string
        = Some (mkFile [Byte.x58] 1740832496000000000 416)
    end
  | (_, Err _) => False
  end.
Proof. vm_compute. repeat split; auto 20. Qed.


(** C2 as the specification words it fails when the rotation fails after the
    rename: the write needs a rotation, the reopening of the fresh file
    fails, [Write] returns that error, and the active file is no longer on
    disk under its name; its content now sits under the backup name. *)
Lemma failed_reopen_moves_active_file :
  let w := aged_world {[ SysOpenFile := [Fail (Errno 24)] ]} in
  shouldRotate aged_sink (time_Now w) 1 = true /\
  snd (rotateLocked store_only w aged_sink) = Some (Errno 24) /\
  snd (Write store_only Background [Byte.x58] w aged_sink) = Some (Errno 24) /\
  w_dir w !! "app.log"%string = Some old_file /\
  w_dir (fst (fst (Write store_only Background [Byte.x58] w aged_sink)))
    !! "app.log"%string = None /\
  w_dir (fst (fst (Write store_only Background [Byte.x58] w aged_sink)))
    !! "app.log.19700103-000000"%string = Some old_file.
Proof. vm_compute. repeat split; reflexivity. Qed.

Lemma cancelled_context_wins_witness :
  let s := set_closed true aged_sink in
  Write store_only (mkContext (Some Canceled)) [Byte.x58] (aged_world ∅) s
    = (aged_world ∅, s, Some Canceled) /\
  Flush (mkContext (Some Canceled)) (aged_world ∅) s
    = (aged_world ∅, s, Some Canceled).
Proof.
  apply (cancelled_context_wins store_only (mkContext (Some Canceled)) Canceled).
  reflexivity.
Defined.

(** A write of three bytes of which the disk takes two: the error comes
    back and the size goes from 3 to 5. *)
Lemma write_counts_stored_bytes_witness :
  let w := mkWorld {[ "app.log"%string := old_file ]} 0 18
                   {[ SysWrite := [Short 2 (Errno 28)] ]} [] in
  let s := mkSink "/var/log/app.log"
                  (mkOptions "/var/log/app.log" (spolicy.mkRotation 0 0 0 false) EmptyString 416)
                  (Some (mkHandle "app.log" active_flags)) 3 0 false in
  snd (Write store_only Background [Byte.x61; Byte.x62; Byte.x63] w s) = Some (Errno 28) /\
  size (snd (fst (Write store_only Background [Byte.x61; Byte.x62; Byte.x63] w s))) = 5.
Proof.
  intros w s.
  destruct (write_counts_stored_bytes store_only Background
              [Byte.x61; Byte.x62; Byte.x63] w s w s)
    as (h & w2 & n & err & Hh & Hw & Hn & HW & Hsz).
  - reflexivity.
  - reflexivity.
  - reflexivity.
  - injection Hh as <-.
    assert (En : n = 2 /\ err = Some (Errno 28)).
    { revert Hw. vm_compute. intros [= _ <- <-]. split; reflexivity. }
    destruct En as [-> ->]. split.
    + rewrite HW. reflexivity.
    + apply Hsz. vm_compute. split; discriminate.
Defined.

(** C7 as the specification words it fails on the group: a sink built with a zero
    mode, in a directory with no umask, creates its file with mode 0640,
    where the group has read access and no write access. *)
Lemma default_mode_denies_group_write :
  let w := mkWorld ∅ 0 0 ∅ [] in
  match NewRotatingFileSink (app_log (spolicy.mkRotation 0 0 0 false)) w with
  | (w1, Ok s) =>
    FileMode (opt s) = 416 /\
    group_write (FileMode (opt s)) = false /\
    In (CallOpenFile "app.log" active_flags 416) (w_log w1) /\
    exists f, w_dir w1 !! "app.log"%string = Some f /\
              group_read (f_perm f) = true /\ group_write (f_perm f) = false
  | (_, Err _) => False
  end.
Proof.
  vm_compute. repeat split; auto.
  eexists. repeat split; reflexivity.
Qed.

Lemma default_mode_is_0640_witness :
  match snd (NewRotatingFileSink (app_log (spolicy.mkRotation 0 0 0 false)) empty_world) with
  | Ok s =>
    FileMode (opt s) = 416 /\
    file s = Some (mkHandle "app.log" active_flags)
  | Err _ => False
  end.
Proof.
  pose proof (default_mode_is_0640 (app_log (spolicy.mkRotation 0 0 0 false)) empty_world)
    as H.
  destruct (snd (NewRotatingFileSink (app_log (spolicy.mkRotation 0 0 0 false)) empty_world))
    as [s | e] eqn:E.
  - destruct H as (_ & H & _); [discriminate | reflexivity |].
    destruct (H s eq_refl) as (Hm & Hf & _). split; [exact Hm | exact Hf].
  - vm_compute in E. discriminate.
Defined.


(** *** Pruning *)

Lemma quiet_faults k w w' : w_faults w' = w_faults w -> quiet k w' = quiet k w.
Proof. unfold quiet. intros ->. reflexivity. Qed.

Lemma elem_of_listing d n : n ∈ listing d <-> is_Some (d !! n).
Proof.
  unfold listing. rewrite sort_slice_perm, list_elem_of_fmap. split.
  - intros ([k f] & -> & Hin). apply elem_of_map_to_list in Hin. simpl. eauto.
  - intros [f Hf]. exists (n, f). split; [reflexivity |].
    apply elem_of_map_to_list. exact Hf.
Qed.

Lemma NoDup_listing d : NoDup (listing d).
Proof. unfold listing. rewrite sort_slice_perm. apply NoDup_fst_map_to_list. Qed.

Lemma os_ReadDir_quiet w :
  quiet SysReadDir w = true ->
  os_ReadDir w = (record_call CallReadDir w, Ok (listing (w_dir w))).
Proof. intros Hq. unfold os_ReadDir. rewrite enter_quiet by exact Hq. reflexivity. Qed.

Lemma collect_backups_quiet basePath entries w acc :
  quiet SysInfo w = true ->
  (forall n, n ∈ entries -> is_Some (w_dir w !! n)) ->
  exists w',
    collect_backups (filepath_Base basePath ++ ".")%string entries w acc
      = (w', acc ++ (backup_of (w_dir w) <$> filter (is_backup basePath) entries)) /\
    w_dir w' = w_dir w /\ w_faults w' = w_faults w.
Proof.
  revert w acc. induction entries as [| name rest IH]; intros w acc Hq Hin; simpl.
  - exists w. rewrite app_nil_r. auto.
  - destruct (HasPrefix name (filepath_Base basePath ++ ".")%string) eqn:Hp; simpl.
    + rewrite filter_cons_True by exact Hp.
      destruct (Hin name) as [f Hf]; [left |].
      unfold entry_Info. rewrite enter_quiet by exact Hq. simpl. rewrite Hf.
      destruct (IH (record_call (CallInfo name) w)
                   (acc ++ [mkBackup name (fi_ModTime (info_of f))]))
        as (w' & E & Hd & Hf').
      * exact Hq.
      * intros n Hn. apply Hin. right. exact Hn.
      * exists w'. simpl in E, Hd, Hf' |- *. rewrite E. split; [| auto].
        rewrite <- app_assoc. simpl. unfold backup_of at 2.
        rewrite Hf. reflexivity.
    + rewrite filter_cons_False by (unfold is_backup; congruence).
      apply IH; [exact Hq |]. intros n Hn. apply Hin. right. exact Hn.
Qed.

Lemma remove_each_quiet l w :
  quiet SysRemove w = true ->
  w_faults (remove_each l w) = w_faults w /\
  forall n, w_dir (remove_each l w) !! n =
            if decide (n ∈ b_path <$> l) then None else w_dir w !! n.
Proof.
  revert w. induction l as [| b rest IH]; intros w Hq; simpl.
  - split; [reflexivity |]. intros n. destruct (decide (n ∈ [])) as [Hn |]; [| reflexivity].
    inversion Hn.
  - unfold os_Remove. rewrite enter_quiet by exact Hq. simpl.
    destruct (w_dir w !! b_path b) as [f |] eqn:Ef; simpl.
    + destruct (IH (set_dir (delete (b_path b) (w_dir w))
                      (record_call (CallRemove (b_path b)) w)) Hq) as [Hf Hl].
      split; [exact Hf |]. intros n. rewrite Hl. simpl.
      destruct (decide (n ∈ b_path <$> rest)) as [Hn | Hn].
      * rewrite decide_True by (right; exact Hn). reflexivity.
      * destruct (decide (n = b_path b)) as [-> | Hne].
        -- rewrite decide_True by left. apply lookup_delete_eq.
        -- rewrite decide_False by (intros Hc; inversion Hc; subst; contradiction).
           apply lookup_delete_ne. congruence.
    + destruct (IH (record_call (CallRemove (b_path b)) w) Hq) as [Hf Hl].
      split; [exact Hf |]. intros n. rewrite Hl. simpl.
      destruct (decide (n ∈ b_path <$> rest)) as [Hn | Hn].
      * rewrite decide_True by (right; exact Hn). reflexivity.
      * destruct (decide (n = b_path b)) as [-> | Hne].
        -- rewrite decide_True by left. exact Ef.
        -- rewrite decide_False by (intros Hc; inversion Hc; subst; contradiction).
           reflexivity.
Qed.


Lemma selected_quiet basePath w :
  quiet SysReadDir w = true -> quiet SysInfo w = true ->
  selected basePath w
  = backup_of (w_dir w) <$> filter (is_backup basePath) (listing (w_dir w)).
Proof.
  intros Hr Hi. unfold selected. rewrite os_ReadDir_quiet by exact Hr.
  destruct (collect_backups_quiet basePath (listing (w_dir w))
              (record_call CallReadDir w) []) as (w' & E & _).
  - exact Hi.
  - intros n Hn. apply elem_of_listing in Hn. exact Hn.
  - rewrite E. reflexivity.
Qed.

Lemma selected_names basePath w :
  quiet SysReadDir w = true -> quiet SysInfo w = true ->
  b_path <$> selected basePath w = filter (is_backup basePath) (listing (w_dir w)).
Proof.
  intros Hr Hi. rewrite selected_quiet by assumption.
  rewrite <- list_fmap_compose. apply list_fmap_id.
Qed.

(** What one run of [pruneBackups] does to the directory when the
    operating system reports no failure: with more than [maxBackups]
    selected, the first ones in ascending order of modification time go,
    down to [maxBackups]; nothing else changes. *)
Lemma pruneBackups_quiet basePath maxBackups w :
  0 < maxBackups ->
  quiet SysReadDir w = true -> quiet SysInfo w = true -> quiet SysRemove w = true ->
  snd (pruneBackups basePath maxBackups w) = None /\
  forall n,
    w_dir (fst (pruneBackups basePath maxBackups w)) !! n =
    if Z.of_nat (length (selected basePath w)) <=? maxBackups then w_dir w !! n
    else if decide (n ∈ b_path <$>
                      take (length (selected basePath w) - Z.to_nat maxBackups)%nat
                           (sort_slice older (selected basePath w)))
         then None else w_dir w !! n.
Proof.
  intros HK Hr Hi Hd. rewrite (selected_quiet basePath w Hr Hi).
  unfold pruneBackups. destruct (Z.leb_spec maxBackups 0) as [| _]; [lia |].
  rewrite os_ReadDir_quiet by exact Hr.
  destruct (collect_backups_quiet basePath (listing (w_dir w))
              (record_call CallReadDir w) []) as (w' & E & Hdir & Hfaults).
  - exact Hi.
  - intros n Hn. apply elem_of_listing in Hn. exact Hn.
  - rewrite E. simpl in Hdir, Hfaults |- *.
    destruct (Z.of_nat (length (backup_of (w_dir w) <$>
                filter (is_backup basePath) (listing (w_dir w)))) <=? maxBackups).
    + simpl. split; [reflexivity |]. intros n. rewrite Hdir. reflexivity.
    + simpl. split; [reflexivity |]. intros n.
      destruct (remove_each_quiet
                  (take (length (backup_of (w_dir w) <$>
                           filter (is_backup basePath) (listing (w_dir w)))
                         - Z.to_nat maxBackups)%nat
                     (sort_slice older (backup_of (w_dir w) <$>
                        filter (is_backup basePath) (listing (w_dir w))))) w')
        as [_ Hl].
      * rewrite (quiet_faults _ _ _ Hfaults). exact Hd.
      * unfold older in Hl |- *. rewrite Hl, Hdir. reflexivity.
Qed.


Lemma NoDup_selected_names basePath w :
  quiet SysReadDir w = true -> quiet SysInfo w = true ->
  NoDup (b_path <$> selected basePath w).
Proof.
  intros Hr Hi. rewrite selected_names by assumption.
  apply NoDup_filter, NoDup_listing.
Qed.

Lemma elem_of_selected_names basePath w n :
  quiet SysReadDir w = true -> quiet SysInfo w = true ->
  n ∈ b_path <$> selected basePath w <->
  is_Some (w_dir w !! n) /\ is_backup basePath n.
Proof.
  intros Hr Hi. rewrite selected_names by assumption.
  rewrite list_elem_of_filter, elem_of_listing. tauto.
Qed.

Lemma elem_of_selected basePath w b :
  quiet SysReadDir w = true -> quiet SysInfo w = true ->
  b ∈ selected basePath w <->
  exists f, w_dir w !! b_path b = Some f /\ is_backup basePath (b_path b) /\
            b_modTime b = f_modTime f.
Proof.
  intros Hr Hi. rewrite selected_quiet by assumption.
  rewrite list_elem_of_fmap. split.
  - intros (n & -> & Hn). apply list_elem_of_filter in Hn as [Hp Hn].
    apply elem_of_listing in Hn as [f Hf]. exists f. simpl. rewrite Hf. auto.
  - intros (f & Hf & Hp & Ht). exists (b_path b). split.
    + destruct b as [n t]. simpl in *. unfold backup_of. rewrite Hf. simpl. congruence.
    + apply list_elem_of_filter. split; [exact Hp |].
      apply elem_of_listing. eauto.
Qed.

(** Counting the backups of a directory through a list of their names. *)
Lemma size_backups_in basePath (d : gmap string File) (l : list string) :
  NoDup l ->
  (forall n, n ∈ l <-> is_Some (d !! n) /\ is_backup basePath n) ->
  file_count (backups_in basePath d) = length l.
Proof.
  intros Hnd Hl. unfold file_count. rewrite <- (size_dom (D := gset string)).
  rewrite <- (size_list_to_set (C := gset string) l Hnd). f_equal.
  apply set_eq. intros n.
  rewrite elem_of_dom, elem_of_list_to_set, Hl. unfold backups_in, is_Some.
  split.
  - intros [f Hf]. apply map_lookup_filter_Some in Hf as [Hf Hp]. eauto.
  - intros [[f Hf] Hp]. exists f. apply map_lookup_filter_Some. auto.
Qed.


(** C6. With a limit [K > 0], no failure of the operating system, and more
    than [K] backups of [basePath] in the directory, all with different
    modification times, one run of [pruneBackups] leaves exactly [K] of
    them, so [N - K] are gone; a file that stays is unchanged, a file that
    is not a backup stays; and every backup that stays was modified later
    than every backup that went. *)
Theorem prune_keeps_newest basePath K w :
  0 < K ->
  quiet SysReadDir w = true -> quiet SysInfo w = true -> quiet SysRemove w = true ->
  K < Z.of_nat (file_count (backups_in basePath (w_dir w))) ->
  (forall n1 n2 f1 f2,
     backups_in basePath (w_dir w) !! n1 = Some f1 ->
     backups_in basePath (w_dir w) !! n2 = Some f2 ->
     n1 <> n2 -> f_modTime f1 <> f_modTime f2) ->
  let d' := w_dir (fst (pruneBackups basePath K w)) in
  Z.of_nat (file_count (backups_in basePath d')) = K /\
  (file_count (backups_in basePath (w_dir w)) - file_count (backups_in basePath d')
   = file_count (backups_in basePath (w_dir w)) - Z.to_nat K)%nat /\
  (forall n f, d' !! n = Some f -> w_dir w !! n = Some f) /\
  (forall n, ~ is_backup basePath n -> d' !! n = w_dir w !! n) /\
  (forall nk fk nd fd,
     backups_in basePath d' !! nk = Some fk ->
     backups_in basePath (w_dir w) !! nd = Some fd ->
     d' !! nd = None ->
     f_modTime fd < f_modTime fk).
Proof.
  intros HK Hr Hi Hd HN Hdistinct d'.
  destruct (pruneBackups_quiet basePath K w HK Hr Hi Hd) as [_ Hlook].
  fold d' in Hlook.
  set (S := selected basePath w) in *.
  assert (HlenS : file_count (backups_in basePath (w_dir w)) = length S).
  { rewrite <- (length_fmap b_path). apply size_backups_in.
    - apply NoDup_selected_names; assumption.
    - intros n. apply elem_of_selected_names; assumption. }
  rewrite HlenS in HN |- *.
  destruct (Z.leb_spec (Z.of_nat (length S)) K) as [| _]; [lia |].
  set (sorted := sort_slice older S) in *.
  set (cut := (length S - Z.to_nat K)%nat) in *.
  assert (Hperm : sorted ≡ₚ S) by apply sort_slice_perm.
  assert (Hsorted : StronglySorted (key_le b_modTime) (take cut sorted ++ drop cut sorted)).
  { rewrite take_drop. apply (sort_slice_sorted b_modTime S). }
  assert (Hnd : NoDup ((b_path <$> take cut sorted) ++ (b_path <$> drop cut sorted))).
  { rewrite <- fmap_app, take_drop, Hperm. apply NoDup_selected_names; assumption. }
  apply NoDup_app in Hnd as (Hnd1 & Hdisj & Hnd2).
  assert (Hnames : forall n, n ∈ b_path <$> S <->
            n ∈ (b_path <$> take cut sorted) \/ n ∈ (b_path <$> drop cut sorted)).
  { intros n. rewrite <- Hperm, <- (take_drop cut sorted) at 1.
    rewrite fmap_app, elem_of_app. reflexivity. }
  assert (Hkept : forall n, n ∈ b_path <$> drop cut sorted <->
            is_Some (d' !! n) /\ is_backup basePath n).
  { intros n. rewrite Hlook. split.
    - intros Hn. assert (Hs : n ∈ b_path <$> S) by (apply Hnames; auto).
      apply elem_of_selected_names in Hs as [Hsome Hp]; try assumption.
      rewrite decide_False; [auto |]. intros Hc. exact (Hdisj n Hc Hn).
    - intros [Hsome Hp]. destruct (decide (n ∈ b_path <$> take cut sorted)) as [| Hnot].
      + destruct Hsome as [? ?]; discriminate.
      + assert (Hs : n ∈ b_path <$> S)
          by (apply elem_of_selected_names; auto).
        apply Hnames in Hs as [|]; [contradiction | assumption]. }
  assert (Hcount : file_count (backups_in basePath d') = Z.to_nat K).
  { rewrite (size_backups_in basePath d' (b_path <$> drop cut sorted) Hnd2 Hkept).
    rewrite length_fmap, length_drop.
    assert (length sorted = length S) by (rewrite Hperm; reflexivity).
    unfold cut. lia. }
  assert (Hmod : forall b n f, b ∈ sorted -> b_path b = n -> w_dir w !! n = Some f ->
            b_modTime b = f_modTime f).
  { intros b n f Hb <- Hf. rewrite Hperm in Hb.
    apply elem_of_selected in Hb as (f' & Hf' & _ & Ht); try assumption.
    congruence. }
  split; [rewrite Hcount; lia |].
  split; [rewrite Hcount; reflexivity |].
  split; [| split].
  - intros n f. rewrite Hlook. destruct (decide _); [discriminate | auto].
  - intros n Hnb. rewrite Hlook. rewrite decide_False; [reflexivity |].
    intros Hc. apply Hnb.
    assert (Hs : n ∈ b_path <$> S) by (apply Hnames; auto).
    apply elem_of_selected_names in Hs as [_ Hp]; assumption.
  - intros nk fk nd fd Hk Hdel Hgone.
    apply map_lookup_filter_Some in Hk as [Hk Hpk]. simpl in Hpk.
    pose proof Hdel as Hdel0.
    apply map_lookup_filter_Some in Hdel as [Hdl Hpd]. simpl in Hpd.
    assert (Hk_in : nk ∈ b_path <$> drop cut sorted) by (apply Hkept; eauto).
    assert (Hd_in : nd ∈ b_path <$> take cut sorted).
    { rewrite Hlook in Hgone. destruct (decide (nd ∈ b_path <$> take cut sorted));
        [assumption | congruence]. }
    assert (Hk0 : w_dir w !! nk = Some fk).
    { rewrite Hlook in Hk. destruct (decide _); [discriminate | exact Hk]. }
    apply list_elem_of_fmap in Hk_in as (bk & Ebk & Hbk).
    apply list_elem_of_fmap in Hd_in as (bd & Ebd & Hbd).
    assert (Hle : key_le b_modTime bd bk)
      by (eapply StronglySorted_app_1_elem_of; eauto).
    unfold key_le in Hle.
    assert (Hbk' : bk ∈ sorted) by (rewrite <- (take_drop cut sorted); apply elem_of_app; auto).
    assert (Hbd' : bd ∈ sorted) by (rewrite <- (take_drop cut sorted); apply elem_of_app; auto).
    rewrite (Hmod bk nk fk Hbk' (eq_sym Ebk) Hk0) in Hle.
    rewrite (Hmod bd nd fd Hbd' (eq_sym Ebd) Hdl) in Hle.
    assert (Hne : nd <> nk).
    { intros ->. apply (Hdisj nk).
      - apply list_elem_of_fmap. eauto.
      - apply list_elem_of_fmap. eauto. }
    assert (Hk1 : backups_in basePath (w_dir w) !! nk = Some fk)
      by (apply map_lookup_filter_Some; auto).
    pose proof (Hdistinct nd nk fd fk Hdel0 Hk1 Hne). lia.
Qed.


(** C10. When the listing and the stat of the entries do not fail, the
    slice of backups that [pruneBackups] builds holds exactly the entries
    of the directory whose names start with the base name of the active
    file and a dot, each once, with its modification time; nothing is asked
    of the rest of the name.  So a compressed backup counts against the
    limit, and so does a file that is no backup at all: in [crowded_dir],
    with a limit of one, the compressed backup and the notes are selected
    and removed. *)
Theorem prune_selects_by_prefix basePath w :
  quiet SysReadDir w = true -> quiet SysInfo w = true ->
  (forall b, b ∈ selected basePath w <->
     exists f, w_dir w !! b_path b = Some f /\
               HasPrefix (b_path b) (filepath_Base basePath ++ ".")%string = true /\
               b_modTime b = f_modTime f) /\
  NoDup (b_path <$> selected basePath w) /\
  (forall K n, 0 < K -> quiet SysRemove w = true ->
     w_dir (fst (pruneBackups basePath K w)) !! n <> w_dir w !! n ->
     n ∈ b_path <$> selected basePath w) /\
  (b_path <$> selected "/var/log/app.log" crowded_world
     = ["app.log.20250101-000000.gz"; "app.log.20250301-000000"; "app.log.notes"]%string /\
   w_dir (fst (pruneBackups "/var/log/app.log" 1 crowded_world))
     = delete "app.log.notes"%string
         (delete "app.log.20250101-000000.gz"%string crowded_dir)).
Proof.
  intros Hr Hi. split; [| split; [| split]].
  - intros b. apply elem_of_selected; assumption.
  - apply NoDup_selected_names; assumption.
  - intros K n HK Hd Hne.
    destruct (pruneBackups_quiet basePath K w HK Hr Hi Hd) as [_ Hlook].
    rewrite Hlook in Hne.
    destruct (Z.of_nat (length (selected basePath w)) <=? K); [congruence |].
    destruct (decide _) as [Hin | ]; [| congruence].
    apply list_elem_of_fmap in Hin as (b & -> & Hb).
    apply list_elem_of_fmap_2.
    apply elem_of_take in Hb as (i & Hb & _).
    apply list_elem_of_lookup_2 in Hb.
    rewrite sort_slice_perm in Hb. exact Hb.
  - split; vm_compute; reflexivity.
Qed.

Lemma prune_selects_by_prefix_witness :
  "app.log.notes"%string ∈ b_path <$> selected "/var/log/app.log" crowded_world.
Proof.
  destruct (prune_selects_by_prefix "/var/log/app.log" crowded_world)
    as (_ & _ & _ & Hnames & _).
  - reflexivity.
  - reflexivity.
  - rewrite Hnames. apply list_elem_of_In. simpl. auto.
Defined.

Lemma prune_keeps_newest_witness :
  Z.of_nat (file_count (backups_in "/var/log/app.log"
              (w_dir (fst (pruneBackups "/var/log/app.log" 1 crowded_world))))) = 1.
Proof.
  apply (prune_keeps_newest "/var/log/app.log" 1 crowded_world).
  - reflexivity.
  - reflexivity.
  - reflexivity.
  - reflexivity.
  - vm_compute. reflexivity.
  - intros n1 n2 f1 f2 H1 H2 Hne.
    apply map_lookup_filter_Some in H1 as [H1 _].
    apply map_lookup_filter_Some in H2 as [H2 _].
    unfold crowded_world, crowded_dir in H1, H2. simpl in H1, H2.
    repeat match goal with
    | H : <[ ?k := _ ]> _ !! ?n = Some _ |- _ =>
      apply lookup_insert_Some in H as [[<- <-] | [? H]]
    | H : ∅ !! _ = Some _ |- _ => rewrite lookup_empty in H; discriminate
    | H : {[ ?k := _ ]} !! ?n = Some _ |- _ =>
      apply lookup_singleton_Some in H as [<- <-]
    end; simpl; try congruence; try discriminate.
Defined.


(** *** The policy, clamped *)

(** X1. [normalizeRotationPolicy] replaces each negative threshold by zero
    and leaves everything else: a threshold below zero comes back as zero,
    which turns that limit off, and one that is not below zero comes back
    as it is, whatever the other fields are; so the result has no negative
    threshold, a policy without negative thresholds comes back unchanged,
    and applying it twice is applying it once. *)
Theorem normalizeRotationPolicy_clamps p :
  (spolicy.MaxSizeMB p < 0 -> spolicy.MaxSizeMB (normalizeRotationPolicy p) = 0) /\
  (spolicy.MaxAgeDays p < 0 -> spolicy.MaxAgeDays (normalizeRotationPolicy p) = 0) /\
  (spolicy.MaxBackups p < 0 -> spolicy.MaxBackups (normalizeRotationPolicy p) = 0) /\
  (0 <= spolicy.MaxSizeMB (normalizeRotationPolicy p) /\
   0 <= spolicy.MaxAgeDays (normalizeRotationPolicy p) /\
   0 <= spolicy.MaxBackups (normalizeRotationPolicy p)) /\
  (0 <= spolicy.MaxSizeMB p -> 0 <= spolicy.MaxAgeDays p -> 0 <= spolicy.MaxBackups p ->
   normalizeRotationPolicy p = p) /\
  normalizeRotationPolicy (normalizeRotationPolicy p) = normalizeRotationPolicy p /\
  (0 <= spolicy.MaxSizeMB p ->
   spolicy.MaxSizeMB (normalizeRotationPolicy p) = spolicy.MaxSizeMB p) /\
  (0 <= spolicy.MaxAgeDays p ->
   spolicy.MaxAgeDays (normalizeRotationPolicy p) = spolicy.MaxAgeDays p) /\
  (0 <= spolicy.MaxBackups p ->
   spolicy.MaxBackups (normalizeRotationPolicy p) = spolicy.MaxBackups p) /\
  spolicy.Compress (normalizeRotationPolicy p) = spolicy.Compress p.
Proof.
  assert (Hfix : forall q, 0 <= spolicy.MaxSizeMB q -> 0 <= spolicy.MaxAgeDays q ->
            0 <= spolicy.MaxBackups q -> normalizeRotationPolicy q = q).
  { intros [a b c d]. simpl. intros Ha Hb Hc. unfold normalizeRotationPolicy. simpl.
    destruct (Z.ltb_spec a 0); [lia |]. simpl.
    destruct (Z.ltb_spec b 0); [lia |]. simpl.
    destruct (Z.ltb_spec c 0); [lia |]. reflexivity. }
  destruct (normalizeRotationPolicy_spec p) as (Ha & Hb & Hc & Hd).
  split; [intros Hn; rewrite Ha; lia |].
  split; [intros Hn; rewrite Hb; lia |].
  split; [intros Hn; rewrite Hc; lia |].
  split; [rewrite Ha, Hb, Hc; lia |].
  split; [exact (Hfix p) |].
  split; [apply Hfix; rewrite ?Ha, ?Hb, ?Hc; lia |].
  repeat split; try exact Hd; intros; rewrite ?Ha, ?Hb, ?Hc; lia.
Qed.

(** *** Names of backups *)

Lemma prefix_app p s : String.prefix p (p ++ s)%string = true.
Proof.
  induction p as [| c p IH]; simpl; [destruct s; reflexivity |].
  destruct (ascii_dec c c); [exact IH | contradiction].
Qed.

Lemma prefix_longer p c s : String.prefix (p ++ String c s)%string p = false.
Proof.
  induction p as [| a p IH]; simpl; [reflexivity |].
  destruct (ascii_dec a a); [exact IH | reflexivity].
Qed.

Lemma app_longer_ne (s t : string) : t <> EmptyString -> (s ++ t)%string <> s.
Proof.
  intros Ht. induction s as [| c s IH]; simpl; [exact Ht |].
  intros [= E]. exact (IH E).
Qed.

Lemma length_append (s t : string) :
  String.length (s ++ t)%string = (String.length s + String.length t)%nat.
Proof. induction s as [| c s IH]; simpl; [reflexivity | f_equal; exact IH]. Qed.

Lemma append_assoc (s t u : string) : ((s ++ t) ++ u = s ++ (t ++ u))%string.
Proof.
  induction s as [| c s IH]; [reflexivity |].
  change (String c ((s ++ t) ++ u) = String c (s ++ (t ++ u)))%string.
  f_equal. exact IH.
Qed.

Lemma length_digits width n : String.length (digits width n) = width.
Proof.
  revert n. induction width as [| k IH]; intros n; [reflexivity |].
  simpl. rewrite length_append, IH. simpl. lia.
Qed.

(** What [appendInt] prints, by the size of the number. *)
Lemma length_appendInt x width :
  String.length (appendInt x width)
  = ((if (x <? 0)%Z then 1 else 0) +
     Nat.max width (decimal_width (Z.to_nat (Z.log2 (Z.abs x))) (Z.abs x)))%nat.
Proof.
  unfold appendInt. cbv zeta. rewrite length_append, length_digits.
  destruct (x <? 0); reflexivity.
Qed.

Lemma decimal_width_positive fuel x : (1 <= decimal_width fuel x)%nat.
Proof. destruct fuel; simpl; [lia |]. destruct (x <? 10); lia. Qed.

Lemma decimal_width_two fuel x : 0 <= x < 100 -> (decimal_width fuel x <= 2)%nat.
Proof.
  intros Hx. destruct fuel as [| fuel]; simpl; [lia |].
  destruct (Z.ltb_spec x 10); [lia |].
  destruct fuel as [| fuel]; simpl; [lia |].
  destruct (Z.ltb_spec (x / 10) 10) as [| Hge]; [lia |].
  exfalso. revert Hge. Z.div_mod_to_equations. lia.
Qed.

Lemma decimal_width_four fuel x : 0 <= x < 10000 -> (decimal_width fuel x <= 4)%nat.
Proof.
  intros Hx. destruct fuel as [| fuel]; simpl; [lia |].
  destruct (Z.ltb_spec x 10); [lia |].
  apply le_n_S. destruct fuel as [| fuel]; simpl; [lia |].
  destruct (Z.ltb_spec (x / 10) 10); [lia |].
  apply le_n_S. apply decimal_width_two. Z.div_mod_to_equations. lia.
Qed.

Lemma decimal_width_five x :
  10000 <= x -> (5 <= decimal_width (Z.to_nat (Z.log2 x)) x)%nat.
Proof.
  intros Hx.
  assert (Hf : (13 <= Z.to_nat (Z.log2 x))%nat).
  { pose proof (Z.log2_le_mono 10000 x Hx) as Hl.
    change (Z.log2 10000) with 13 in Hl. lia. }
  destruct (Z.to_nat (Z.log2 x)) as [| [| [| [| fuel]]]]; try lia. simpl.
  destruct (Z.ltb_spec x 10); [lia |].
  destruct (Z.ltb_spec (x / 10) 10) as [Hlt |];
    [exfalso; revert Hlt; Z.div_mod_to_equations; lia |].
  destruct (Z.ltb_spec (x / 10 / 10) 10) as [Hlt |];
    [exfalso; revert Hlt; Z.div_mod_to_equations; lia |].
  destruct (Z.ltb_spec (x / 10 / 10 / 10) 10) as [Hlt |];
    [exfalso; revert Hlt; Z.div_mod_to_equations; lia |].
  pose proof (decimal_width_positive fuel (x / 10 / 10 / 10 / 10)). lia.
Qed.

Lemma length_appendInt_two x : 0 <= x < 100 -> String.length (appendInt x 2) = 2%nat.
Proof.
  intros Hx. rewrite length_appendInt.
  destruct (Z.ltb_spec x 0); [lia |].
  rewrite Z.abs_eq by lia.
  pose proof (decimal_width_two (Z.to_nat (Z.log2 x)) x Hx). lia.
Qed.

(** The month and the day of a date are a month and a day. *)
Lemma civil_of_days_month_day days :
  1 <= snd (fst (civil_of_days days)) <= 12 /\ 1 <= snd (civil_of_days days) <= 31.
Proof.
  unfold civil_of_days. cbv zeta. cbn [fst snd].
  set (z := days + 719468). set (era := z / 146097). set (doe := z - era * 146097).
  assert (Hdoe : 0 <= doe < 146097) by (unfold doe, era; Z.div_mod_to_equations; lia).
  clearbody doe.
  set (yoe := (doe - doe / 1460 + doe / 36524 - doe / 146096) / 365).
  set (doy := doe - (365 * yoe + yoe / 4 - yoe / 100)).
  assert (Hdoy : 0 <= doy <= 365) by (unfold doy, yoe; Z.div_mod_to_equations; lia).
  clearbody doy.
  set (mp := (5 * doy + 2) / 153).
  assert (Hmp : 0 <= mp <= 11) by (unfold mp; Z.div_mod_to_equations; lia).
  split.
  - destruct (Z.ltb_spec mp 10); lia.
  - unfold mp in *. Z.div_mod_to_equations. lia.
Qed.

(** The year of a date, by the day: from year 0 to year 9999, before,
    after. *)
Lemma civil_of_days_year days :
  (-719528 <= days <= 2932896 -> 0 <= fst (fst (civil_of_days days)) <= 9999) /\
  (days < -719528 -> fst (fst (civil_of_days days)) < 0) /\
  (2932896 < days -> 10000 <= fst (fst (civil_of_days days))).
Proof.
  unfold civil_of_days. cbv zeta. cbn [fst snd].
  set (z := days + 719468). set (era := z / 146097). set (doe := z - era * 146097).
  set (yoe := (doe - doe / 1460 + doe / 36524 - doe / 146096) / 365).
  set (doy := doe - (365 * yoe + yoe / 4 - yoe / 100)).
  set (mp := (5 * doy + 2) / 153).
  destruct (Z.ltb_spec mp 10) as [E | E].
  - destruct (Z.leb_spec (mp + 3) 2) as [E2 | E2];
      unfold mp, doy, yoe, doe, era, z in *;
      (split; [| split]); intros Hd; Z.div_mod_to_equations; lia.
  - destruct (Z.leb_spec (mp - 9) 2) as [E2 | E2];
      unfold mp, doy, yoe, doe, era, z in *;
      (split; [| split]); intros Hd; Z.div_mod_to_equations; lia.
Qed.

Lemma length_format_stamp t :
  String.length (format_stamp t)
  = (String.length (appendInt (fst (fst (civil_of_days (t / 1000000000 / 86400)))) 4)
     + 11)%nat.
Proof.
  unfold format_stamp. cbv zeta.
  destruct (civil_of_days_month_day (t / 1000000000 / 86400)) as [Hm Hd].
  destruct (civil_of_days (t / 1000000000 / 86400)) as [[y m] d]. cbn [fst snd] in *.
  rewrite !length_append.
  rewrite (length_appendInt_two m) by lia.
  rewrite (length_appendInt_two d) by lia.
  rewrite !length_appendInt_two by (Z.div_mod_to_equations; lia).
  simpl. lia.
Qed.

(** X2. The name [rotatedFilename] gives a backup is the base name of the
    active file, a dot, and a stamp that depends on the second only.  It
    is never the name of the active file; it and its compressed variant
    both start with the base name and a dot, so [pruneBackups] counts every
    backup the sink makes; the active file itself is no backup.  The stamp
    has fifteen characters for a time from year 0 to year 9999, and more
    outside: the year then takes a fifth digit, or a sign. *)
Theorem rotated_names_are_backups basePath t :
  rotatedFilename basePath t <> filepath_Base basePath /\
  is_backup basePath (rotatedFilename basePath t) /\
  is_backup basePath (rotatedFilename basePath t ++ ".gz")%string /\
  ~ is_backup basePath (filepath_Base basePath) /\
  (forall t', t / 1000000000 = t' / 1000000000 ->
     rotatedFilename basePath t' = rotatedFilename basePath t) /\
  (-62167219200 <= t / 1000000000 < 253402300800 ->
   String.length (rotatedFilename basePath t)
   = (String.length (filepath_Base basePath) + 16)%nat) /\
  (t / 1000000000 < -62167219200 \/ 253402300800 <= t / 1000000000 ->
   (String.length (filepath_Base basePath) + 16
    < String.length (rotatedFilename basePath t))%nat).
Proof.
  unfold is_backup, HasPrefix, rotatedFilename.
  split; [| split; [| split; [| split; [| split; [| split]]]]].
  - apply app_longer_ne. discriminate.
  - rewrite <- append_assoc. apply prefix_app.
  - rewrite <- (append_assoc (filepath_Base basePath) "." (format_stamp t)).
    rewrite append_assoc. apply prefix_app.
  - rewrite prefix_longer. discriminate.
  - intros t' E. unfold format_stamp. rewrite E. reflexivity.
  - intros Ht. rewrite !length_append, length_format_stamp, length_appendInt.
    destruct (civil_of_days_year (t / 1000000000 / 86400)) as (Hy & _ & _).
    specialize (Hy ltac:(Z.div_mod_to_equations; lia)).
    set (y := fst (fst (civil_of_days (t / 1000000000 / 86400)))) in *.
    destruct (Z.ltb_spec y 0); [lia |]. rewrite Z.abs_eq by lia.
    pose proof (decimal_width_four (Z.to_nat (Z.log2 y)) y ltac:(lia)).
    simpl. lia.
  - intros Ht. rewrite !length_append, length_format_stamp, length_appendInt.
    destruct (civil_of_days_year (t / 1000000000 / 86400)) as (_ & Hneg & Hbig).
    set (y := fst (fst (civil_of_days (t / 1000000000 / 86400)))) in *.
    destruct Ht as [Ht | Ht].
    + specialize (Hneg ltac:(Z.div_mod_to_equations; lia)).
      destruct (Z.ltb_spec y 0); [| lia]. simpl. lia.
    + specialize (Hbig ltac:(Z.div_mod_to_equations; lia)).
      destruct (Z.ltb_spec y 0); [lia |]. rewrite Z.abs_eq by lia.
      pose proof (decimal_width_five y Hbig). simpl. lia.
Qed.


(** *** Closing the file sink *)

(** X3. [Close] marks the sink closed and leaves the directory alone.  On
    an open sink that holds a file it closes that file with one call,
    returns the error of that call, and drops the handle; the flag is set
    even when the call fails.  A second [Close], in whatever world, returns
    nil without a call. *)
Theorem close_is_final ctx ctx' w w' s :
  closed (snd (fst (Close ctx w s))) = true /\
  w_dir (fst (fst (Close ctx w s))) = w_dir w /\
  Close ctx' w' (snd (fst (Close ctx w s))) = (w', snd (fst (Close ctx w s)), None) /\
  (closed s = false ->
   file (snd (fst (Close ctx w s))) = None /\
   match file s with
   | Some h =>
     w_log (fst (fst (Close ctx w s))) = w_log w ++ [CallClose (h_name h)] /\
     snd (Close ctx w s) = snd (file_Close h w)
   | None => Close ctx w s = (w, set_closed true s, None)
   end) /\
  (closed s = true -> Close ctx w s = (w, s, None)).
Proof.
  assert (Hc : closed (snd (fst (Close ctx w s))) = true).
  { unfold Close. destruct (closed s) eqn:E; [exact E |].
    simpl. destruct (file s); [destruct (file_Close _ _) |]; reflexivity. }
  split; [exact Hc |]. split; [| split; [| split]].
  - unfold Close. destruct (closed s); [reflexivity |]. simpl.
    destruct (file s) as [h |]; [| reflexivity].
    pose proof (file_Close_dir h w) as D. destruct (file_Close h w). exact D.
  - unfold Close at 1. rewrite Hc. reflexivity.
  - intros Hopen. unfold Close. rewrite Hopen. simpl.
    destruct (file s) as [h |] eqn:Ef; [| simpl; rewrite Ef; split; reflexivity].
    pose proof (enter_spec SysClose (CallClose (h_name h)) w) as (_ & _ & _ & Hl).
    unfold file_Close.
    destruct (enter SysClose (CallClose (h_name h)) w) as [ft w1]. simpl in *.
    repeat split. exact Hl.
  - intros Hclosed. unfold Close. rewrite Hclosed. reflexivity.
Qed.

(** *** Building the file sink *)

Lemma openCurrent_dir w s :
  w_dir (fst (fst (openCurrent w s))) = w_dir w \/
  (w_dir w !! filepath_Base (path s) = None /\
   w_dir (fst (fst (openCurrent w s)))
   = <[filepath_Base (path s) :=
         mkFile [] (w_clock w) (Z.ldiff (FileMode (opt s)) (w_umask w))]> (w_dir w)).
Proof.
  unfold openCurrent.
  pose proof (os_MkdirAll_dir 493 w) as D1.
  assert (C1 : w_clock (fst (os_MkdirAll 493 w)) = w_clock w /\
               w_umask (fst (os_MkdirAll 493 w)) = w_umask w).
  { unfold os_MkdirAll.
    pose proof (enter_spec SysMkdirAll (CallMkdirAll 493) w) as (_ & Hk & Hu & _).
    destruct (enter SysMkdirAll (CallMkdirAll 493) w) as [[ft |] w1]; simpl in *; auto. }
  destruct (os_MkdirAll 493 w) as [w1 [e |]]; simpl in *; [left; exact D1 |].
  destruct C1 as [Hk1 Hu1].
  assert (Hopen : forall w2 r,
            os_OpenFile (filepath_Base (path s)) active_flags (FileMode (opt s)) w1 = (w2, r) ->
            w_dir w2 = w_dir w \/
            (w_dir w !! filepath_Base (path s) = None /\
             w_dir w2 = <[filepath_Base (path s) :=
               mkFile [] (w_clock w) (Z.ldiff (FileMode (opt s)) (w_umask w))]> (w_dir w))).
  { intros w2 r. unfold os_OpenFile.
    pose proof (enter_spec SysOpenFile
                  (CallOpenFile (filepath_Base (path s)) active_flags (FileMode (opt s))) w1)
      as (Hd & Hk & Hu & _).
    destruct (enter SysOpenFile _ w1) as [[ft |] wa]; simpl in *.
    - intros [= <- _]. left. congruence.
    - destruct (w_dir wa !! filepath_Base (path s)) as [f |] eqn:Ef.
      + change (Z.land active_flags O_TRUNC =? 0) with true. cbv iota.
        intros [= <- _]. left. congruence.
      + change (Z.land active_flags O_CREATE =? 0) with false. cbv iota.
        intros [= <- _]. right. simpl. split; [congruence |].
        rewrite Hd, D1, Hk, Hk1, Hu, Hu1. reflexivity. }
  destruct (os_OpenFile _ _ _ w1) as [w2 [f | e]] eqn:Eo; simpl;
    [| exact (Hopen _ _ eq_refl)].
  pose proof (file_Stat_dir f w2) as D3.
  destruct (file_Stat f w2) as [w3 [info | e]]; simpl in *.
  - rewrite D3. exact (Hopen _ _ eq_refl).
  - rewrite file_Close_dir, D3. exact (Hopen _ _ eq_refl).
Qed.

(** X4. [NewRotatingFileSink] refuses an empty path with
    [ErrRotationNoPath] before any call to the operating system.  When it
    returns a sink, the sink is open on the active file with the policy
    clamped and the mode defaulted, its size and creation time are those of
    the file on disk, and every file that was in the directory is there
    unchanged: an existing log is never truncated, and the only file that
    can appear is the active file, empty. *)
Theorem new_sink_is_seeded o w :
  (Path o = EmptyString -> NewRotatingFileSink o w = (w, Err ErrRotationNoPath)) /\
  (forall w1 s, NewRotatingFileSink o w = (w1, Ok s) ->
     Path o <> EmptyString /\
     closed s = false /\ path s = Path o /\
     Policy (opt s) = normalizeRotationPolicy (Policy o) /\
     FileMode (opt s) = (if FileMode o =? 0 then 416 else FileMode o) /\
     file s = Some (mkHandle (filepath_Base (Path o)) active_flags) /\
     (exists f, w_dir w1 !! filepath_Base (Path o) = Some f /\
                size s = Z.of_nat (length (f_data f)) /\
                created s = f_modTime f /\
                (w_dir w !! filepath_Base (Path o) = None -> f_data f = [])) /\
     (forall n f, w_dir w !! n = Some f -> w_dir w1 !! n = Some f) /\
     (forall n, n <> filepath_Base (Path o) -> w_dir w1 !! n = w_dir w !! n)).
Proof.
  split.
  - intros Hp. unfold NewRotatingFileSink. rewrite Hp. reflexivity.
  - intros w1 s. unfold NewRotatingFileSink.
    destruct (String.eqb_spec (Path o) EmptyString) as [| Hne]; [discriminate |].
    simpl Path. simpl Policy. simpl OptName. simpl FileMode.
    match goal with |- context [openCurrent w ?s0] => remember s0 as s0' eqn:Es0 end.
    assert (Hp0 : path s0' = Path o)
      by (subst s0'; destruct (FileMode o =? 0); reflexivity).
    assert (Ho0 : Policy (opt s0') = normalizeRotationPolicy (Policy o) /\
                  FileMode (opt s0') = (if FileMode o =? 0 then 416 else FileMode o) /\
                  closed s0' = false)
      by (subst s0'; destruct (FileMode o =? 0); repeat split).
    destruct Ho0 as (Hpol & Hmode & Hcl).
    pose proof (openCurrent_dir w s0') as Hdir.
    destruct (openCurrent w s0') as [[w2 s2] [e |]] eqn:E; [discriminate |].
    intros [= <- <-]. simpl in Hdir.
    destruct (openCurrent_ok w s0' w2 s2 E) as (Hf & Hpath & Hopt & Hclosed & (f & Hlook & Hsz & Hcr) & _).
    rewrite Hp0 in *.
    split; [exact Hne |]. split; [congruence |]. split; [congruence |].
    split; [congruence |]. split; [congruence |]. split; [exact Hf |].
    split; [| split].
    + exists f. repeat split; try assumption.
      intros Hnone. destruct Hdir as [Hd | [_ Hd]].
      * rewrite Hd, Hnone in Hlook. discriminate.
      * rewrite Hd, lookup_insert_eq in Hlook. injection Hlook as <-. reflexivity.
    + intros n f0 Hn. destruct Hdir as [Hd | [Hnone Hd]]; rewrite Hd; [exact Hn |].
      rewrite lookup_insert_ne; [exact Hn |]. intros <-. congruence.
    + intros n Hn. destruct Hdir as [Hd | [Hnone Hd]]; rewrite Hd; [reflexivity |].
      apply lookup_insert_ne. congruence.
Qed.


(** *** What no call changes *)

Lemma steady_refl w : steady w w.
Proof. unfold steady. auto. Qed.

Lemma steady_trans w1 w2 w3 : steady w1 w2 -> steady w2 w3 -> steady w1 w3.
Proof.
  unfold steady. intros (Hc1 & Hu1 & Hq1) (Hc2 & Hu2 & Hq2).
  split; [congruence |]. split; [congruence | auto].
Qed.

Lemma steady_enter k c w : steady w (snd (enter k c w)).
Proof.
  pose proof (enter_spec k c w) as (_ & Hc & Hu & _).
  split; [exact Hc |]. split; [exact Hu |].
  intros k' Hq. apply quiet_enter, Hq.
Qed.

Lemma steady_set_dir d w w' : steady w w' -> steady w (set_dir d w').
Proof.
  unfold steady. intros (Hc & Hu & Hq). split; [exact Hc |]. split; [exact Hu |].
  intros k Hw. rewrite quiet_set_dir. apply Hq, Hw.
Qed.

Lemma steady_calm w w' : steady w w' -> calm w -> calm w'.
Proof. intros (_ & _ & Hq) Hc k. apply Hq, Hc. Qed.

Lemma steady_dependable w w' : steady w w' -> dependable w -> dependable w'.
Proof.
  intros (_ & _ & Hq) (H1 & H2 & H3 & H4 & H5 & H6).
  repeat split; apply Hq; assumption.
Qed.

Lemma calm_dependable w : calm w -> dependable w.
Proof. intros Hc. repeat split; apply Hc. Qed.

Lemma steady_append_to name bytes w w' :
  steady w w' -> steady w (append_to name bytes w').
Proof.
  intros Hs. unfold append_to. destruct bytes; [exact Hs |].
  destruct (w_dir w' !! name); [apply steady_set_dir |]; exact Hs.
Qed.

Ltac steady_call :=
  match goal with
  | |- context [enter ?k ?c ?x] =>
    let Hx := fresh "Hx" in
    pose proof (steady_enter k c x) as Hx;
    destruct (enter k c x) as [[?ft |] ?w]; simpl in Hx |- *;
    repeat match goal with
           | |- context [match ?d !! ?n with _ => _ end] => destruct (d !! n)
           | |- context [if ?b then _ else _] => destruct b
           end;
    simpl; auto using steady_set_dir, steady_append_to
  end.

Lemma os_MkdirAll_steady m w : steady w (fst (os_MkdirAll m w)).
Proof. unfold os_MkdirAll. steady_call. Qed.

Lemma os_OpenFile_steady n f m w : steady w (fst (os_OpenFile n f m w)).
Proof. unfold os_OpenFile. steady_call. Qed.

Lemma os_Open_steady n w : steady w (fst (os_Open n w)).
Proof. unfold os_Open. steady_call. Qed.

Lemma file_Stat_steady h w : steady w (fst (file_Stat h w)).
Proof. unfold file_Stat. steady_call. Qed.

Lemma file_Close_steady h w : steady w (fst (file_Close h w)).
Proof. unfold file_Close. steady_call. Qed.

Lemma os_Remove_steady n w : steady w (fst (os_Remove n w)).
Proof. unfold os_Remove. steady_call. Qed.

Lemma os_ReadDir_steady w : steady w (fst (os_ReadDir w)).
Proof. unfold os_ReadDir. steady_call. Qed.

Lemma entry_Info_steady n w : steady w (fst (entry_Info n w)).
Proof. unfold entry_Info. steady_call. Qed.

Lemma collect_backups_steady prefix entries w acc :
  steady w (fst (collect_backups prefix entries w acc)).
Proof.
  revert w acc. induction entries as [| name rest IH]; intros w acc; simpl.
  - apply steady_refl.
  - destruct (negb (HasPrefix name prefix)); [apply IH |].
    pose proof (entry_Info_steady name w) as Hs.
    destruct (entry_Info name w) as [w1 [info | e]]; simpl in Hs;
      eapply steady_trans; eauto.
Qed.

Lemma remove_each_steady l w : steady w (remove_each l w).
Proof.
  revert w. induction l as [| b rest IH]; intros w; simpl.
  - apply steady_refl.
  - eapply steady_trans; [apply os_Remove_steady | apply IH].
Qed.

Lemma pruneBackups_steady basePath maxBackups w :
  steady w (fst (pruneBackups basePath maxBackups w)).
Proof.
  unfold pruneBackups. destruct (maxBackups <=? 0); [apply steady_refl |].
  pose proof (os_ReadDir_steady w) as H1.
  destruct (os_ReadDir w) as [w1 [entries | e]]; simpl in H1 |- *; [| exact H1].
  pose proof (collect_backups_steady (filepath_Base basePath ++ ".")%string entries w1 [])
    as H2.
  destruct (collect_backups _ entries w1 []) as [w2 backups]. simpl in H2.
  destruct (Z.of_nat (length backups) <=? maxBackups); simpl.
  - eapply steady_trans; eauto.
  - eapply steady_trans; [exact H1 |]. eapply steady_trans; [exact H2 |].
    apply remove_each_steady.
Qed.

Lemma openCurrent_steady w s : steady w (fst (fst (openCurrent w s))).
Proof.
  unfold openCurrent.
  pose proof (os_MkdirAll_steady 493 w) as H1.
  destruct (os_MkdirAll 493 w) as [w1 [e |]]; simpl in *; [exact H1 |].
  pose proof (os_OpenFile_steady (filepath_Base (path s)) active_flags
                (FileMode (opt s)) w1) as H2.
  destruct (os_OpenFile _ _ _ w1) as [w2 [f | e]]; simpl in *;
    [| eauto using steady_trans].
  pose proof (file_Stat_steady f w2) as H3.
  destruct (file_Stat f w2) as [w3 [info | e]]; simpl in *;
    [eauto using steady_trans |].
  pose proof (file_Close_steady f w3) as H4.
  eauto using steady_trans.
Qed.

(** *** What the calls that write do to the directory *)

Lemma os_OpenFile_truncating n mode w :
  let flags := Z.lor (Z.lor O_CREATE O_WRONLY) O_TRUNC in
  (exists e, snd (os_OpenFile n flags mode w) = Err e /\
             w_dir (fst (os_OpenFile n flags mode w)) = w_dir w) \/
  (snd (os_OpenFile n flags mode w) = Ok (mkHandle n flags) /\
   exists g, f_data g = [] /\
             w_dir (fst (os_OpenFile n flags mode w)) = <[n := g]> (w_dir w)).
Proof.
  intros flags. unfold os_OpenFile.
  pose proof (enter_spec SysOpenFile (CallOpenFile n flags mode) w) as (Hd & _).
  destruct (enter SysOpenFile (CallOpenFile n flags mode) w) as [[ft |] w1]; simpl in *.
  - left. eauto.
  - right. destruct (w_dir w1 !! n) as [g0 |].
    + change (Z.land flags O_TRUNC =? 0) with false. cbv iota. simpl.
      split; [reflexivity |]. eexists. split; [| rewrite Hd; reflexivity]. reflexivity.
    + change (Z.land flags O_CREATE =? 0) with false. cbv iota. simpl.
      split; [reflexivity |]. eexists. split; [| rewrite Hd; reflexivity]. reflexivity.
Qed.

Lemma os_Remove_cases n w :
  (exists e, snd (os_Remove n w) = Some e /\ w_dir (fst (os_Remove n w)) = w_dir w) \/
  (snd (os_Remove n w) = None /\ w_dir (fst (os_Remove n w)) = delete n (w_dir w)).
Proof.
  unfold os_Remove.
  pose proof (enter_spec SysRemove (CallRemove n) w) as (Hd & _).
  destruct (enter SysRemove (CallRemove n) w) as [[ft |] w1]; simpl in *.
  - left. eauto.
  - destruct (w_dir w1 !! n); simpl.
    + right. rewrite Hd. auto.
    + left. eauto.
Qed.

Lemma append_to_lookup name bytes w f :
  w_dir w !! name = Some f ->
  (exists f', w_dir (append_to name bytes w) !! name = Some f' /\
              f_data f' = f_data f ++ bytes /\ f_perm f' = f_perm f) /\
  (forall n, n <> name -> w_dir (append_to name bytes w) !! n = w_dir w !! n).
Proof.
  intros Hf. unfold append_to. rewrite Hf. destruct bytes as [| b bytes].
  - split; [| reflexivity]. exists f. rewrite app_nil_r. auto.
  - simpl. split.
    + eexists. rewrite lookup_insert_eq. split; [reflexivity |]. auto.
    + intros n Hn. apply lookup_insert_ne. congruence.
Qed.

Lemma append_to_other name bytes w n :
  n <> name -> w_dir (append_to name bytes w) !! n = w_dir w !! n.
Proof.
  intros Hn. unfold append_to. destruct bytes; [reflexivity |].
  destruct (w_dir w !! name); [| reflexivity].
  simpl. apply lookup_insert_ne. congruence.
Qed.

Lemma quiet_append_to k name bytes w : quiet k (append_to name bytes w) = quiet k w.
Proof.
  unfold append_to. destruct bytes; [reflexivity |].
  destruct (w_dir w !! name); reflexivity.
Qed.

Ltac still_quiet Hq :=
  rewrite ?quiet_append_to, ?quiet_set_dir, ?quiet_record_call; apply Hq.

Section Compression.
Variable gzip : list Byte.byte -> list Byte.byte.

Lemma gzip_copy_lookup src dst w f g :
  w_dir w !! h_name src = Some f -> w_dir w !! h_name dst = Some g ->
  (exists g', w_dir (fst (gzip_copy gzip src dst w)) !! h_name dst = Some g' /\
     exists done, f_data g' = f_data g ++ done /\
       (snd (gzip_copy gzip src dst w) = None -> done = gzip (f_data f))) /\
  (forall n, n <> h_name dst ->
     w_dir (fst (gzip_copy gzip src dst w)) !! n = w_dir w !! n).
Proof.
  intros Hf Hg. unfold gzip_copy.
  pose proof (enter_spec SysGzip (CallGzip (h_name src) (h_name dst)) w) as (Hd & _).
  destruct (enter SysGzip (CallGzip (h_name src) (h_name dst)) w) as [ft w1].
  simpl in *. rewrite Hd, Hf.
  assert (Hg1 : w_dir w1 !! h_name dst = Some g) by (rewrite Hd; exact Hg).
  destruct (append_to_lookup (h_name dst) (stored ft (gzip (f_data f))) w1 g Hg1)
    as [(g' & Hg' & Hdata & _) Hother].
  split.
  - exists g'. split; [exact Hg' |]. eexists. split; [exact Hdata |].
    destruct ft; [discriminate | reflexivity].
  - intros n Hn. rewrite Hother by exact Hn. rewrite Hd. reflexivity.
Qed.

Lemma close_both_dir src dst w : w_dir (close_both src dst w) = w_dir w.
Proof. unfold close_both. rewrite !file_Close_dir. reflexivity. Qed.

Lemma compressFile_effect srcPath w f :
  w_dir w !! srcPath = Some f ->
  let w' := fst (compressFile gzip srcPath w) in
  (w_dir w' !! srcPath = Some f \/
   (w_dir w' !! srcPath = None /\
    exists g, w_dir w' !! (srcPath ++ ".gz")%string = Some g /\
              f_data g = gzip (f_data f))) /\
  (snd (compressFile gzip srcPath w) = None ->
   w_dir w' !! srcPath = None /\
   exists g, w_dir w' !! (srcPath ++ ".gz")%string = Some g /\
             f_data g = gzip (f_data f)) /\
  (forall n, n <> srcPath -> n <> (srcPath ++ ".gz")%string ->
     w_dir w' !! n = w_dir w !! n).
Proof.
  intros Hf. cbv zeta.
  assert (Hne : (srcPath ++ ".gz")%string <> srcPath)
    by (apply app_longer_ne; discriminate).
  unfold compressFile.
  pose proof (os_Open_dir srcPath w) as D1.
  assert (Hsrc : forall h, snd (os_Open srcPath w) = Ok h -> h_name h = srcPath).
  { unfold os_Open.
    destruct (enter SysOpen (CallOpen srcPath) w) as [[ft |] wa]; simpl; [discriminate |].
    destruct (w_dir wa !! srcPath); simpl; [| discriminate].
    intros h [= <-]. reflexivity. }
  destruct (os_Open srcPath w) as [w1 [src | e]]; simpl in D1, Hsrc |- *.
  2: { rewrite D1. split; [left; exact Hf |]. split; [discriminate | reflexivity]. }
  specialize (Hsrc src eq_refl).
  destruct (os_OpenFile_truncating (srcPath ++ ".gz")%string 416 w1)
    as [(e & He & D2) | (Hok & g0 & Hg0 & D2)].
  - destruct (os_OpenFile _ _ _ w1) as [w2 r2]. simpl in He, D2 |- *. subst r2. simpl.
    rewrite file_Close_dir, D2, D1.
    split; [left; exact Hf |]. split; [discriminate | reflexivity].
  - destruct (os_OpenFile _ _ _ w1) as [w2 r2]. simpl in Hok, D2 |- *. subst r2.
    assert (Hsrc2 : w_dir w2 !! h_name src = Some f).
    { rewrite Hsrc, D2, lookup_insert_ne by exact Hne. rewrite D1. exact Hf. }
    assert (Hdst2 : w_dir w2 !! (srcPath ++ ".gz")%string = Some g0)
      by (rewrite D2; apply lookup_insert_eq).
    destruct (gzip_copy_lookup src
                (mkHandle (srcPath ++ ".gz")%string (Z.lor (Z.lor O_CREATE O_WRONLY) O_TRUNC))
                w2 f g0 Hsrc2 Hdst2)
      as [(g' & Hg' & done & Hdata & Hdone) Hother3].
    simpl h_name in Hg', Hother3.
    assert (Hkeep3 : forall w3, w_dir w3 = w_dir (fst (gzip_copy gzip src
                (mkHandle (srcPath ++ ".gz")%string (Z.lor (Z.lor O_CREATE O_WRONLY) O_TRUNC))
                w2)) ->
              w_dir w3 !! srcPath = Some f /\
              (forall n, n <> srcPath -> n <> (srcPath ++ ".gz")%string ->
                 w_dir w3 !! n = w_dir w !! n)).
    { intros w3 E3. rewrite E3. split.
      - rewrite Hother3 by congruence. rewrite <- Hsrc. exact Hsrc2.
      - intros n Hn1 Hn2. rewrite Hother3 by exact Hn2.
        rewrite D2, lookup_insert_ne by congruence. rewrite D1. reflexivity. }
    destruct (gzip_copy gzip src _ w2) as [w3 [e3 |]]; simpl in *.
    + destruct (Hkeep3 (close_both src
                 (mkHandle (srcPath ++ ".gz")%string (Z.lor (Z.lor O_CREATE O_WRONLY) O_TRUNC))
                 w3) (close_both_dir _ _ _)) as [Hk1 Hk2].
      split; [left; exact Hk1 |]. split; [discriminate | exact Hk2].
    + specialize (Hdone eq_refl). subst done. rewrite Hg0 in Hdata. simpl in Hdata.
      destruct (os_Remove_cases srcPath w3) as [(e4 & He4 & D4) | (He4 & D4)];
        destruct (os_Remove srcPath w3) as [w4 r4]; simpl in He4, D4 |- *; subst r4.
      * destruct (Hkeep3 (close_both src
                   (mkHandle (srcPath ++ ".gz")%string (Z.lor (Z.lor O_CREATE O_WRONLY) O_TRUNC))
                   w4)) as [Hk1 Hk2]; [rewrite close_both_dir; exact D4 |].
        split; [left; exact Hk1 |]. split; [discriminate | exact Hk2].
      * rewrite close_both_dir, D4.
        assert (Hgone : delete srcPath (w_dir w3) !! srcPath = None /\
                  exists g, delete srcPath (w_dir w3) !! (srcPath ++ ".gz")%string = Some g /\
                            f_data g = gzip (f_data f)).
        { split; [apply lookup_delete_eq |]. exists g'.
          rewrite lookup_delete_ne by congruence. auto. }
        split; [right; exact Hgone |]. split; [intros _; exact Hgone |].
        intros n Hn1 Hn2. rewrite lookup_delete_ne by congruence.
        destruct (Hkeep3 w3 eq_refl) as [_ Hk2]. apply Hk2; assumption.
Qed.

Lemma gzip_copy_steady src dst w : steady w (fst (gzip_copy gzip src dst w)).
Proof. unfold gzip_copy. steady_call. Qed.

Lemma close_both_steady src dst w : steady w (close_both src dst w).
Proof.
  unfold close_both.
  eapply steady_trans; [apply file_Close_steady | apply file_Close_steady].
Qed.

Lemma compressFile_steady srcPath w : steady w (fst (compressFile gzip srcPath w)).
Proof.
  unfold compressFile.
  pose proof (os_Open_steady srcPath w) as H1.
  destruct (os_Open srcPath w) as [w1 [src | e]]; simpl in *; [| exact H1].
  pose proof (os_OpenFile_steady (srcPath ++ ".gz")%string
                (Z.lor (Z.lor O_CREATE O_WRONLY) O_TRUNC) 416 w1) as H2.
  destruct (os_OpenFile _ _ _ w1) as [w2 [dst | e]]; simpl in *.
  2: { eapply steady_trans; [exact H1 |]. eapply steady_trans; [exact H2 |].
       apply file_Close_steady. }
  pose proof (gzip_copy_steady src dst w2) as H3.
  destruct (gzip_copy gzip src dst w2) as [w3 [e |]]; simpl in *.
  - eapply steady_trans; [exact H1 |]. eapply steady_trans; [exact H2 |].
    eapply steady_trans; [exact H3 |]. apply close_both_steady.
  - pose proof (os_Remove_steady srcPath w3) as H4.
    destruct (os_Remove srcPath w3) as [w4 r]; simpl in *.
    eapply steady_trans; [exact H1 |]. eapply steady_trans; [exact H2 |].
    eapply steady_trans; [exact H3 |]. eapply steady_trans; [exact H4 |].
    apply close_both_steady.
Qed.

(** With no failure of the operating system [compressFile] succeeds. *)
Lemma compressFile_calm srcPath w f :
  calm w -> w_dir w !! srcPath = Some f -> snd (compressFile gzip srcPath w) = None.
Proof.
  intros Hq Hf.
  assert (Hne : srcPath <> (srcPath ++ ".gz")%string).
  { intros E. symmetry in E. revert E. apply app_longer_ne. discriminate. }
  unfold compressFile, os_Open. rewrite enter_quiet by apply Hq. simpl. rewrite Hf.
  unfold os_OpenFile. rewrite enter_quiet by still_quiet Hq. simpl.
  destruct (w_dir w !! (srcPath ++ ".gz")%string) as [g |].
  - change (Z.land (Z.lor (Z.lor O_CREATE O_WRONLY) O_TRUNC) O_TRUNC =? 0) with false.
    cbv iota. unfold gzip_copy. rewrite enter_quiet by still_quiet Hq. simpl.
    unfold os_Remove. rewrite enter_quiet by still_quiet Hq. simpl.
    rewrite append_to_other by exact Hne. simpl.
    rewrite lookup_insert_ne by congruence. rewrite Hf. reflexivity.
  - change (Z.land (Z.lor (Z.lor O_CREATE O_WRONLY) O_TRUNC) O_CREATE =? 0) with false.
    cbv iota. unfold gzip_copy. rewrite enter_quiet by still_quiet Hq. simpl.
    unfold os_Remove. rewrite enter_quiet by still_quiet Hq. simpl.
    rewrite append_to_other by exact Hne. simpl.
    rewrite lookup_insert_ne by congruence. rewrite Hf. reflexivity.
Qed.

(** X5. [compressFile] never loses the content of the file it is given:
    whatever fails, afterwards either the file is still there as it was, or
    it is gone and the file of the same name with ".gz" holds the whole
    compressed stream of its content.  A nil result means the second, and
    with no failure of the operating system the result is nil.  No other
    file of the directory is touched. *)
Theorem compressFile_keeps_content srcPath w f :
  w_dir w !! srcPath = Some f ->
  let w' := fst (compressFile gzip srcPath w) in
  (w_dir w' !! srcPath = Some f \/
   (w_dir w' !! srcPath = None /\
    exists g, w_dir w' !! (srcPath ++ ".gz")%string = Some g /\
              f_data g = gzip (f_data f))) /\
  (snd (compressFile gzip srcPath w) = None ->
   w_dir w' !! srcPath = None /\
   exists g, w_dir w' !! (srcPath ++ ".gz")%string = Some g /\
             f_data g = gzip (f_data f)) /\
  (forall n, n <> srcPath -> n <> (srcPath ++ ".gz")%string ->
     w_dir w' !! n = w_dir w !! n) /\
  (calm w -> snd (compressFile gzip srcPath w) = None).
Proof.
  intros Hf. cbv zeta.
  destruct (compressFile_effect srcPath w f Hf) as (H1 & H2 & H3).
  split; [exact H1 |]. split; [exact H2 |]. split; [exact H3 |].
  intros Hq. exact (compressFile_calm srcPath w f Hq Hf).
Qed.

End Compression.


(** *** Pruning when the operating system fails *)

Lemma base_not_backup basePath : ~ is_backup basePath (filepath_Base basePath).
Proof. unfold is_backup, HasPrefix. rewrite prefix_longer. discriminate. Qed.

Lemma collect_backups_any basePath entries w acc :
  w_dir (fst (collect_backups (filepath_Base basePath ++ ".")%string entries w acc))
    = w_dir w /\
  exists l,
    snd (collect_backups (filepath_Base basePath ++ ".")%string entries w acc) = acc ++ l /\
    (b_path <$> l) `sublist_of` filter (is_backup basePath) entries.
Proof.
  revert w acc. induction entries as [| name rest IH]; intros w acc; simpl.
  - split; [reflexivity |]. exists []. rewrite app_nil_r. split; [reflexivity | constructor].
  - destruct (HasPrefix name (filepath_Base basePath ++ ".")%string) eqn:Hp; simpl.
    + rewrite filter_cons_True by exact Hp.
      pose proof (entry_Info_dir name w) as D.
      destruct (entry_Info name w) as [w1 [info | e]]; simpl in D.
      * destruct (IH w1 (acc ++ [mkBackup name (fi_ModTime info)])) as (Hd & l & El & Hsub).
        split; [congruence |].
        exists (mkBackup name (fi_ModTime info) :: l). split.
        -- rewrite El, <- app_assoc. reflexivity.
        -- simpl. apply sublist_skip. exact Hsub.
      * destruct (IH w1 acc) as (Hd & l & El & Hsub).
        split; [congruence |]. exists l. split; [exact El |].
        apply sublist_cons. exact Hsub.
    + rewrite filter_cons_False by (unfold is_backup; congruence). apply IH.
Qed.

Lemma remove_each_any (P : string * File -> Prop) `{!forall x, Decision (P x)} l w :
  (forall n, w_dir (remove_each l w) !! n = w_dir w !! n \/
             (w_dir (remove_each l w) !! n = None /\ n ∈ b_path <$> l)) /\
  (stdpp.base.size (filter P (w_dir w))
   <= stdpp.base.size (filter P (w_dir (remove_each l w))) + length l)%nat.
Proof.
  revert w. induction l as [| b rest IH]; intros w; simpl.
  - split; [auto | lia].
  - destruct (IH (fst (os_Remove (b_path b) w))) as [Hl Hs].
    destruct (os_Remove_cases (b_path b) w) as [(e & _ & D) | (_ & D)];
      rewrite D in Hl, Hs.
    + split; [| lia]. intros n. destruct (Hl n) as [E | [E Hin]]; [auto |].
      right. split; [exact E | right; exact Hin].
    + split.
      * intros n. destruct (Hl n) as [E | [E Hin]].
        -- destruct (decide (n = b_path b)) as [-> | Hne].
           ++ right. rewrite E, lookup_delete_eq. split; [reflexivity | left].
           ++ left. rewrite E. apply lookup_delete_ne. congruence.
        -- right. split; [exact E | right; exact Hin].
      * rewrite map_filter_delete, map_size_delete in Hs.
        destruct (filter P (w_dir w) !! b_path b); unfold id in Hs; simpl in *; lia.
Qed.

Lemma pruneBackups_any basePath maxBackups w :
  (forall n, w_dir (fst (pruneBackups basePath maxBackups w)) !! n = w_dir w !! n \/
     (w_dir (fst (pruneBackups basePath maxBackups w)) !! n = None /\
      is_backup basePath n)) /\
  Z.min maxBackups (Z.of_nat (file_count (backups_in basePath (w_dir w))))
    <= Z.of_nat (file_count (backups_in basePath
                   (w_dir (fst (pruneBackups basePath maxBackups w))))) /\
  (snd (pruneBackups basePath maxBackups w) <> None ->
   w_dir (fst (pruneBackups basePath maxBackups w)) = w_dir w).
Proof.
  { unfold pruneBackups.
    destruct (Z.leb_spec maxBackups 0) as [Hle | Hpos]; simpl.
    { split; [auto |]. split; [lia | reflexivity]. }
    assert (Hread : w_dir (fst (os_ReadDir w)) = w_dir w /\
              forall entries, snd (os_ReadDir w) = Ok entries ->
                entries = listing (w_dir w)).
    { unfold os_ReadDir.
      pose proof (enter_spec SysReadDir CallReadDir w) as (Hd & _).
      destruct (enter SysReadDir CallReadDir w) as [[ft |] w1]; simpl in *.
      - split; [exact Hd | discriminate].
      - split; [exact Hd |]. intros entries [= <-]. unfold listing. rewrite Hd.
        reflexivity. }
    destruct Hread as [D1 Hentries].
    destruct (os_ReadDir w) as [w1 [entries | e]]; simpl in D1, Hentries |- *.
    2: { rewrite D1. split; [auto |]. split; [lia | reflexivity]. }
    rewrite (Hentries entries eq_refl). clear Hentries entries.
    destruct (collect_backups_any basePath (listing (w_dir w)) w1 [])
      as (D2 & l & El & Hsub).
    destruct (collect_backups _ (listing (w_dir w)) w1 []) as [w2 backups].
    simpl in D2, El. subst backups.
    assert (Hcount : file_count (backups_in basePath (w_dir w))
                     = length (filter (is_backup basePath) (listing (w_dir w)))).
    { apply size_backups_in.
      - apply NoDup_filter, NoDup_listing.
      - intros n. rewrite list_elem_of_filter, elem_of_listing. tauto. }
    assert (Hlen : (length l <= file_count (backups_in basePath (w_dir w)))%nat).
    { rewrite Hcount, <- (length_fmap b_path l). apply sublist_length, Hsub. }
    destruct (Z.leb_spec (Z.of_nat (length l)) maxBackups) as [Hfew | Hmany]; simpl.
    { rewrite D2, D1. split; [auto |]. split; [lia | reflexivity]. }
    match goal with |- context [remove_each ?td w2] => set (toDelete := td) end.
    destruct (remove_each_any (fun kv => is_backup basePath kv.1) toDelete w2)
      as [Hl Hs].
    rewrite D2, D1 in Hl, Hs.
    assert (Hdel : (length toDelete <= length l - Z.to_nat maxBackups)%nat).
    { unfold toDelete. rewrite length_take. lia. }
    split; [| split; [| congruence]].
    - intros n. destruct (Hl n) as [E | [E Hin]]; [auto |].
      right. split; [exact E |].
      apply list_elem_of_fmap in Hin as (b & -> & Hb).
      unfold toDelete in Hb. apply elem_of_take in Hb as (i & Hb & _).
      apply list_elem_of_lookup_2 in Hb. rewrite sort_slice_perm in Hb.
      assert (Hn : b_path b ∈ b_path <$> l) by (apply list_elem_of_fmap_2; exact Hb).
      apply (sublist_submseteq _ _) in Hsub.
      apply (elem_of_submseteq _ _ _ Hn) in Hsub.
      apply list_elem_of_filter in Hsub as [Hp _]. exact Hp.
    - unfold file_count, backups_in in *. lia. }
Qed.

(** X6. Whatever the operating system fails at, [pruneBackups] only ever
    removes files whose names start with the base name and a dot: every
    name of the directory either keeps its file as it was or is such a name
    and is gone.  The active file is never touched.  It never removes too
    many: with [K] backups in the directory, at least [min maxBackups K]
    are left.  When it reports an error it has changed nothing. *)
Theorem prune_is_safe basePath maxBackups w :
  let w' := fst (pruneBackups basePath maxBackups w) in
  (forall n, w_dir w' !! n = w_dir w !! n \/
             (w_dir w' !! n = None /\ is_backup basePath n)) /\
  w_dir w' !! filepath_Base basePath = w_dir w !! filepath_Base basePath /\
  Z.min maxBackups (Z.of_nat (file_count (backups_in basePath (w_dir w))))
    <= Z.of_nat (file_count (backups_in basePath (w_dir w'))) /\
  (snd (pruneBackups basePath maxBackups w) <> None -> w_dir w' = w_dir w).
Proof.
  cbv zeta.
  destruct (pruneBackups_any basePath maxBackups w) as (H1 & H2 & H3).
  split; [exact H1 |]. split; [| split; [exact H2 | exact H3]].
  destruct (H1 (filepath_Base basePath)) as [E | [_ Hb]]; [exact E |].
  destruct (base_not_backup basePath Hb).
Qed.


(** *** Pruning to the limit *)

Lemma pruneBackups_quiet_faults basePath maxBackups w :
  quiet SysReadDir w = true -> quiet SysInfo w = true -> quiet SysRemove w = true ->
  w_faults (fst (pruneBackups basePath maxBackups w)) = w_faults w.
Proof.
  intros Hr Hi Hd. unfold pruneBackups.
  destruct (maxBackups <=? 0); [reflexivity |].
  rewrite os_ReadDir_quiet by exact Hr.
  destruct (collect_backups_quiet basePath (listing (w_dir w))
              (record_call CallReadDir w) []) as (w' & E & Hdir & Hfaults).
  - exact Hi.
  - intros n Hn. apply elem_of_listing in Hn. exact Hn.
  - rewrite E. simpl in Hfaults.
    destruct (Z.of_nat (length _) <=? maxBackups); simpl; [exact Hfaults |].
    match goal with |- context [remove_each ?l w'] =>
      destruct (remove_each_quiet l w') as [Hf _]
    end.
    + rewrite (quiet_faults _ _ _ Hfaults). exact Hd.
    + congruence.
Qed.

Lemma count_selected basePath w :
  quiet SysReadDir w = true -> quiet SysInfo w = true ->
  file_count (backups_in basePath (w_dir w)) = length (selected basePath w).
Proof.
  intros Hr Hi. rewrite <- (length_fmap b_path). apply size_backups_in.
  - apply NoDup_selected_names; assumption.
  - intros n. apply elem_of_selected_names; assumption.
Qed.

(** X7. When the operating system does not fail, one run of [pruneBackups]
    with a limit [K > 0] leaves [min K N] of the [N] backups of the
    directory, whatever their modification times, equal or not; and a
    second run right after it removes nothing. *)
Theorem prune_reaches_limit basePath K w :
  0 < K ->
  quiet SysReadDir w = true -> quiet SysInfo w = true -> quiet SysRemove w = true ->
  let w' := fst (pruneBackups basePath K w) in
  Z.of_nat (file_count (backups_in basePath (w_dir w')))
    = Z.min K (Z.of_nat (file_count (backups_in basePath (w_dir w)))) /\
  w_dir (fst (pruneBackups basePath K w')) = w_dir w' /\
  snd (pruneBackups basePath K w') = None.
Proof.
  intros HK Hr Hi Hd w'.
  assert (Hcount : Z.of_nat (file_count (backups_in basePath (w_dir w')))
            = Z.min K (Z.of_nat (file_count (backups_in basePath (w_dir w))))).
  { destruct (pruneBackups_quiet basePath K w HK Hr Hi Hd) as [_ Hlook].
    fold w' in Hlook.
    rewrite (count_selected basePath w Hr Hi).
    set (S := selected basePath w) in *.
    destruct (Z.leb_spec (Z.of_nat (length S)) K) as [Hfew | Hmany].
    - assert (E : w_dir w' = w_dir w) by (apply map_eq; exact Hlook).
      rewrite E, (count_selected basePath w Hr Hi). fold S. lia.
    - set (sorted := sort_slice older S) in *.
      set (cut := (length S - Z.to_nat K)%nat) in *.
      assert (Hperm : sorted ≡ₚ S) by apply sort_slice_perm.
      assert (Hnd : NoDup ((b_path <$> take cut sorted) ++ (b_path <$> drop cut sorted))).
      { rewrite <- fmap_app, take_drop, Hperm. apply NoDup_selected_names; assumption. }
      apply NoDup_app in Hnd as (Hnd1 & Hdisj & Hnd2).
      assert (Hnames : forall n, n ∈ b_path <$> S <->
                n ∈ (b_path <$> take cut sorted) \/ n ∈ (b_path <$> drop cut sorted)).
      { intros n. rewrite <- Hperm, <- (take_drop cut sorted) at 1.
        rewrite fmap_app, elem_of_app. reflexivity. }
      assert (Hkept : forall n, n ∈ b_path <$> drop cut sorted <->
                is_Some (w_dir w' !! n) /\ is_backup basePath n).
      { intros n. rewrite Hlook. split.
        - intros Hn. assert (Hs : n ∈ b_path <$> S) by (apply Hnames; auto).
          apply elem_of_selected_names in Hs as [Hsome Hp]; try assumption.
          rewrite decide_False; [auto |]. intros Hc. exact (Hdisj n Hc Hn).
        - intros [Hsome Hp]. destruct (decide (n ∈ b_path <$> take cut sorted)) as [| Hnot].
          + destruct Hsome as [? ?]; discriminate.
          + assert (Hs : n ∈ b_path <$> S)
              by (apply elem_of_selected_names; auto).
            apply Hnames in Hs as [|]; [contradiction | assumption]. }
      rewrite (size_backups_in basePath (w_dir w') (b_path <$> drop cut sorted) Hnd2 Hkept).
      rewrite length_fmap, length_drop.
      assert (length sorted = length S) by (rewrite Hperm; reflexivity).
      unfold cut. lia. }
  split; [exact Hcount |].
  assert (Hf : w_faults w' = w_faults w)
    by (apply pruneBackups_quiet_faults; assumption).
  assert (Hr' : quiet SysReadDir w' = true) by (rewrite (quiet_faults _ _ _ Hf); exact Hr).
  assert (Hi' : quiet SysInfo w' = true) by (rewrite (quiet_faults _ _ _ Hf); exact Hi).
  assert (Hd' : quiet SysRemove w' = true) by (rewrite (quiet_faults _ _ _ Hf); exact Hd).
  destruct (pruneBackups_quiet basePath K w' HK Hr' Hi' Hd') as [Hnil Hlook].
  split; [| exact Hnil].
  apply map_eq. intros n. rewrite Hlook.
  rewrite <- (count_selected basePath w' Hr' Hi'), Hcount.
  destruct (Z.leb_spec (Z.min K (Z.of_nat (file_count (backups_in basePath (w_dir w))))) K);
    [reflexivity | lia].
Qed.


(** *** The size the sink keeps *)

Lemma wrap64_add a b : wrap64 (wrap64 a + b) = wrap64 (a + b).
Proof.
  unfold wrap64.
  replace ((a + 9223372036854775808) mod 18446744073709551616 - 9223372036854775808
           + b + 9223372036854775808)
    with ((a + 9223372036854775808) mod 18446744073709551616 + b) by lia.
  rewrite Zplus_mod_idemp_l. f_equal. f_equal. lia.
Qed.

Lemma openCurrent_tracks w s w' s' :
  openCurrent w s = (w', s', None) -> path s' = path s /\ tracks w' s'.
Proof.
  intros E. apply openCurrent_ok in E as (Hf & Hp & _ & _ & (f & Hl & Hs & _) & _).
  split; [exact Hp |]. intros h Hh. rewrite Hp. rewrite Hf in Hh. injection Hh as <-.
  split; [reflexivity |]. exists f. auto.
Qed.

Lemma appendEntry_tracks entry w s :
  tracks w s ->
  path (snd (fst (appendEntry entry w s))) = path s /\
  tracks (fst (fst (appendEntry entry w s))) (snd (fst (appendEntry entry w s))).
Proof.
  intros Ht. unfold appendEntry. destruct (file s) as [h |] eqn:Ef.
  - destruct (Ht h Ef) as (Hn & f & Hl & Hs).
    unfold file_Write.
    pose proof (enter_spec SysWrite (CallWrite (h_name h) entry) w) as (Hd & _).
    destruct (enter SysWrite (CallWrite (h_name h) entry) w) as [ft w1]. simpl in *.
    split; [reflexivity |]. intros h' Hh'. simpl in Hh'. simpl path.
    rewrite Ef in Hh'. injection Hh' as <-. split; [exact Hn |].
    assert (Hl1 : w_dir w1 !! h_name h = Some f) by (rewrite Hd, Hn; exact Hl).
    destruct (append_to_lookup (h_name h) (stored ft entry) w1 f Hl1)
      as [(f' & Hl' & Hdata & _) _].
    exists f'. rewrite <- Hn. split; [exact Hl' |]. right. simpl.
    rewrite Hdata, length_app, Nat2Z.inj_add. unfold add64.
    destruct Hs as [-> | ->]; [reflexivity | apply wrap64_add].
  - simpl. split; [reflexivity |]. intros h Hh. simpl in Hh. congruence.
Qed.

Section Tracking.
Variable gzip : list Byte.byte -> list Byte.byte.

(** [rotateLocked] ends in [openCurrent] on the sink without its handle,
    unless the rename fails. *)
Lemma rotateLocked_ends w s :
  let s1 := match file s with Some _ => set_file None s | None => s end in
  (exists wx, rotateLocked gzip w s = openCurrent wx s1) \/
  (exists w3 e, rotateLocked gzip w s = (w3, s1, Some e)).
Proof.
  cbv zeta. unfold rotateLocked.
  destruct (file s) as [h |].
  - destruct (os_Stat _ (fst (file_Close h w))) as [w2 [info | e0]]; [| eauto].
    destruct (os_Rename _ _ w2) as [w3 [e1 |]]; eauto.
  - destruct (os_Stat _ w) as [w2 [info | e0]]; [| eauto].
    destruct (os_Rename _ _ w2) as [w3 [e1 |]]; eauto.
Qed.

Lemma rotateLocked_tracks w s :
  path (snd (fst (rotateLocked gzip w s))) = path s /\
  (snd (rotateLocked gzip w s) = None ->
   tracks (fst (fst (rotateLocked gzip w s))) (snd (fst (rotateLocked gzip w s)))) /\
  (snd (rotateLocked gzip w s) <> None ->
   file (snd (fst (rotateLocked gzip w s))) = None).
Proof.
  assert (Hp1 : path (match file s with Some _ => set_file None s | None => s end) = path s)
    by (destruct (file s); reflexivity).
  assert (Hf1 : file (match file s with Some _ => set_file None s | None => s end) = None)
    by (destruct (file s) eqn:E; [reflexivity | exact E]).
  destruct (rotateLocked_ends w s) as [(wx & ->) | (w3 & e & ->)].
  - destruct (openCurrent wx _) as [[w' s'] [e |]] eqn:E; simpl.
    + apply openCurrent_failed in E. subst s'. rewrite Hp1, Hf1.
      split; [reflexivity |]. split; congruence.
    + apply openCurrent_tracks in E as [Hp Ht]. rewrite Hp, Hp1.
      split; [reflexivity |]. split; [intros _; exact Ht | congruence].
  - simpl. rewrite Hp1, Hf1. split; [reflexivity |]. split; congruence.
Qed.

Lemma Write_tracks ctx entry w s :
  tracks w s ->
  path (snd (fst (Write gzip ctx entry w s))) = path s /\
  tracks (fst (fst (Write gzip ctx entry w s))) (snd (fst (Write gzip ctx entry w s))).
Proof.
  intros Ht. unfold Write.
  destruct (ctx_Err ctx); [auto |]. destruct (closed s); [auto |].
  assert (H0 : forall w1 s1 r,
    match file s with None => openCurrent w s | Some _ => (w, s, None) end = (w1, s1, r) ->
    path s1 = path s /\ tracks w1 s1).
  { intros w1 s1 r. destruct (file s) as [h |] eqn:Ef.
    - intros [= <- <- _]. auto.
    - destruct r as [e |]; intros E.
      + apply openCurrent_failed in E. subst s1. split; [reflexivity |].
        intros h Hh. congruence.
      + apply openCurrent_tracks in E. exact E. }
  destruct (match file s with None => openCurrent w s | Some _ => (w, s, None) end)
    as [[w1 s1] [e |]] eqn:E0; simpl.
  - exact (H0 _ _ _ eq_refl).
  - destruct (H0 _ _ _ eq_refl) as [Hp1 Ht1].
    destruct (shouldRotate s1 (time_Now w1) (Z.of_nat (length entry))).
    + destruct (rotateLocked_tracks w1 s1) as (Hp2 & Hok & Hfail).
      destruct (rotateLocked gzip w1 s1) as [[w2 s2] [e |]]; simpl in *.
      * split; [congruence |]. intros h Hh. rewrite Hfail in Hh by discriminate.
        discriminate.
      * destruct (appendEntry_tracks entry w2 s2 (Hok eq_refl)) as [Hp3 Ht3].
        split; [congruence | exact Ht3].
    + destruct (appendEntry_tracks entry w1 s1 Ht1) as [Hp3 Ht3].
      split; [congruence | exact Ht3].
Qed.

Lemma invoke_tracks c w s :
  tracks w s ->
  path (snd (fst (invoke gzip c w s))) = path s /\
  tracks (fst (fst (invoke gzip c w s))) (snd (fst (invoke gzip c w s))).
Proof.
  intros Ht. destruct c as [ctx entry | ctx | ctx]; simpl.
  - apply Write_tracks. exact Ht.
  - unfold Flush. destruct (ctx_Err ctx); [auto |]. destruct (closed s); [auto |].
    destruct (file s) as [h |] eqn:Ef; [| auto].
    pose proof (file_Sync_dir h w) as D. destruct (file_Sync h w) as [w1 r]. simpl in *.
    split; [reflexivity |]. intros h' Hh'. destruct (Ht h' Hh') as (Hn & f & Hl & Hs).
    split; [exact Hn |]. exists f. rewrite D. auto.
  - unfold Close. destruct (closed s); [auto |]. simpl.
    destruct (file s) as [h |]; [destruct (file_Close h w) |]; simpl;
      (split; [reflexivity |]); intros h' Hh'; simpl in Hh'; try discriminate.
    destruct (Ht h' Hh') as (Hn & f & Hl & Hs). split; [exact Hn |]. exists f. auto.
Qed.

(** X8. The size the sink keeps never drifts from the disk.  If it agrees
    with the size of the active file to begin with, then after any calls
    of [Write], [Flush] and [Close], with rotations, short writes and
    failures of the operating system of any kind among them, a sink that
    holds a file holds the active file, that file exists, and the size kept
    is its size: exactly, as long as the size fits in 64 bits. *)
Theorem size_tracks_file cs w s :
  tracks w s ->
  let w' := fst (invoke_all gzip cs w s) in
  let s' := snd (invoke_all gzip cs w s) in
  path s' = path s /\
  tracks w' s' /\
  (forall h, file s' = Some h ->
     h_name h = filepath_Base (path s) /\
     exists f, w_dir w' !! filepath_Base (path s) = Some f /\
       (in_int64 (Z.of_nat (length (f_data f))) ->
        size s' = Z.of_nat (length (f_data f)))).
Proof.
  intros Ht. cbv zeta.
  assert (Hinv : path (snd (invoke_all gzip cs w s)) = path s /\
                 tracks (fst (invoke_all gzip cs w s)) (snd (invoke_all gzip cs w s))).
  { revert w s Ht. induction cs as [| c cs IH]; intros w s Ht; simpl; [auto |].
    destruct (invoke_tracks c w s Ht) as [Hp1 Ht1].
    destruct (invoke gzip c w s) as [[w1 s1] r]. simpl in *.
    destruct (IH w1 s1 Ht1) as [Hp2 Ht2]. split; [congruence | exact Ht2]. }
  destruct Hinv as [Hp Ht']. split; [exact Hp |]. split; [exact Ht' |].
  intros h Hh. destruct (Ht' h Hh) as (Hn & f & Hl & Hs). rewrite Hp in Hn, Hl.
  split; [exact Hn |]. exists f. split; [exact Hl |].
  intros Hr. destruct Hs as [-> | ->]; [reflexivity | apply wrap64_id; exact Hr].
Qed.

End Tracking.


(** *** Writes without rotation *)

Section Appending.
Variable gzip : list Byte.byte -> list Byte.byte.

(** One [Write] that does not rotate, on a write that does not fail: one
    call to the operating system, which appends the entry. *)
Lemma Write_appends ctx entry w s h f :
  ctx_Err ctx = None -> closed s = false -> file s = Some h ->
  w_dir w !! h_name h = Some f ->
  shouldRotate s (time_Now w) (Z.of_nat (length entry)) = false ->
  quiet SysWrite w = true ->
  exists w' f',
    Write gzip ctx entry w s
      = (w', set_size (add64 (size s) (Z.of_nat (length entry))) s, None) /\
    w_dir w' !! h_name h = Some f' /\
    f_data f' = f_data f ++ entry /\ f_perm f' = f_perm f /\
    (forall n, n <> h_name h -> w_dir w' !! n = w_dir w !! n) /\
    w_log w' = w_log w ++ [CallWrite (h_name h) entry] /\
    w_faults w' = w_faults w.
Proof.
  intros Hx Hc Hf Hl Hrot Hq.
  rewrite (Write_open gzip ctx entry w s h Hx Hc Hf), Hrot.
  unfold appendEntry, file_Write. rewrite Hf, (enter_quiet _ _ _ Hq). simpl.
  destruct (append_to_lookup (h_name h) entry (record_call (CallWrite (h_name h) entry) w)
              f Hl) as [(f' & Hl' & Hdata & Hperm) Hother].
  eexists _, f'. split; [reflexivity |].
  split; [exact Hl' |]. split; [exact Hdata |]. split; [exact Hperm |].
  split; [exact Hother |].
  unfold append_to. simpl. rewrite Hl. destruct entry; split; reflexivity.
Qed.

(** X9. With both limits of the policy off, a sink that holds its file
    never rotates: a sequence of writes, none of which the operating system
    fails, makes exactly one call each, every [Write] returns nil, and the
    file ends up with what it had followed by the entries in order.
    Nothing else in the directory changes. *)
Theorem writes_append entries w s h f :
  closed s = false -> file s = Some h -> w_dir w !! h_name h = Some f ->
  spolicy.MaxSizeMB (Policy (opt s)) = 0 -> spolicy.MaxAgeDays (Policy (opt s)) = 0 ->
  quiet SysWrite w = true ->
  let w' := fst (invoke_all gzip (CallsWrite Background <$> entries) w s) in
  let s' := snd (invoke_all gzip (CallsWrite Background <$> entries) w s) in
  (exists f', w_dir w' !! h_name h = Some f' /\
              f_data f' = f_data f ++ concat entries /\ f_perm f' = f_perm f) /\
  (forall n, n <> h_name h -> w_dir w' !! n = w_dir w !! n) /\
  w_log w' = w_log w ++ (CallWrite (h_name h) <$> entries) /\
  file s' = Some h /\ closed s' = false /\
  (forall i e, entries !! i = Some e ->
     let wi := fst (invoke_all gzip (CallsWrite Background <$> take i entries) w s) in
     let si := snd (invoke_all gzip (CallsWrite Background <$> take i entries) w s) in
     snd (Write gzip Background e wi si) = None).
Proof.
  intros Hc Hf Hl Hsz Hage Hq. cbv zeta.
  revert w s f Hc Hf Hl Hsz Hage Hq.
  induction entries as [| e entries IH]; intros w s f Hc Hf Hl Hsz Hage Hq.
  - simpl. split; [exists f; rewrite app_nil_r; auto |].
    split; [reflexivity |]. split; [rewrite app_nil_r; reflexivity |].
    split; [exact Hf |]. split; [exact Hc |]. intros i e Hi. inversion Hi.
  - destruct (Write_appends Background e w s h f eq_refl Hc Hf Hl
                (shouldRotate_disabled s _ _ Hsz Hage) Hq)
      as (w1 & f1 & EW & Hl1 & Hdata1 & Hperm1 & Hother1 & Hlog1 & Hfaults1).
    assert (Hq1 : quiet SysWrite w1 = true)
      by (rewrite (quiet_faults _ _ _ Hfaults1); exact Hq).
    specialize (IH w1 (set_size (add64 (size s) (Z.of_nat (length e))) s) f1
                  Hc Hf Hl1 Hsz Hage Hq1).
    destruct IH as ((f' & Hl' & Hdata' & Hperm') & Hother' & Hlog' & Hf' & Hc' & Herr').
    cbn [fmap list_fmap invoke_all invoke]. rewrite EW.
    split; [| split; [| split; [| split; [| split]]]].
    + exists f'. split; [exact Hl' |]. split; [| congruence].
      rewrite Hdata', Hdata1. simpl. rewrite <- app_assoc. reflexivity.
    + intros n Hn. rewrite Hother' by exact Hn. apply Hother1. exact Hn.
    + rewrite Hlog', Hlog1, <- app_assoc. reflexivity.
    + exact Hf'.
    + exact Hc'.
    + intros [| i] e' Hi.
      * simpl in Hi. injection Hi as <-. simpl. rewrite EW. reflexivity.
      * simpl in Hi. cbn [take fmap list_fmap invoke_all invoke]. rewrite EW.
        apply Herr'. exact Hi.
Qed.

End Appending.


(** *** A rotation that succeeds *)

Lemma rotated_is_backup basePath t : is_backup basePath (rotatedFilename basePath t).
Proof.
  unfold is_backup, HasPrefix, rotatedFilename.
  rewrite <- append_assoc. apply prefix_app.
Qed.

Lemma rotated_gz_is_backup basePath t :
  is_backup basePath (rotatedFilename basePath t ++ ".gz")%string.
Proof.
  unfold is_backup, HasPrefix, rotatedFilename.
  rewrite <- (append_assoc (filepath_Base basePath) "." (format_stamp t)).
  rewrite append_assoc. apply prefix_app.
Qed.

Lemma rotated_same_second basePath t t' :
  t / 1000000000 = t' / 1000000000 ->
  rotatedFilename basePath t = rotatedFilename basePath t'.
Proof. intros E. unfold rotatedFilename, format_stamp. rewrite E. reflexivity. Qed.

Lemma os_Stat_found n w f :
  quiet SysStat w = true -> w_dir w !! n = Some f ->
  os_Stat n w = (record_call (CallStat n) w, Ok (info_of f)).
Proof.
  intros Hq Hf. unfold os_Stat. rewrite enter_quiet by exact Hq. simpl.
  rewrite Hf. reflexivity.
Qed.

Lemma os_Rename_quiet a b w f :
  quiet SysRename w = true -> w_dir w !! a = Some f ->
  os_Rename a b w
  = (set_dir (<[b := f]> (delete a (w_dir w))) (record_call (CallRename a b) w), None).
Proof.
  intros Hq Hf. unfold os_Rename. rewrite enter_quiet by exact Hq. simpl.
  rewrite Hf. reflexivity.
Qed.

(** [openCurrent] when its three calls do not fail and the active file is
    not there: the file is created empty, and the sink starts from zero. *)
Lemma openCurrent_fresh w s :
  quiet SysMkdirAll w = true -> quiet SysOpenFile w = true -> quiet SysFstat w = true ->
  w_dir w !! filepath_Base (path s) = None ->
  exists w',
    openCurrent w s
    = (w', mkSink (path s) (opt s) (Some (mkHandle (filepath_Base (path s)) active_flags))
             0 (w_clock w) (closed s), None) /\
    w_dir w' = <[filepath_Base (path s) :=
                   mkFile [] (w_clock w) (Z.ldiff (FileMode (opt s)) (w_umask w))]> (w_dir w).
Proof.
  intros Q1 Q2 Q3 Hnone. unfold openCurrent, os_MkdirAll.
  rewrite enter_quiet by exact Q1. simpl.
  unfold os_OpenFile. rewrite enter_quiet by (rewrite quiet_record_call; exact Q2).
  simpl. rewrite Hnone.
  change (Z.land active_flags O_CREATE =? 0) with false. cbv iota.
  unfold file_Stat.
  rewrite enter_quiet by (rewrite quiet_set_dir, !quiet_record_call; exact Q3). simpl.
  rewrite lookup_insert_eq. eexists. split; reflexivity.
Qed.

(** [openCurrent] succeeds when its three calls do not fail. *)
Lemma openCurrent_sure w s :
  quiet SysMkdirAll w = true -> quiet SysOpenFile w = true -> quiet SysFstat w = true ->
  snd (openCurrent w s) = None.
Proof.
  intros Q1 Q2 Q3.
  destruct (w_dir w !! filepath_Base (path s)) as [f |] eqn:Ef.
  - unfold openCurrent, os_MkdirAll.
    rewrite enter_quiet by exact Q1. simpl.
    unfold os_OpenFile. rewrite enter_quiet by (rewrite quiet_record_call; exact Q2).
    simpl. rewrite Ef.
    change (Z.land active_flags O_TRUNC =? 0) with true. cbv iota.
    unfold file_Stat. rewrite enter_quiet by (rewrite !quiet_record_call; exact Q3).
    simpl. rewrite Ef. reflexivity.
  - destruct (openCurrent_fresh w s Q1 Q2 Q3 Ef) as (w' & E & _). rewrite E. reflexivity.
Qed.

(** The append of [Write] when the write does not fail. *)
Lemma appendEntry_quiet entry w s h f :
  quiet SysWrite w = true -> file s = Some h -> w_dir w !! h_name h = Some f ->
  exists w' f',
    appendEntry entry w s
      = (w', set_size (add64 (size s) (Z.of_nat (length entry))) s, None) /\
    steady w w' /\
    w_dir w' !! h_name h = Some f' /\ f_data f' = f_data f ++ entry /\
    (forall n, n <> h_name h -> w_dir w' !! n = w_dir w !! n).
Proof.
  intros Hq Hf Hl. unfold appendEntry, file_Write. rewrite Hf.
  pose proof (steady_enter SysWrite (CallWrite (h_name h) entry) w) as S.
  rewrite (enter_quiet _ _ _ Hq) in S |- *. simpl in S |- *.
  destruct (append_to_lookup (h_name h) entry (record_call (CallWrite (h_name h) entry) w)
              f Hl) as [(f' & Hl' & Hdata & _) Hother].
  eexists _, f'. split; [reflexivity |].
  split; [apply steady_append_to; exact S |].
  split; [exact Hl' |]. split; [exact Hdata | exact Hother].
Qed.

Section Rotation.
Variable gzip : list Byte.byte -> list Byte.byte.

(** What follows the rename in [rotateLocked], up to the reopening: the
    compression and the pruning, each if the policy asks for it, and
    whatever fails in them. *)
Lemma after_rename s backup w f :
  w_dir w !! backup = Some f ->
  is_backup (path s) backup -> is_backup (path s) (backup ++ ".gz")%string ->
  let w4 := if spolicy.Compress (Policy (opt s))
            then fst (compressFile gzip backup w) else w in
  let w5 := if 0 <? spolicy.MaxBackups (Policy (opt s))
            then fst (pruneBackups (path s) (spolicy.MaxBackups (Policy (opt s))) w4)
            else w4 in
  steady w w5 /\
  (forall n, ~ is_backup (path s) n -> w_dir w5 !! n = w_dir w !! n) /\
  (spolicy.MaxBackups (Policy (opt s)) <= 0 ->
   if spolicy.Compress (Policy (opt s))
   then (w_dir w5 !! backup = Some f \/
         (w_dir w5 !! backup = None /\
          exists g, w_dir w5 !! (backup ++ ".gz")%string = Some g /\
                    f_data g = gzip (f_data f))) /\
        (calm w ->
         w_dir w5 !! backup = None /\
         exists g, w_dir w5 !! (backup ++ ".gz")%string = Some g /\
                   f_data g = gzip (f_data f))
   else w5 = w).
Proof.
  intros Hf Hb Hbz. cbv zeta.
  set (w4 := if spolicy.Compress (Policy (opt s))
             then fst (compressFile gzip backup w) else w).
  assert (H4 : steady w w4 /\
               (forall n, ~ is_backup (path s) n -> w_dir w4 !! n = w_dir w !! n) /\
               (if spolicy.Compress (Policy (opt s))
                then (w_dir w4 !! backup = Some f \/
                      (w_dir w4 !! backup = None /\
                       exists g, w_dir w4 !! (backup ++ ".gz")%string = Some g /\
                                 f_data g = gzip (f_data f))) /\
                     (calm w ->
                      w_dir w4 !! backup = None /\
                      exists g, w_dir w4 !! (backup ++ ".gz")%string = Some g /\
                                f_data g = gzip (f_data f))
                else w4 = w)).
  { unfold w4. destruct (spolicy.Compress (Policy (opt s))).
    - destruct (compressFile_effect gzip backup w f Hf) as (Hkeep & Hnil & Hother).
      split; [apply compressFile_steady |]. split.
      + intros n Hn. apply Hother; intros ->; contradiction.
      + split; [exact Hkeep |]. intros Hq. apply Hnil.
        exact (compressFile_calm gzip backup w f Hq Hf).
    - split; [apply steady_refl |]. split; reflexivity. }
  destruct H4 as (S4 & O4 & B4).
  destruct (Z.ltb_spec 0 (spolicy.MaxBackups (Policy (opt s)))) as [Hpos | Hle].
  - destruct (pruneBackups_any (path s) (spolicy.MaxBackups (Policy (opt s))) w4)
      as (Hany & _ & _).
    split; [eapply steady_trans; [exact S4 | apply pruneBackups_steady] |].
    split; [| lia].
    intros n Hn. destruct (Hany n) as [E | [_ Hc]]; [| contradiction].
    rewrite E. apply O4. exact Hn.
  - split; [exact S4 |]. split; [exact O4 |]. intros _. exact B4.
Qed.

(** [rotateLocked] on a sink that holds its file, when the stat, the
    rename and the three calls of the reopening do not fail. *)
Lemma rotateLocked_dependable w s h f :
  dependable w -> file s = Some h -> w_dir w !! filepath_Base (path s) = Some f ->
  let backup := rotatedFilename (path s) (w_clock w) in
  exists w',
    rotateLocked gzip w s
    = (w', mkSink (path s) (opt s) (Some (mkHandle (filepath_Base (path s)) active_flags))
             0 (w_clock w) (closed s), None) /\
    steady w w' /\
    w_dir w' !! filepath_Base (path s)
    = Some (mkFile [] (w_clock w) (Z.ldiff (FileMode (opt s)) (w_umask w))) /\
    (spolicy.MaxBackups (Policy (opt s)) <= 0 ->
     if spolicy.Compress (Policy (opt s))
     then (w_dir w' !! backup = Some f \/
           (w_dir w' !! backup = None /\
            exists g, w_dir w' !! (backup ++ ".gz")%string = Some g /\
                      f_data g = gzip (f_data f))) /\
          (calm w ->
           w_dir w' !! backup = None /\
           exists g, w_dir w' !! (backup ++ ".gz")%string = Some g /\
                     f_data g = gzip (f_data f))
     else w_dir w' !! backup = Some f /\
          forall n, n <> backup -> n <> filepath_Base (path s) ->
            w_dir w' !! n = w_dir w !! n) /\
    (forall n, ~ is_backup (path s) n -> n <> filepath_Base (path s) ->
       w_dir w' !! n = w_dir w !! n).
Proof.
  intros Hq Hfile Hl backup.
  pose proof (rotated_is_backup (path s) (w_clock w)) as Hb. fold backup in Hb.
  pose proof (rotated_gz_is_backup (path s) (w_clock w)) as Hbz. fold backup in Hbz.
  pose proof (base_not_backup (path s)) as Hbase.
  assert (Hne : backup <> filepath_Base (path s)) by (intros E; rewrite E in Hb; contradiction).
  assert (Hnez : (backup ++ ".gz")%string <> filepath_Base (path s))
    by (intros E; rewrite E in Hbz; contradiction).
  unfold rotateLocked. rewrite Hfile.
  pose proof (file_Close_steady h w) as S1. pose proof (file_Close_dir h w) as D1.
  set (w1 := fst (file_Close h w)) in *.
  cbn [path set_file opt].
  destruct (steady_dependable _ _ S1 Hq) as (_ & _ & _ & Q1s & Q1r & _).
  assert (C1 : w_clock w1 = w_clock w) by apply S1.
  rewrite (os_Stat_found _ w1 f Q1s) by (rewrite D1; exact Hl).
  unfold time_Now. cbn [w_clock record_call]. rewrite C1. fold backup.
  rewrite (os_Rename_quiet _ backup _ f)
    by (first [rewrite quiet_record_call; exact Q1r | simpl; rewrite D1; exact Hl]).
  cbn [w_dir record_call].
  set (w3 := set_dir (<[backup := f]> (delete (filepath_Base (path s)) (w_dir w1)))
               (record_call (CallRename (filepath_Base (path s)) backup)
                  (record_call (CallStat (filepath_Base (path s))) w1))).
  assert (S3 : steady w w3).
  { eapply steady_trans; [exact S1 |]. split; [reflexivity |]. split; [reflexivity |].
    intros k Hk. unfold w3. rewrite quiet_set_dir, !quiet_record_call. exact Hk. }
  assert (L3 : w_dir w3 !! backup = Some f) by (unfold w3; simpl; apply lookup_insert_eq).
  destruct (after_rename s backup w3 f L3 Hb Hbz) as (S5 & O5 & B5).
  match type of S5 with steady w3 ?x => set (w5 := x) in * end.
  assert (S05 : steady w w5) by (eapply steady_trans; eauto).
  destruct (steady_dependable _ _ S05 Hq) as (Q5m & Q5o & Q5f & _).
  assert (N5 : w_dir w5 !! filepath_Base (path (set_file None s)) = None).
  { simpl. rewrite O5 by exact Hbase. unfold w3. simpl.
    rewrite lookup_insert_ne by exact Hne. apply lookup_delete_eq. }
  destruct (openCurrent_fresh w5 (set_file None s) Q5m Q5o Q5f N5) as (w' & E & D').
  pose proof S05 as (C5 & U5 & _).
  exists w'. simpl in E, D'. rewrite C5, U5 in *.
  split; [exact E |]. split; [| split; [| split]].
  - pose proof (openCurrent_steady w5 (set_file None s)) as S6. rewrite E in S6. simpl in S6.
    eapply steady_trans; [exact S05 | exact S6].
  - rewrite D'. apply lookup_insert_eq.
  - intros Hk. specialize (B5 Hk). rewrite D'.
    destruct (spolicy.Compress (Policy (opt s))).
    + rewrite !lookup_insert_ne by congruence.
      destruct B5 as [B5 B5c]. split; [exact B5 |].
      intros Hc. apply B5c. exact (steady_calm _ _ S3 Hc).
    + rewrite B5. split.
      * rewrite lookup_insert_ne by congruence. exact L3.
      * intros n Hn1 Hn2. rewrite lookup_insert_ne by congruence.
        unfold w3. simpl. rewrite lookup_insert_ne by congruence.
        rewrite lookup_delete_ne by congruence. rewrite D1. reflexivity.
  - intros n Hn Hnb. rewrite D', lookup_insert_ne by congruence.
    rewrite O5 by exact Hn. unfold w3. simpl.
    rewrite lookup_insert_ne by (intros <-; contradiction).
    rewrite lookup_delete_ne by congruence. rewrite D1. reflexivity.
Qed.

(** A [Write] that rotates, when the calls it depends on do not fail: the
    state it leaves. *)
Lemma Write_rotates ctx entry w s h f :
  dependable w -> ctx_Err ctx = None -> closed s = false -> file s = Some h ->
  w_dir w !! filepath_Base (path s) = Some f ->
  shouldRotate s (time_Now w) (Z.of_nat (length entry)) = true ->
  Z.of_nat (length entry) <= max_int64 ->
  let backup := rotatedFilename (path s) (w_clock w) in
  exists w' f',
    Write gzip ctx entry w s
    = (w', mkSink (path s) (opt s) (Some (mkHandle (filepath_Base (path s)) active_flags))
             (Z.of_nat (length entry)) (w_clock w) (closed s), None) /\
    steady w w' /\
    w_dir w' !! filepath_Base (path s) = Some f' /\ f_data f' = entry /\
    (spolicy.MaxBackups (Policy (opt s)) <= 0 ->
     if spolicy.Compress (Policy (opt s))
     then (w_dir w' !! backup = Some f \/
           (w_dir w' !! backup = None /\
            exists g, w_dir w' !! (backup ++ ".gz")%string = Some g /\
                      f_data g = gzip (f_data f))) /\
          (calm w ->
           w_dir w' !! backup = None /\
           exists g, w_dir w' !! (backup ++ ".gz")%string = Some g /\
                     f_data g = gzip (f_data f))
     else w_dir w' !! backup = Some f /\
          forall n, n <> backup -> n <> filepath_Base (path s) ->
            w_dir w' !! n = w_dir w !! n) /\
    (forall n, ~ is_backup (path s) n -> n <> filepath_Base (path s) ->
       w_dir w' !! n = w_dir w !! n).
Proof.
  intros Hq Hx Hc Hfile Hl Hrot Hlen backup.
  destruct (rotateLocked_dependable w s h f Hq Hfile Hl) as (w2 & E & S2 & L2 & B2 & O2).
  fold backup in B2.
  rewrite (Write_open gzip ctx entry w s h Hx Hc Hfile), Hrot, E.
  destruct (steady_dependable _ _ S2 Hq) as (_ & _ & _ & _ & _ & Q2w).
  set (base := filepath_Base (path s)) in *.
  destruct (appendEntry_quiet entry w2
              (mkSink (path s) (opt s) (Some (mkHandle base active_flags))
                 0 (w_clock w) (closed s))
              (mkHandle base active_flags) _ Q2w eq_refl L2)
    as (w' & f' & EA & SA & LA & DA & OA).
  exists w', f'. rewrite EA. cbn [h_name] in LA, OA.
  split.
  { unfold set_size. cbn [path opt file size created closed]. f_equal. f_equal.
    f_equal. unfold add64. apply wrap64_id. unfold in_int64, min_int64. lia. }
  split; [eapply steady_trans; eauto |].
  split; [exact LA |]. split; [exact DA |].
  pose proof (rotated_is_backup (path s) (w_clock w)) as Hb. fold backup in Hb.
  pose proof (rotated_gz_is_backup (path s) (w_clock w)) as Hbz. fold backup in Hbz.
  pose proof (base_not_backup (path s)) as Hbase. fold base in Hbase.
  assert (Hne : backup <> base) by (intros E'; rewrite E' in Hb; contradiction).
  assert (Hnez : (backup ++ ".gz")%string <> base)
    by (intros E'; rewrite E' in Hbz; contradiction).
  split.
  - intros Hk. specialize (B2 Hk).
    destruct (spolicy.Compress (Policy (opt s))).
    + rewrite !OA by assumption. exact B2.
    + destruct B2 as [B2 P2]. rewrite OA by assumption. split; [exact B2 |].
      intros n Hn1 Hn2. rewrite OA by exact Hn2. apply P2; assumption.
  - intros n Hn Hnb. rewrite OA by exact Hnb. apply O2; assumption.
Qed.

(** X10. A [Write] that rotates returns nil as long as the calls it cannot
    do without do not fail: the stat and the rename of the active file, the
    three calls that open the new one, and the write.  Whatever else fails,
    the close of the old file, the compression, the pruning, is swallowed.
    The active file is new and holds the entry and nothing else; the sink
    holds it, counts the entry as its size and takes the time of the
    rotation as its creation time.  No file is touched other than the
    active file and files named as its backups.  When the policy sets no
    limit on the backups, what the active file held is kept: it is under
    the backup name of that second; when the policy compresses, it is there
    or, compressed in full, under that name with ".gz", and the latter when
    nothing failed at all.  When the policy sets a limit, nothing is said
    of the former content: the pruning of the same rotation may remove the
    backup it has just made, as the run [rotation_prunes_its_own_backup]
    shows. *)
Theorem rotating_write_keeps_content ctx entry w s h f :
  dependable w -> ctx_Err ctx = None -> closed s = false -> file s = Some h ->
  w_dir w !! filepath_Base (path s) = Some f ->
  shouldRotate s (time_Now w) (Z.of_nat (length entry)) = true ->
  Z.of_nat (length entry) <= max_int64 ->
  let backup := rotatedFilename (path s) (time_Now w) in
  let w' := fst (fst (Write gzip ctx entry w s)) in
  let s' := snd (fst (Write gzip ctx entry w s)) in
  snd (Write gzip ctx entry w s) = None /\
  (exists f', w_dir w' !! filepath_Base (path s) = Some f' /\ f_data f' = entry) /\
  file s' = Some (mkHandle (filepath_Base (path s)) active_flags) /\
  size s' = Z.of_nat (length entry) /\
  created s' = time_Now w /\
  (spolicy.MaxBackups (Policy (opt s)) <= 0 ->
   if spolicy.Compress (Policy (opt s))
   then (w_dir w' !! backup = Some f \/
         (w_dir w' !! backup = None /\
          exists g, w_dir w' !! (backup ++ ".gz")%string = Some g /\
                    f_data g = gzip (f_data f))) /\
        (calm w ->
         w_dir w' !! backup = None /\
         exists g, w_dir w' !! (backup ++ ".gz")%string = Some g /\
                   f_data g = gzip (f_data f))
   else w_dir w' !! backup = Some f) /\
  (forall n, ~ is_backup (path s) n -> n <> filepath_Base (path s) ->
     w_dir w' !! n = w_dir w !! n).
Proof.
  intros Hq Hx Hc Hfile Hl Hrot Hlen. cbv zeta. unfold time_Now.
  destruct (Write_rotates ctx entry w s h f Hq Hx Hc Hfile Hl Hrot Hlen)
    as (w' & f' & E & _ & L & D & B & O).
  rewrite E. cbn [fst snd file size created].
  split; [reflexivity |]. split; [exists f'; auto |].
  repeat (split; [reflexivity |]). split; [| exact O].
  intros Hk. specialize (B Hk).
  destruct (spolicy.Compress (Policy (opt s))); [exact B | apply B].
Qed.

(** X11. Backups are named by the second, and a rename replaces what is
    there.  When a [Write] rotates and the next [Write] rotates again
    within the same second, with no compression and no limit on the
    backups, the second rotation puts the file of the first entry under the
    backup name the first rotation had used: what the active file held
    before the two writes is no longer under that name, and no other name
    has received it. *)
Theorem same_second_rotation_replaces_backup ctx e1 e2 w s h f t2 :
  dependable w -> ctx_Err ctx = None -> closed s = false -> file s = Some h ->
  w_dir w !! filepath_Base (path s) = Some f ->
  spolicy.Compress (Policy (opt s)) = false ->
  spolicy.MaxBackups (Policy (opt s)) <= 0 ->
  Z.of_nat (length e1) <= max_int64 -> Z.of_nat (length e2) <= max_int64 ->
  shouldRotate s (time_Now w) (Z.of_nat (length e1)) = true ->
  let backup := rotatedFilename (path s) (time_Now w) in
  let w1 := at_time t2 (fst (fst (Write gzip ctx e1 w s))) in
  let s1 := snd (fst (Write gzip ctx e1 w s)) in
  t2 / 1000000000 = time_Now w / 1000000000 ->
  shouldRotate s1 t2 (Z.of_nat (length e2)) = true ->
  let w2 := fst (fst (Write gzip ctx e2 w1 s1)) in
  w_dir w1 !! backup = Some f /\
  snd (Write gzip ctx e2 w1 s1) = None /\
  (exists b, w_dir w2 !! backup = Some b /\ f_data b = e1) /\
  (exists a, w_dir w2 !! filepath_Base (path s) = Some a /\ f_data a = e2) /\
  (forall n, n <> backup -> n <> filepath_Base (path s) -> w_dir w2 !! n = w_dir w !! n).
Proof.
  intros Hq Hx Hc Hfile Hl Hnc Hnb Hl1 Hl2 Hrot1. cbv zeta. unfold time_Now.
  intros Hsec Hrot2.
  destruct (Write_rotates ctx e1 w s h f Hq Hx Hc Hfile Hl Hrot1 Hl1)
    as (w' & f1 & E1 & S1 & L1 & D1 & B1 & O1).
  rewrite E1 in *. cbn [fst snd] in *.
  specialize (B1 Hnb). rewrite Hnc in B1. destruct B1 as [B1 P1].
  set (s1 := mkSink (path s) (opt s) (Some (mkHandle (filepath_Base (path s)) active_flags))
               (Z.of_nat (length e1)) (w_clock w) (closed s)) in *.
  assert (Hq1 : dependable (at_time t2 w')).
  { destruct (steady_dependable _ _ S1 Hq) as (A1 & A2 & A3 & A4 & A5 & A6).
    repeat split; assumption. }
  destruct (Write_rotates ctx e2 (at_time t2 w') s1
              (mkHandle (filepath_Base (path s)) active_flags) f1 Hq1 Hx Hc eq_refl L1
              Hrot2 Hl2)
    as (w2 & f2 & E2 & S2 & L2 & D2 & B2 & O2).
  rewrite E2. cbn [fst snd].
  cbn [path opt s1 w_clock at_time] in B2, O2, L2.
  specialize (B2 Hnb). rewrite Hnc in B2.
  rewrite (rotated_same_second (path s) t2 (w_clock w) Hsec) in B2.
  destruct B2 as [B2 P2].
  split; [exact B1 |]. split; [reflexivity |].
  split; [exists f1; auto |]. split; [exists f2; auto |].
  intros n Hn1 Hn2. rewrite P2 by assumption. cbn [w_dir at_time].
  apply P1; assumption.
Qed.

End Rotation.

(** *** Writes that cannot fail *)

Section Dependable.
Variable gzip : list Byte.byte -> list Byte.byte.

(** The head of [Write], when the calls that open the file do not fail:
    the sink holds the active file, and the file is there. *)
Lemma ensureOpen_dependable w s :
  dependable w -> tracks w s ->
  exists w1 s1 h1 f1,
    ensureOpen w s = (w1, s1, None) /\ steady w w1 /\
    path s1 = path s /\ opt s1 = opt s /\ closed s1 = closed s /\
    file s1 = Some h1 /\ h_name h1 = filepath_Base (path s) /\
    w_dir w1 !! filepath_Base (path s) = Some f1.
Proof.
  intros (Q1 & Q2 & Q3 & _) Ht. unfold ensureOpen.
  destruct (file s) as [h |] eqn:Ef.
  - destruct (Ht h Ef) as (Hn & f & Hl & _).
    exists w, s, h, f. repeat split; auto using steady_refl.
  - pose proof (openCurrent_sure w s Q1 Q2 Q3) as Hnil.
    pose proof (openCurrent_steady w s) as Hs.
    destruct (openCurrent w s) as [[w1 s1] r] eqn:E. simpl in Hnil, Hs. subst r.
    destruct (openCurrent_ok _ _ _ _ E) as (Hf & Hp & Ho & Hc & (f & Hl & _) & _).
    exists w1, s1, (mkHandle (filepath_Base (path s)) active_flags), f.
    split; [reflexivity |]. split; [exact Hs |]. repeat split; auto.
Qed.

Lemma Write_dependable ctx entry w s :
  dependable w -> tracks w s -> closed s = false -> ctx_Err ctx = None ->
  Z.of_nat (length entry) <= max_int64 ->
  exists w' s' h' f',
    Write gzip ctx entry w s = (w', s', None) /\ steady w w' /\
    closed s' = false /\ file s' = Some h' /\
    w_dir w' !! filepath_Base (path s) = Some f' /\
    entry `suffix_of` f_data f'.
Proof.
  intros Hq Ht Hc Hx Hlen.
  destruct (ensureOpen_dependable w s Hq Ht)
    as (w1 & s1 & h1 & f1 & E1 & S1 & Hp1 & Ho1 & Hc1 & Hf1 & Hn1 & Hl1).
  pose proof (steady_dependable _ _ S1 Hq) as Hq1.
  rewrite (Write_steps gzip ctx entry w s Hx Hc). unfold beforeAppend. rewrite E1.
  destruct (shouldRotate s1 (time_Now w1) (Z.of_nat (length entry))).
  - rewrite <- Hp1 in Hl1.
    destruct (rotateLocked_dependable gzip w1 s1 h1 f1 Hq1 Hf1 Hl1)
      as (w2 & E2 & S2 & L2 & _).
    rewrite E2.
    destruct (steady_dependable _ _ S2 Hq1) as (_ & _ & _ & _ & _ & Q2w).
    destruct (appendEntry_quiet entry w2
                (mkSink (path s1) (opt s1)
                   (Some (mkHandle (filepath_Base (path s1)) active_flags))
                   0 (w_clock w1) (closed s1))
                (mkHandle (filepath_Base (path s1)) active_flags) _ Q2w eq_refl L2)
      as (w' & f' & EA & SA & LA & DA & _).
    rewrite EA. eexists w', _, _, f'. split; [reflexivity |].
    split; [eauto using steady_trans |]. cbn [closed file set_size h_name] in *.
    split; [congruence |]. split; [reflexivity |].
    rewrite <- Hp1. split; [exact LA |]. rewrite DA. exists []. reflexivity.
  - destruct Hq1 as (_ & _ & _ & _ & _ & Q1w).
    rewrite <- Hn1 in Hl1.
    destruct (appendEntry_quiet entry w1 s1 h1 f1 Q1w Hf1 Hl1)
      as (w' & f' & EA & SA & LA & DA & _).
    rewrite EA. eexists w', _, h1, f'. split; [reflexivity |].
    split; [eauto using steady_trans |]. cbn [closed file set_size].
    split; [congruence |]. split; [exact Hf1 |].
    rewrite <- Hn1. split; [exact LA |]. rewrite DA. exists (f_data f1). reflexivity.
Qed.

(** X12. A [Write] fails only if one of the calls it cannot do without
    fails.  On an open sink whose size agrees with the disk, as long as
    the calls that open the active file, the stat and the rename of a
    rotation and the write itself do not fail, every [Write] of a sequence
    returns nil, whether it rotates or not and whatever the close of a
    file, the compression or the pruning do; and right after it the
    active file ends with the entry. *)
Theorem writes_succeed_when_their_calls_do entries w s :
  dependable w -> tracks w s -> closed s = false ->
  Forall (fun e => Z.of_nat (length e) <= max_int64) entries ->
  forall i e, entries !! i = Some e ->
    let wi := fst (invoke_all gzip (CallsWrite Background <$> take i entries) w s) in
    let si := snd (invoke_all gzip (CallsWrite Background <$> take i entries) w s) in
    snd (Write gzip Background e wi si) = None /\
    exists f, w_dir (fst (fst (Write gzip Background e wi si))) !! filepath_Base (path s)
              = Some f /\
              e `suffix_of` f_data f.
Proof.
  intros Hq Ht Hc Hall i. revert entries w s Hq Ht Hc Hall.
  induction i as [| i IH]; intros entries w s Hq Ht Hc Hall e Hi; cbv zeta.
  - rewrite take_0. cbn [fmap list_fmap invoke_all fst snd].
    assert (Hlen : Z.of_nat (length e) <= max_int64).
    { apply list_elem_of_lookup_2 in Hi. rewrite Forall_forall in Hall. auto. }
    destruct (Write_dependable Background e w s Hq Ht Hc eq_refl Hlen)
      as (w' & s' & h' & f' & E & _ & _ & _ & Hl & Hsuf).
    rewrite E. simpl. eauto.
  - destruct entries as [| e0 rest]; [discriminate |]. simpl in Hi.
    inversion Hall as [| ? ? Hlen0 Hrest]; subst.
    destruct (Write_dependable Background e0 w s Hq Ht Hc eq_refl Hlen0)
      as (w' & s' & h' & f' & E & S & Hc' & _ & _ & _).
    destruct (Write_tracks gzip Background e0 w s Ht) as [Hp' Ht'].
    rewrite E in Hp', Ht'. simpl in Hp', Ht'.
    cbn [take fmap list_fmap invoke_all invoke]. rewrite E.
    rewrite <- Hp'.
    apply (IH rest w' s' (steady_dependable _ _ S Hq) Ht' Hc' Hrest e Hi).
Qed.

End Dependable.



(** *** The rule of rotation *)

(** X13. For sizes and limits that 64-bit arithmetic can hold,
    [shouldRotate] is the rule of the policy: rotate when the size limit is
    on and the file with the incoming entry would be over [MaxSizeMB]
    mebibytes, or when the age limit is on and the file is [MaxAgeDays]
    days old or more.  A file exactly at the size limit is not over it; a
    file exactly at the age limit is.  The answer is monotone: once it is
    yes, it stays yes for a larger entry and a later time. *)
Theorem shouldRotate_rule s now n :
  in_int64 (size s + n) ->
  spolicy.MaxSizeMB (Policy (opt s)) * MiB <= max_int64 ->
  spolicy.MaxAgeDays (Policy (opt s)) * Day <= max_int64 ->
  (shouldRotate s now n = true <->
   (0 < spolicy.MaxSizeMB (Policy (opt s)) /\
    size s + n > spolicy.MaxSizeMB (Policy (opt s)) * MiB) \/
   (0 < spolicy.MaxAgeDays (Policy (opt s)) /\
    now - created s >= spolicy.MaxAgeDays (Policy (opt s)) * Day)) /\
  (forall now' n', n <= n' -> now <= now' -> in_int64 (size s + n') ->
     shouldRotate s now n = true -> shouldRotate s now' n' = true).
Proof.
  intros Hsz Hm Ha. split; [apply shouldRotate_in_range; assumption |].
  intros now' n' Hn Hnow Hsz' Hrot.
  apply shouldRotate_in_range in Hrot; try assumption.
  apply shouldRotate_in_range; try assumption.
  destruct Hrot as [[H1 H2] | [H1 H2]]; [left | right]; split; lia.
Qed.

(** *** An open that fails *)

Lemma os_MkdirAll_log m w :
  w_log (fst (os_MkdirAll m w)) = w_log w ++ [CallMkdirAll m].
Proof.
  unfold os_MkdirAll.
  pose proof (enter_spec SysMkdirAll (CallMkdirAll m) w) as (_ & _ & _ & L).
  destruct (enter SysMkdirAll (CallMkdirAll m) w) as [[ft |] w1]; exact L.
Qed.

Lemma os_OpenFile_log n f m w :
  w_log (fst (os_OpenFile n f m w)) = w_log w ++ [CallOpenFile n f m].
Proof.
  unfold os_OpenFile.
  pose proof (enter_spec SysOpenFile (CallOpenFile n f m) w) as (_ & _ & _ & L).
  destruct (enter SysOpenFile (CallOpenFile n f m) w) as [[ft |] w1]; simpl in *;
    [exact L |].
  destruct (w_dir w1 !! n);
    [destruct (Z.land f O_TRUNC =? 0) | destruct (Z.land f O_CREATE =? 0)]; exact L.
Qed.

Lemma file_Stat_log h w :
  w_log (fst (file_Stat h w)) = w_log w ++ [CallFstat (h_name h)].
Proof.
  unfold file_Stat.
  pose proof (enter_spec SysFstat (CallFstat (h_name h)) w) as (_ & _ & _ & L).
  destruct (enter SysFstat (CallFstat (h_name h)) w) as [[ft |] w1]; simpl in *;
    [exact L |].
  destruct (w_dir w1 !! h_name h); exact L.
Qed.

Lemma file_Close_log h w :
  w_log (fst (file_Close h w)) = w_log w ++ [CallClose (h_name h)].
Proof.
  unfold file_Close.
  pose proof (enter_spec SysClose (CallClose (h_name h)) w) as (_ & _ & _ & L).
  destruct (enter SysClose (CallClose (h_name h)) w) as [ft w1]; exact L.
Qed.

Lemma openCurrent_failed_log w s w' s' e :
  openCurrent w s = (w', s', Some e) ->
  let base := filepath_Base (path s) in
  w_log w' = w_log w ++ [CallMkdirAll 493] \/
  w_log w' = w_log w ++ [CallMkdirAll 493;
                         CallOpenFile base active_flags (FileMode (opt s))] \/
  w_log w' = w_log w ++ [CallMkdirAll 493;
                         CallOpenFile base active_flags (FileMode (opt s));
                         CallFstat base; CallClose base].
Proof.
  cbv zeta. unfold openCurrent.
  pose proof (os_MkdirAll_log 493 w) as L1.
  destruct (os_MkdirAll 493 w) as [w1 [e1 |]]; simpl in L1.
  { intros [= <- _ _]. left. exact L1. }
  pose proof (os_OpenFile_log (filepath_Base (path s)) active_flags (FileMode (opt s)) w1)
    as L2.
  pose proof (os_OpenFile_handle (filepath_Base (path s)) active_flags
                (FileMode (opt s)) w1) as Hh.
  destruct (os_OpenFile _ _ _ w1) as [w2 [f | e2]]; simpl in L2, Hh.
  2: { intros [= <- _ _]. right. left. rewrite L2, L1, <- app_assoc. reflexivity. }
  specialize (Hh f eq_refl). subst f.
  pose proof (file_Stat_log (mkHandle (filepath_Base (path s)) active_flags) w2) as L3.
  destruct (file_Stat _ w2) as [w3 [info | e3]]; simpl in L3; [discriminate |].
  intros [= <- _ _]. right. right.
  rewrite file_Close_log, L3, L2, L1, <- !app_assoc. reflexivity.
Qed.

(** What a failed [openCurrent] has done: the calls it made, and the
    directory it leaves. *)
Lemma openCurrent_failed_effect w s w' s' e :
  openCurrent w s = (w', s', Some e) ->
  let base := filepath_Base (path s) in
  (w_log w' = w_log w ++ [CallMkdirAll 493] /\ w_dir w' = w_dir w) \/
  (w_log w' = w_log w ++ [CallMkdirAll 493;
                          CallOpenFile base active_flags (FileMode (opt s))] /\
   w_dir w' = w_dir w) \/
  (w_log w' = w_log w ++ [CallMkdirAll 493;
                          CallOpenFile base active_flags (FileMode (opt s));
                          CallFstat base; CallClose base] /\
   match w_dir w !! base with
   | Some _ => w_dir w' = w_dir w
   | None =>
     w_dir w' = <[base := mkFile [] (w_clock w) (Z.ldiff (FileMode (opt s)) (w_umask w))]>
                  (w_dir w)
   end).
Proof.
  cbv zeta. unfold openCurrent.
  pose proof (os_MkdirAll_dir 493 w) as D1.
  pose proof (os_MkdirAll_log 493 w) as L1.
  assert (C1 : w_clock (fst (os_MkdirAll 493 w)) = w_clock w /\
               w_umask (fst (os_MkdirAll 493 w)) = w_umask w).
  { unfold os_MkdirAll.
    pose proof (enter_spec SysMkdirAll (CallMkdirAll 493) w) as (_ & Hk & Hu & _).
    destruct (enter SysMkdirAll (CallMkdirAll 493) w) as [[ft |] w1]; simpl in *; auto. }
  destruct (os_MkdirAll 493 w) as [w1 [e1 |]]; simpl in D1, L1, C1.
  { intros [= <- _ _]. left. auto. }
  destruct C1 as [Hk1 Hu1]. unfold os_OpenFile.
  pose proof (enter_spec SysOpenFile
                (CallOpenFile (filepath_Base (path s)) active_flags (FileMode (opt s))) w1)
    as (Hd & Hk & Hu & Hl).
  destruct (enter SysOpenFile _ w1) as [[ft |] wa]; simpl in Hd, Hk, Hu, Hl |- *.
  { intros [= <- _ _]. right. left. split; [| congruence].
    rewrite Hl, L1, <- app_assoc. reflexivity. }
  rewrite Hd, D1.
  destruct (w_dir w !! filepath_Base (path s)) as [f0 |] eqn:Ef.
  - change (Z.land active_flags O_TRUNC =? 0) with true. cbv iota.
    pose proof (file_Stat_dir (mkHandle (filepath_Base (path s)) active_flags) wa) as D3.
    pose proof (file_Stat_log (mkHandle (filepath_Base (path s)) active_flags) wa) as L3.
    destruct (file_Stat _ wa) as [w3 [info | e3]]; [discriminate |]. simpl in D3, L3.
    intros [= <- _ _]. right. right. split.
    + rewrite file_Close_log, L3, Hl, L1, <- !app_assoc. reflexivity.
    + rewrite file_Close_dir, D3, Hd. exact D1.
  - change (Z.land active_flags O_CREATE =? 0) with false. cbv iota.
    match goal with |- context [file_Stat ?h ?w2] =>
      pose proof (file_Stat_dir h w2) as D3; pose proof (file_Stat_log h w2) as L3;
      destruct (file_Stat h w2) as [w3 [info | e3]]; [discriminate |]
    end.
    simpl in D3, L3.
    intros [= <- _ _]. right. right. split.
    + rewrite file_Close_log, L3, Hl, L1, <- !app_assoc. reflexivity.
    + rewrite file_Close_dir, D3. simpl.
      rewrite ?Hd, ?D1, ?Hk, ?Hk1, ?Hu, ?Hu1. reflexivity.
Qed.

(** X14. When [NewRotatingFileSink] fails it holds no file open, and it
    has changed no file that was in the directory.  On an empty path it has
    made no call.  Otherwise its calls are [MkdirAll], then [OpenFile] on
    the active file, then the stat of the file it opened, in that order, up
    to the one that failed.  When that is [MkdirAll] or [OpenFile] the
    directory is as it was.  When it is the stat, the file it had opened is
    closed, and not removed: if the active file was not there before, it is
    there now, empty, created by the open. *)
Theorem failed_open_closes_the_file o w w1 e :
  NewRotatingFileSink o w = (w1, Err e) ->
  (Path o = EmptyString /\ e = ErrRotationNoPath /\ w1 = w) \/
  (Path o <> EmptyString /\
   let base := filepath_Base (Path o) in
   let mode := if FileMode o =? 0 then 416 else FileMode o in
   ((w_log w1 = w_log w ++ [CallMkdirAll 493] /\ w_dir w1 = w_dir w) \/
    (w_log w1 = w_log w ++ [CallMkdirAll 493; CallOpenFile base active_flags mode] /\
     w_dir w1 = w_dir w) \/
    (w_log w1 = w_log w ++ [CallMkdirAll 493; CallOpenFile base active_flags mode;
                            CallFstat base; CallClose base] /\
     match w_dir w !! base with
     | Some _ => w_dir w1 = w_dir w
     | None => w_dir w1 = <[base := mkFile [] (w_clock w) (Z.ldiff mode (w_umask w))]>
                            (w_dir w)
     end)) /\
   (forall n f, w_dir w !! n = Some f -> w_dir w1 !! n = Some f)).
Proof.
  unfold NewRotatingFileSink.
  destruct (String.eqb_spec (Path o) EmptyString) as [Hp | Hne].
  { intros [= <- <-]. left. auto. }
  intros E. right. split; [exact Hne |]. cbv zeta.
  simpl Path in E. simpl Policy in E. simpl OptName in E. simpl FileMode in E.
  match type of E with context [openCurrent w ?s0] => remember s0 as s0' eqn:Es0 end.
  assert (Hp0 : path s0' = Path o)
    by (subst s0'; destruct (FileMode o =? 0); reflexivity).
  assert (Hm0 : FileMode (opt s0') = (if FileMode o =? 0 then 416 else FileMode o))
    by (subst s0'; destruct (FileMode o =? 0); reflexivity).
  pose proof (openCurrent_dir w s0') as Hdir.
  destruct (openCurrent w s0') as [[w2 s2] [e2 |]] eqn:Eo; [| discriminate].
  injection E as <- <-. simpl in Hdir.
  pose proof (openCurrent_failed_effect _ _ _ _ _ Eo) as Heff. cbv zeta in Heff.
  rewrite Hp0, Hm0 in Heff. split; [exact Heff |].
  intros n f Hn. destruct Hdir as [Hd | [Hnone Hd]]; rewrite Hd; [exact Hn |].
  rewrite lookup_insert_ne; [exact Hn |]. intros <-. congruence.
Qed.

(** *** A rotation that fails after the rename *)

Section FailedRotation.
Variable gzip : list Byte.byte -> list Byte.byte.

Lemma os_Rename_effect a b w :
  (exists e, snd (os_Rename a b w) = Some e /\ w_dir (fst (os_Rename a b w)) = w_dir w) \/
  (snd (os_Rename a b w) = None /\
   exists f, w_dir w !! a = Some f /\
             w_dir (fst (os_Rename a b w)) = <[b := f]> (delete a (w_dir w))).
Proof.
  unfold os_Rename.
  pose proof (enter_spec SysRename (CallRename a b) w) as (Hd & _).
  destruct (enter SysRename (CallRename a b) w) as [[ft |] w1]; simpl in *.
  - left. eauto.
  - rewrite Hd. destruct (w_dir w !! a) as [f |] eqn:Ef; simpl.
    + right. split; [reflexivity |]. exists f. auto.
    + left. eauto.
Qed.

(** The close at the head of [rotateLocked]. *)
Lemma rotateLocked_head w s :
  let r := match file s with
           | Some f => (fst (file_Close f w), set_file None s)
           | None => (w, s)
           end in
  w_dir (fst r) = w_dir w /\ steady w (fst r) /\ snd r = set_file None s.
Proof.
  cbv zeta. destruct (file s) as [h |] eqn:Ef; simpl.
  - split; [apply file_Close_dir |]. split; [apply file_Close_steady | reflexivity].
  - split; [reflexivity |]. split; [apply steady_refl |].
    destruct s; simpl in *; subst; reflexivity.
Qed.

(** Whatever happens in it, a rotation touches no file other than the
    active file and the files named as its backups. *)
Lemma rotateLocked_others_kept w s n :
  ~ is_backup (path s) n -> n <> filepath_Base (path s) ->
  w_dir (fst (fst (rotateLocked gzip w s))) !! n = w_dir w !! n.
Proof.
  intros Hn Hnb. unfold rotateLocked.
  pose proof (rotateLocked_head w s) as H0. cbv zeta in H0.
  destruct (match file s with
            | Some f => (fst (file_Close f w), set_file None s)
            | None => (w, s)
            end) as [w1 s1]. simpl in H0. destruct H0 as (D0 & _ & ->).
  cbn [path opt set_file].
  assert (Hopen : forall wa,
            w_dir (fst (fst (openCurrent wa (set_file None s)))) !! n = w_dir wa !! n).
  { intros wa. destruct (openCurrent_dir wa (set_file None s)) as [Hd | [_ Hd]];
      rewrite Hd; [reflexivity |]. apply lookup_insert_ne. simpl. congruence. }
  pose proof (os_Stat_dir (filepath_Base (path s)) w1) as D1.
  destruct (os_Stat _ w1) as [w2 [info | e0]]; simpl in D1.
  2: { rewrite Hopen. congruence. }
  set (backup := rotatedFilename (path s) (time_Now w2)).
  pose proof (rotated_is_backup (path s) (time_Now w2)) as Hb. fold backup in Hb.
  pose proof (rotated_gz_is_backup (path s) (time_Now w2)) as Hbz. fold backup in Hbz.
  destruct (os_Rename_effect (filepath_Base (path s)) backup w2)
    as [(e1 & E1 & D2) | (E1 & f & Hf & D2)];
    destruct (os_Rename _ backup w2) as [w3 r3]; simpl in E1, D2; subst r3.
  - simpl. congruence.
  - assert (L3 : w_dir w3 !! backup = Some f) by (rewrite D2; apply lookup_insert_eq).
    destruct (after_rename gzip (set_file None s) backup w3 f L3 Hb Hbz) as (_ & O5 & _).
    cbn [path opt set_file] in O5.
    rewrite Hopen, O5 by exact Hn. rewrite D2.
    rewrite lookup_insert_ne by (intros <-; contradiction).
    rewrite lookup_delete_ne by congruence. congruence.
Qed.

(** A rotation in which the stat and the rename do not fail, on an active
    file that is there: the state in which the reopening starts. *)
Lemma rotateLocked_after_rename w s f :
  w_dir w !! filepath_Base (path s) = Some f ->
  quiet SysStat w = true -> quiet SysRename w = true ->
  let backup := rotatedFilename (path s) (time_Now w) in
  exists w5,
    rotateLocked gzip w s = openCurrent w5 (set_file None s) /\
    steady w w5 /\
    w_dir w5 !! filepath_Base (path s) = None /\
    (spolicy.MaxBackups (Policy (opt s)) <= 0 ->
     if spolicy.Compress (Policy (opt s))
     then w_dir w5 !! backup = Some f \/
          (w_dir w5 !! backup = None /\
           exists g, w_dir w5 !! (backup ++ ".gz")%string = Some g /\
                     f_data g = gzip (f_data f))
     else w_dir w5 !! backup = Some f).
Proof.
  intros Hl Qs Qr backup. unfold rotateLocked.
  pose proof (rotateLocked_head w s) as H0. cbv zeta in H0.
  destruct (match file s with
            | Some f => (fst (file_Close f w), set_file None s)
            | None => (w, s)
            end) as [w1 s1]. simpl in H0. destruct H0 as (D0 & S0 & ->).
  cbn [path opt set_file].
  pose proof S0 as (C0 & _ & Q0).
  rewrite (os_Stat_found _ w1 f (Q0 _ Qs)) by (rewrite D0; exact Hl).
  unfold time_Now in *. cbn [w_clock record_call]. rewrite C0. fold backup.
  rewrite (os_Rename_quiet _ backup _ f)
    by (first [rewrite quiet_record_call; exact (Q0 _ Qr) | simpl; rewrite D0; exact Hl]).
  cbn [w_dir record_call].
  set (w3 := set_dir (<[backup := f]> (delete (filepath_Base (path s)) (w_dir w1)))
               (record_call (CallRename (filepath_Base (path s)) backup)
                  (record_call (CallStat (filepath_Base (path s))) w1))).
  pose proof (rotated_is_backup (path s) (w_clock w)) as Hb. fold backup in Hb.
  pose proof (rotated_gz_is_backup (path s) (w_clock w)) as Hbz. fold backup in Hbz.
  pose proof (base_not_backup (path s)) as Hbase.
  assert (Hne : backup <> filepath_Base (path s))
    by (intros E; rewrite E in Hb; contradiction).
  assert (S3 : steady w w3).
  { eapply steady_trans; [exact S0 |]. split; [reflexivity |]. split; [reflexivity |].
    intros k Hk. unfold w3. rewrite quiet_set_dir, !quiet_record_call. exact Hk. }
  assert (L3 : w_dir w3 !! backup = Some f) by (unfold w3; simpl; apply lookup_insert_eq).
  destruct (after_rename gzip (set_file None s) backup w3 f L3 Hb Hbz) as (S5 & O5 & B5).
  cbn [path opt set_file] in S5, O5, B5.
  eexists. split; [reflexivity |].
  split; [eapply steady_trans; [exact S3 | exact S5] |]. split.
  - rewrite O5 by exact Hbase. unfold w3. simpl.
    rewrite lookup_insert_ne by exact Hne. apply lookup_delete_eq.
  - intros Hk. specialize (B5 Hk).
    destruct (spolicy.Compress (Policy (opt s))); [apply B5 |].
    rewrite B5. exact L3.
Qed.

(** C2, as the code has it.  When a [Write] needs a rotation and the
    rotation fails with [e], [Write] returns [e]; from the call to its
    return no write reaches a file; the size and the creation time in
    memory are as before the rotation, the handle is released; and no file
    is touched other than the active file and the files named as its
    backups.  When the rotation failed at the rename, the directory is as
    before.  When the active file was there and neither the stat nor the
    rename failed, so that what failed is the reopening, nothing is put
    back: the active path is free when the call that failed is [MkdirAll]
    or [OpenFile], and holds a new, empty file when it is the stat of the
    file just created, which is then closed; and with no limit on the
    backups the former file is under the backup name, or, when the policy
    compresses, either there or compressed in full under that name with
    ".gz". *)
Theorem failed_rotation_keeps_state ctx entry w s w0 s0 w' s' e :
  ctx_Err ctx = None -> closed s = false ->
  ensureOpen w s = (w0, s0, None) ->
  shouldRotate s0 (time_Now w0) (Z.of_nat (length entry)) = true ->
  rotateLocked gzip w0 s0 = (w', s', Some e) ->
  let base := filepath_Base (path s0) in
  let backup := rotatedFilename (path s0) (time_Now w0) in
  Write gzip ctx entry w s = (w', s', Some e) /\
  extends not_write w w' /\
  (size s' = size s0 /\ created s' = created s0 /\ closed s' = closed s0 /\
   path s' = path s0 /\ opt s' = opt s0 /\ file s' = None) /\
  (forall n, ~ is_backup (path s0) n -> n <> base -> w_dir w' !! n = w_dir w0 !! n) /\
  ((exists a b, last (w_log w') = Some (CallRename a b)) -> w_dir w' = w_dir w0) /\
  (forall f, w_dir w0 !! base = Some f ->
     quiet SysStat w0 = true -> quiet SysRename w0 = true ->
     ((w_dir w' !! base = None /\
       exists c, last (w_log w') = Some c /\
         (c = CallMkdirAll 493 \/ c = CallOpenFile base active_flags (FileMode (opt s0)))) \/
      (w_dir w' !! base
       = Some (mkFile [] (time_Now w0) (Z.ldiff (FileMode (opt s0)) (w_umask w0))) /\
       exists l, w_log w' = l ++ [CallFstat base; CallClose base])) /\
     (spolicy.MaxBackups (Policy (opt s0)) <= 0 ->
      if spolicy.Compress (Policy (opt s0))
      then w_dir w' !! backup = Some f \/
           (w_dir w' !! backup = None /\
            exists g, w_dir w' !! (backup ++ ".gz")%string = Some g /\
                      f_data g = gzip (f_data f))
      else w_dir w' !! backup = Some f)).
Proof.
  intros Hx Hc H0 Hrot Hfail base backup.
  split; [| split; [| split; [| split; [| split]]]].
  - rewrite (Write_steps gzip ctx entry w s Hx Hc). unfold beforeAppend.
    rewrite H0, Hrot, Hfail. reflexivity.
  - apply (extends_trans _ w w0 w').
    + revert H0. unfold ensureOpen. destruct (file s).
      * intros [= <- _]. apply extends_refl.
      * intros E.
        pose proof (openCurrent_extends not_write w s) as X. rewrite E in X.
        apply X; intros n b; discriminate.
    + pose proof (rotateLocked_no_write gzip w0 s0) as X. rewrite Hfail in X. exact X.
  - rewrite (rotateLocked_failed gzip _ _ _ _ _ Hfail). simpl. repeat split; reflexivity.
  - intros n Hn Hnb.
    pose proof (rotateLocked_others_kept w0 s0 n Hn Hnb) as X. rewrite Hfail in X. exact X.
  - eapply rotateLocked_rename_failed; eauto.
  - intros f Hl Qs Qr.
    destruct (rotateLocked_after_rename w0 s0 f Hl Qs Qr) as (w5 & E & S5 & N5 & B5).
    fold backup in B5. rewrite E in Hfail.
    pose proof (rotated_is_backup (path s0) (time_Now w0)) as Hb. fold backup in Hb.
    pose proof (rotated_gz_is_backup (path s0) (time_Now w0)) as Hbz. fold backup in Hbz.
    pose proof (base_not_backup (path s0)) as Hbase. fold base in Hbase.
    assert (Hne : backup <> base) by (intros E'; rewrite E' in Hb; contradiction).
    assert (Hnez : (backup ++ ".gz")%string <> base)
      by (intros E'; rewrite E' in Hbz; contradiction).
    pose proof S5 as (C5 & U5 & _).
    pose proof (openCurrent_failed_effect _ _ _ _ _ Hfail) as Heff. cbv zeta in Heff.
    cbn [path opt set_file] in Heff. fold base in Heff, N5. rewrite N5 in Heff.
    assert (Hdir : (w_dir w' = w_dir w5 /\
                    exists c, last (w_log w') = Some c /\
                      (c = CallMkdirAll 493 \/
                       c = CallOpenFile base active_flags (FileMode (opt s0)))) \/
                   (w_dir w' = <[base := mkFile [] (time_Now w0)
                                           (Z.ldiff (FileMode (opt s0)) (w_umask w0))]>
                                 (w_dir w5) /\
                    exists l, w_log w' = l ++ [CallFstat base; CallClose base])).
    { unfold time_Now. rewrite <- C5, <- U5.
      destruct Heff as [[Hlg Hd] | [[Hlg Hd] | [Hlg Hd]]].
      - left. split; [exact Hd |]. eexists. split; [| left; reflexivity].
        rewrite Hlg, last_app. reflexivity.
      - left. split; [exact Hd |]. eexists. split; [| right; reflexivity].
        rewrite Hlg, last_app. reflexivity.
      - right. split; [exact Hd |].
        exists (w_log w5 ++ [CallMkdirAll 493;
                             CallOpenFile base active_flags (FileMode (opt s0))]).
        rewrite Hlg, <- app_assoc. reflexivity. }
    split.
    + destruct Hdir as [[Hd Hlg] | [Hd Hlg]]; rewrite Hd.
      * left. split; [exact N5 | exact Hlg].
      * right. split; [apply lookup_insert_eq | exact Hlg].
    + intros Hk. specialize (B5 Hk).
      destruct Hdir as [[Hd _] | [Hd _]]; rewrite Hd; [exact B5 |].
      destruct (spolicy.Compress (Policy (opt s0)));
        rewrite !lookup_insert_ne by congruence; exact B5.
Qed.

End FailedRotation.

(** *** The properties above on the directories of the examples *)

Lemma calm_without_faults d t u l : calm (mkWorld d t u ∅ l).
Proof. intros k. reflexivity. Qed.

(** The rename fails: the error comes back and the directory is as it
    was.  The reopening fails: the active file has gone to its backup
    name. *)
Lemma failed_rotation_keeps_state_witness :
  (let w := aged_world {[ SysRename := [Fail (Errno 13)] ]} in
   let r := rotateLocked store_only w aged_sink in
   Write store_only Background [Byte.x58] w aged_sink
     = (fst (fst r), snd (fst r), Some (Errno 13)) /\
   size (snd (fst r)) = 3 /\
   last (w_log (fst (fst r))) = Some (CallRename "app.log" "app.log.19700103-000000") /\
   w_dir (fst (fst r)) = w_dir w) /\
  (let w := aged_world {[ SysOpenFile := [Fail (Errno 24)] ]} in
   let r := rotateLocked store_only w aged_sink in
   snd r = Some (Errno 24) /\
   w_dir (fst (fst r)) !! "app.log"%string = None /\
   w_dir (fst (fst r)) !! rotatedFilename "/var/log/app.log" (2 * Day) = Some old_file).
Proof.
  split.
  - intros w r.
    destruct (failed_rotation_keeps_state store_only Background [Byte.x58]
                w aged_sink w aged_sink (fst (fst r)) (snd (fst r)) (Errno 13))
      as (H1 & _ & (H2 & _) & _ & H3 & _).
    + reflexivity.
    + reflexivity.
    + reflexivity.
    + vm_compute. reflexivity.
    + vm_compute. reflexivity.
    + split; [exact H1 |]. split; [rewrite H2; reflexivity |].
      split; [vm_compute; reflexivity |].
      apply H3. eexists _, _. vm_compute. reflexivity.
  - intros w r.
    destruct (failed_rotation_keeps_state store_only Background [Byte.x58]
                w aged_sink w aged_sink (fst (fst r)) (snd (fst r)) (Errno 24))
      as (_ & _ & _ & _ & _ & H4).
    + reflexivity.
    + reflexivity.
    + reflexivity.
    + vm_compute. reflexivity.
    + vm_compute. reflexivity.
    + destruct (H4 old_file) as [Ha Hb]; try reflexivity.
      split; [vm_compute; reflexivity |]. split.
      * destruct Ha as [[Ha _] | [Ha _]]; [exact Ha |].
        exfalso. revert Ha. vm_compute. discriminate.
      * apply Hb. vm_compute. discriminate.
Defined.

Lemma compressFile_keeps_content_witness :
  let w' := fst (compressFile store_only "app.log.20250301-000000" crowded_world) in
  snd (compressFile store_only "app.log.20250301-000000" crowded_world) = None /\
  w_dir w' !! "app.log.20250301-000000"%string = None /\
  exists g, w_dir w' !! "app.log.20250301-000000.gz"%string = Some g /\
            f_data g = store_only [Byte.x62].
Proof.
  destruct (compressFile_keeps_content store_only "app.log.20250301-000000"
              crowded_world (mkFile [Byte.x62] 30 416) eq_refl)
    as (_ & Hnil & _ & Hcalm).
  specialize (Hcalm (calm_without_faults _ _ _ _)).
  split; [exact Hcalm |]. exact (Hnil Hcalm).
Defined.

Lemma prune_reaches_limit_witness :
  let w' := fst (pruneBackups "/var/log/app.log" 1 crowded_world) in
  Z.of_nat (file_count (backups_in "/var/log/app.log" (w_dir w')))
    = Z.min 1 (Z.of_nat (file_count (backups_in "/var/log/app.log" (w_dir crowded_world)))) /\
  w_dir (fst (pruneBackups "/var/log/app.log" 1 w')) = w_dir w' /\
  snd (pruneBackups "/var/log/app.log" 1 w') = None.
Proof.
  apply (prune_reaches_limit "/var/log/app.log" 1 crowded_world); reflexivity.
Defined.

Lemma tracks_aged : tracks (aged_world ∅) aged_sink.
Proof.
  intros h [= <-]. split; [reflexivity |]. exists old_file.
  split; [reflexivity | left; reflexivity].
Qed.

Lemma size_tracks_file_witness :
  let cs := [CallsWrite Background [Byte.x58]; CallsFlush Background;
             CallsWrite Background [Byte.x59]] in
  let w' := fst (invoke_all store_only cs (aged_world ∅) aged_sink) in
  let s' := snd (invoke_all store_only cs (aged_world ∅) aged_sink) in
  path s' = path aged_sink /\
  tracks w' s' /\
  (forall h, file s' = Some h ->
     h_name h = filepath_Base (path aged_sink) /\
     exists f, w_dir w' !! filepath_Base (path aged_sink) = Some f /\
       (in_int64 (Z.of_nat (length (f_data f))) ->
        size s' = Z.of_nat (length (f_data f)))).
Proof.
  exact (size_tracks_file store_only
           [CallsWrite Background [Byte.x58]; CallsFlush Background;
            CallsWrite Background [Byte.x59]]
           (aged_world ∅) aged_sink tracks_aged).
Defined.

Lemma writes_append_witness :
  let s := mkSink "/var/log/app.log"
             (mkOptions "/var/log/app.log" (spolicy.mkRotation 0 0 0 false) EmptyString 416)
             (Some (mkHandle "app.log" active_flags)) 3 0 false in
  let w' := fst (invoke_all store_only (CallsWrite Background <$> [entry_a; entry_b])
                   (aged_world ∅) s) in
  (exists f', w_dir w' !! "app.log"%string = Some f' /\
              f_data f' = f_data old_file ++ concat [entry_a; entry_b] /\
              f_perm f' = f_perm old_file) /\
  w_log w' = [CallWrite "app.log" entry_a; CallWrite "app.log" entry_b].
Proof.
  intros s w'.
  destruct (writes_append store_only [entry_a; entry_b] (aged_world ∅) s
              (mkHandle "app.log" active_flags) old_file)
    as (Hdata & _ & Hlog & _); try reflexivity.
  split; [exact Hdata | exact Hlog].
Defined.

(** With a limit of one backup, and in the directory a file named as a
    backup that was modified later than the active file, a rotation with no
    failure at all removes the backup it has just made: what the active
    file held is then under no name. *)
Example rotation_prunes_its_own_backup :
  let w := mkWorld {[ "app.log"%string := old_file;
                      "app.log.notes"%string := mkFile [Byte.x6e] 5 416 ]}
                   (2 * Day) 18 ∅ [] in
  let s := mkSink "/var/log/app.log"
             (mkOptions "/var/log/app.log" (spolicy.mkRotation 0 1 1 false) EmptyString 416)
             (Some (mkHandle "app.log" active_flags)) 3 0 false in
  let w' := fst (fst (Write store_only Background [Byte.x58] w s)) in
  shouldRotate s (time_Now w) 1 = true /\
  snd (Write store_only Background [Byte.x58] w s) = None /\
  In (CallRename "app.log" "app.log.19700103-000000") (w_log w') /\
  In (CallRemove "app.log.19700103-000000") (w_log w') /\
  w_dir w' = {[ "app.log"%string := mkFile [Byte.x58] (2 * Day) 416;
                "app.log.notes"%string := mkFile [Byte.x6e] 5 416 ]}.
Proof. vm_compute. repeat split; auto 20. Qed.

Lemma rotating_write_keeps_content_witness :
  let w := aged_world {[ SysClose := [Fail (Errno 5)] ]} in
  let w' := fst (fst (Write store_only Background [Byte.x58] w aged_sink)) in
  let s' := snd (fst (Write store_only Background [Byte.x58] w aged_sink)) in
  snd (Write store_only Background [Byte.x58] w aged_sink) = None /\
  (exists f', w_dir w' !! "app.log"%string = Some f' /\ f_data f' = [Byte.x58]) /\
  size s' = 1 /\
  w_dir w' !! rotatedFilename "/var/log/app.log" (2 * Day) = Some old_file.
Proof.
  intros w w' s'.
  destruct (rotating_write_keeps_content store_only Background [Byte.x58]
              w aged_sink (mkHandle "app.log" active_flags) old_file)
    as (Hnil & Hnew & _ & Hsize & _ & Hold & _).
  - repeat split; reflexivity.
  - reflexivity.
  - reflexivity.
  - reflexivity.
  - reflexivity.
  - vm_compute. reflexivity.
  - vm_compute. discriminate.
  - split; [exact Hnil |]. split; [exact Hnew |]. split; [exact Hsize |].
    apply Hold. vm_compute. discriminate.
Defined.

Lemma shouldRotate_rule_witness :
  (shouldRotate aged_sink (2 * Day) 1 = true <->
   (0 < spolicy.MaxSizeMB (Policy (opt aged_sink)) /\
    size aged_sink + 1 > spolicy.MaxSizeMB (Policy (opt aged_sink)) * MiB) \/
   (0 < spolicy.MaxAgeDays (Policy (opt aged_sink)) /\
    2 * Day - created aged_sink >= spolicy.MaxAgeDays (Policy (opt aged_sink)) * Day)) /\
  (forall now' n', 1 <= n' -> 2 * Day <= now' -> in_int64 (size aged_sink + n') ->
     shouldRotate aged_sink (2 * Day) 1 = true -> shouldRotate aged_sink now' n' = true).
Proof.
  apply (shouldRotate_rule aged_sink (2 * Day) 1).
  - vm_compute. split; discriminate.
  - vm_compute. discriminate.
  - vm_compute. discriminate.
Defined.

(** The stat of the file just created fails: the constructor returns the
    error, the file is closed, and it stays in the directory, empty. *)
Lemma failed_open_closes_the_file_witness :
  let o := app_log (spolicy.mkRotation 0 0 0 false) in
  let w := mkWorld ∅ 0 18 {[ SysFstat := [Fail (Errno 5)] ]} [] in
  snd (NewRotatingFileSink o w) = Err (Errno 5) /\
  w_log (fst (NewRotatingFileSink o w))
  = [CallMkdirAll 493; CallOpenFile "app.log" active_flags 416;
     CallFstat "app.log"; CallClose "app.log"] /\
  w_dir (fst (NewRotatingFileSink o w)) = {[ "app.log"%string := mkFile [] 0 416 ]}.
Proof.
  intros o w.
  destruct (NewRotatingFileSink o w) as [w1 [s | e]] eqn:E;
    [vm_compute in E; discriminate |].
  assert (He : e = Errno 5) by (vm_compute in E; congruence).
  subst e.
  destruct (failed_open_closes_the_file o w w1 (Errno 5) E)
    as [(Hp & _) | (_ & Heff & _)]; [discriminate Hp |].
  split; [reflexivity |].
  cbv zeta in Heff. simpl fst.
  destruct Heff as [[Hl _] | [[Hl _] | [Hl Hd]]].
  - vm_compute in E. injection E as <-. vm_compute in Hl. discriminate.
  - vm_compute in E. injection E as <-. vm_compute in Hl. discriminate.
  - split; [exact Hl |]. rewrite Hd. reflexivity.
Defined.


Lemma same_second_rotation_replaces_backup_witness :
  let s := mkSink "/var/log/app.log"
             (mkOptions "/var/log/app.log" (spolicy.mkRotation 0 106752 0 false)
                EmptyString 416)
             (Some (mkHandle "app.log" active_flags)) 3 0 false in
  let w := aged_world ∅ in
  let backup := rotatedFilename "/var/log/app.log" (2 * Day) in
  let w1 := at_time (2 * Day + 1) (fst (fst (Write store_only Background [Byte.x58] w s))) in
  let s1 := snd (fst (Write store_only Background [Byte.x58] w s)) in
  let w2 := fst (fst (Write store_only Background [Byte.x59] w1 s1)) in
  w_dir w1 !! backup = Some old_file /\
  exists b, w_dir w2 !! backup = Some b /\ f_data b = [Byte.x58].
Proof.
  intros s w backup w1 s1 w2.
  destruct (same_second_rotation_replaces_backup store_only Background
              [Byte.x58] [Byte.x59] w s (mkHandle "app.log" active_flags) old_file
              (2 * Day + 1))
    as (H1 & _ & H3 & _).
  - repeat split; reflexivity.
  - reflexivity.
  - reflexivity.
  - reflexivity.
  - reflexivity.
  - reflexivity.
  - vm_compute. discriminate.
  - vm_compute. discriminate.
  - vm_compute. discriminate.
  - vm_compute. reflexivity.
  - vm_compute. reflexivity.
  - vm_compute. reflexivity.
  - split; [exact H1 | exact H3].
Defined.

Lemma writes_succeed_when_their_calls_do_witness :
  let w := aged_world {[ SysClose := [Fail (Errno 5)] ]} in
  let wi := fst (invoke_all store_only (CallsWrite Background <$> [[Byte.x58]]) w aged_sink) in
  let si := snd (invoke_all store_only (CallsWrite Background <$> [[Byte.x58]]) w aged_sink) in
  snd (Write store_only Background [Byte.x59] wi si) = None /\
  exists f, w_dir (fst (fst (Write store_only Background [Byte.x59] wi si)))
              !! filepath_Base (path aged_sink) = Some f /\
            [Byte.x59] `suffix_of` f_data f.
Proof.
  intros w.
  assert (Hq : dependable w) by (repeat split; reflexivity).
  assert (Ht : tracks w aged_sink).
  { intros h [= <-]. split; [reflexivity |]. exists old_file.
    split; [reflexivity | left; reflexivity]. }
  assert (Hall : Forall (fun e => Z.of_nat (length e) <= max_int64)
                   [[Byte.x58]; [Byte.x59]])
    by (repeat constructor; vm_compute; discriminate).
  exact (writes_succeed_when_their_calls_do store_only [[Byte.x58]; [Byte.x59]]
           w aged_sink Hq Ht eq_refl Hall 1%nat [Byte.x59] eq_refl).
Defined.


End RotatingFileProps.

Module BatchSinkProps.
Import BatchSink BatchSinkTerms.

Section WithNextProps.
Context {I : Type} `{Sink I}.

(** *** A full queue *)

Lemma queue_send buf (s : batchSink I) : queue (send buf s) = queue s ++ [Some buf].
Proof. reflexivity. Qed.

(** A send that finds room keeps the queue within its capacity. *)
Lemma send_within_capacity buf (s : batchSink I) :
  has_room s = true -> (length (queue (send buf s)) <= capacity s)%nat.
Proof.
  unfold has_room. intros Hr. apply Nat.ltb_lt in Hr.
  rewrite queue_send, length_app. simpl. lia.
Qed.

(** C4. On a sink that is not closed and whose queue is full: in the modes
    [Drop] and [Shed], [Write] returns [ErrQueueFull] at once and the sink
    is as before; in the mode [Block], [Write] parks at its [select] with
    the sink as before, and from there, in whatever state [s'] the sink is
    by then, the only ways out are the send, open when the queue has room,
    which puts the entry last in the queue and returns nil, and the
    context's error once it has one, which returns it with the sink
    untouched; while the queue is full and the context live there is no
    way out. *)
Theorem full_queue_backpressure ctx entry (s : batchSink I) :
  closed s = false -> has_room s = false ->
  ((Backpressure (opt s) = spolicy.BackpressureDrop \/
    Backpressure (opt s) = spolicy.BackpressureShed) ->
   Write ctx entry s = (s, Returned (Some ErrQueueFull))) /\
  (Backpressure (opt s) = spolicy.BackpressureBlock ->
   Write ctx entry s = (s, Parked entry) /\
   forall ctx' (s' : batchSink I),
     (has_room s' = false -> ctx_Err ctx' = None -> select_send ctx' entry s' = []) /\
     (has_room s' = true ->
      (send entry s', None) ∈ select_send ctx' entry s' /\
      queue (send entry s') = queue s' ++ [Some entry]) /\
     (forall e, ctx_Err ctx' = Some e -> (s', Some e) ∈ select_send ctx' entry s') /\
     (forall s'' r, (s'', r) ∈ select_send ctx' entry s' ->
        (r = None /\ s'' = send entry s' /\ has_room s' = true) \/
        (exists e, r = Some e /\ ctx_Err ctx' = Some e /\ s'' = s'))).
Proof.
  intros Hc Hfull. split.
  - intros Hmode. unfold Write, try_send. rewrite Hc, Hfull.
    destruct Hmode as [-> | ->]; reflexivity.
  - intros Hmode. split.
    + unfold Write, try_send. rewrite Hc, Hfull, Hmode. reflexivity.
    + intros ctx' s'. unfold select_send. split; [| split; [| split]].
      * intros -> ->. reflexivity.
      * intros ->. split; [| reflexivity]. apply elem_of_app. left. left.
      * intros e ->. apply elem_of_app. right. left.
      * intros s'' r Hin. apply elem_of_app in Hin as [Hin | Hin].
        -- destruct (has_room s'); [| inversion Hin].
           apply list_elem_of_singleton in Hin. injection Hin as -> ->. left. auto.
        -- destruct (ctx_Err ctx') as [e |]; [| inversion Hin].
           apply list_elem_of_singleton in Hin. injection Hin as -> ->. right. eauto.
Qed.

(** *** Closed is for good *)

Lemma batch_Write_closed ctx entry (s : batchSink I) :
  closed s = true -> Write ctx entry s = (s, Returned (Some ErrBatchClosed)).
Proof. intros Hc. unfold Write. rewrite Hc. reflexivity. Qed.

Lemma batch_Flush_closed ctx (s : batchSink I) :
  closed s = true -> Flush ctx s = (s, Some ErrBatchClosed).
Proof. intros Hc. unfold Flush. rewrite Hc. reflexivity. Qed.

(** [Close] has set the flag by the time it gets to its [select], and so
    whenever it returns. *)
Lemma batch_Close_sets_closed ctx (s : batchSink I) : closed (fst (Close ctx s)) = true.
Proof. unfold Close. destruct (closed s) eqn:E; [exact E | reflexivity]. Qed.

Lemma try_send_keeps_closed buf (s : batchSink I) :
  closed (fst (try_send buf s)) = closed s.
Proof.
  unfold try_send. destruct (has_room s); [reflexivity |].
  destruct (Backpressure (opt s)); reflexivity.
Qed.

Lemma Write_keeps_closed ctx entry (s : batchSink I) :
  closed (fst (Write ctx entry s)) = closed s.
Proof.
  unfold Write. destruct (closed s) eqn:E; [exact E |].
  rewrite try_send_keeps_closed. exact E.
Qed.

Lemma run_step_keeps_closed c (s : batchSink I) k s' k' :
  run_step c s k = Some (s', k') -> closed s' = closed s.
Proof.
  unfold run_step.
  destruct (at_ k), c, (queue s) as [| e q];
    repeat match goal with
    | |- context [received ?m ?e ?n ?b] => destruct (received m e n b)
    | |- context [flush ?n ?b] => destruct (flush n b)
    | |- context [if ?b then _ else _] => destruct b
    end;
    intros [= <- <-] || discriminate; reflexivity.
Qed.

Lemma step_keeps_closed ev (y y' : system I) acc :
  step ev y = Some (y', acc) -> closed (sink y) = true -> closed (sink y') = true.
Proof.
  destruct ev as [ctx entry | entry | i | i ctx | ctx | ctx | ctx | | ctx onDone | c]; simpl.
  - pose proof (Write_keeps_closed ctx entry (sink y)) as Hk.
    destruct (Write ctx entry (sink y)) as [s [[e |] | buf]]; simpl in Hk;
      intros [= <- <-]; simpl; congruence.
  - pose proof (try_send_keeps_closed entry (sink y)) as Hk.
    destruct (try_send entry (sink y)) as [s [[e |] | buf]]; simpl in Hk;
      intros [= <- <-]; simpl; congruence.
  - destruct (parked y !! i); [| discriminate].
    destruct (has_room (sink y)); [| discriminate].
    intros [= <- <-]. auto.
  - destruct (parked y !! i), (ctx_Err ctx); try discriminate.
    intros [= <- <-]. auto.
  - intros [= <- <-] Hc. simpl. rewrite batch_Flush_closed by exact Hc. exact Hc.
  - intros [= <- <-]. auto.
  - pose proof (batch_Close_sets_closed ctx (sink y)) as Hk.
    destruct (Close ctx (sink y)) as [s r]; simpl in Hk;
      intros [= <- <-]; auto.
  - destruct (closed (sink y) && negb (stop (sink y))); [| discriminate].
    intros [= <- <-]. auto.
  - destruct (closing y); [| discriminate]. destruct onDone.
    + destruct (done (sink y)); [| discriminate]. intros [= <- <-]. auto.
    + destruct (ctx_Err ctx); [| discriminate]. intros [= <- <-]. auto.
  - destruct (run_step c (sink y) (work y)) as [[s k] |] eqn:E; [| discriminate].
    intros [= <- <-] Hc. simpl. rewrite (run_step_keeps_closed _ _ _ _ _ E). exact Hc.
Qed.

Lemma run_keeps_closed evs (y y' : system I) acc :
  run evs y = Some (y', acc) -> closed (sink y) = true -> closed (sink y') = true.
Proof.
  revert y acc. induction evs as [| ev evs IH]; intros y acc; simpl.
  - intros [= <- <-]. auto.
  - destruct (step ev y) as [[y1 acc1] |] eqn:E1; [| discriminate].
    destruct (run evs y1) as [[y2 acc2] |] eqn:E2; [| discriminate].
    intros [= <- <-] Hc. eapply IH; eauto. eapply step_keeps_closed; eauto.
Qed.

Lemma run_step_keeps_stop c (s : batchSink I) k s' k' :
  run_step c s k = Some (s', k') -> stop s' = stop s.
Proof.
  unfold run_step.
  destruct (at_ k), c, (queue s) as [| e q];
    repeat match goal with
    | |- context [received ?m ?e ?n ?b] => destruct (received m e n b)
    | |- context [flush ?n ?b] => destruct (flush n b)
    | |- context [if 0 <? ?i then _ else _] => destruct (0 <? i)
    | |- context [if stop ?s then _ else _] => destruct (stop s) eqn:?
    end;
    intros [= <- <-] || discriminate; simpl; congruence.
Qed.

Lemma step_keeps_stop ev (y y' : system I) acc :
  step ev y = Some (y', acc) -> stop (sink y) = true -> stop (sink y') = true.
Proof.
  destruct ev as [ctx entry | entry | i | i ctx | ctx | ctx | ctx | | ctx onDone | c]; simpl.
  - unfold Write, try_send.
    destruct (closed (sink y)), (has_room (sink y)), (Backpressure (opt (sink y)));
      intros [= <- <-]; auto.
  - unfold try_send.
    destruct (has_room (sink y)), (Backpressure (opt (sink y)));
      intros [= <- <-]; auto.
  - destruct (parked y !! i); [| discriminate].
    destruct (has_room (sink y)); [| discriminate].
    intros [= <- <-]. auto.
  - destruct (parked y !! i), (ctx_Err ctx); try discriminate.
    intros [= <- <-]. auto.
  - intros [= <- <-]. unfold Flush.
    destruct (closed (sink y)); [auto |].
    destruct (sink_Flush ctx (next (sink y))). auto.
  - intros [= <- <-]. auto.
  - unfold Close. destruct (closed (sink y)); intros [= <- <-]; auto.
  - destruct (closed (sink y) && negb (stop (sink y))); [| discriminate].
    intros [= <- <-]. auto.
  - destruct (closing y); [| discriminate]. destruct onDone.
    + destruct (done (sink y)); [| discriminate]. intros [= <- <-]. auto.
    + destruct (ctx_Err ctx); [| discriminate]. intros [= <- <-]. auto.
  - destruct (run_step c (sink y) (work y)) as [[s k] |] eqn:E; [| discriminate].
    intros [= <- <-] Hs. simpl. rewrite (run_step_keeps_stop _ _ _ _ _ E). exact Hs.
Qed.

(** *** Order of delivery *)

Lemma written_app cs1 cs2 : written (cs1 ++ cs2) = written cs1 ++ written cs2.
Proof. unfold written. apply omap_app. Qed.

Lemma written_other cs c :
  (forall e, c <> GotWrite e) -> written (cs ++ [c]) = written cs.
Proof.
  intros Hc. unfold written. rewrite omap_app. simpl.
  destruct c; [destruct (Hc entry eq_refl) | |]; apply app_nil_r.
Qed.

Lemma deliver_written (b : list (list Byte.byte)) (n : Traced I) :
  written (calls (deliver b n)) = written (calls n) ++ b.
Proof.
  revert n. induction b as [| e b IH]; intros n; simpl.
  - rewrite app_nil_r. reflexivity.
  - rewrite IH. simpl. destruct (sink_Write Background e (observed n)) as [s r].
    simpl. rewrite written_app. simpl. rewrite <- app_assoc. reflexivity.
Qed.

Lemma flush_written (n : Traced I) (b : list (list Byte.byte)) :
  written (calls (fst (flush n b))) ++ snd (flush n b) = written (calls n) ++ b.
Proof.
  unfold flush. destruct b as [| e b]; [reflexivity |].
  cbn [fst snd]. rewrite app_nil_r.
  cbn [sink_Flush traced_Sink].
  destruct (sink_Flush Background (observed (deliver (e :: b) n))) as [s r].
  cbn [fst calls]. rewrite written_app, deliver_written. simpl.
  rewrite app_nil_r. reflexivity.
Qed.

Lemma received_written m e (n : Traced I) (b : list (list Byte.byte)) :
  written (calls (fst (received m e n b))) ++ snd (received m e n b)
  = written (calls n) ++ b ++ omap id [e].
Proof.
  unfold received. destruct e as [x |]; simpl.
  - destruct ((0 <? m) && (Z.of_nat (length (b ++ [x])) >=? m)).
    + apply flush_written.
    + reflexivity.
  - rewrite app_nil_r. reflexivity.
Qed.

Lemma run_step_order c (s s' : batchSink (Traced I)) k k' :
  run_step c s k = Some (s', k') ->
  written (calls (next s')) ++ batch k' ++ omap id (queue s')
  = written (calls (next s)) ++ batch k ++ omap id (queue s).
Proof.
  unfold run_step.
  destruct (at_ k), c, (queue s) as [| e q] eqn:Eq; try discriminate.
  - (* Running, a receive *)
    pose proof (received_written (spolicy.MaxEntries (Batch (opt s))) e (next s) (batch k)) as R.
    destruct (received _ e (next s) (batch k)) as [n b]. intros [= <- <-]. simpl in *.
    rewrite app_assoc, R. destruct e; simpl; rewrite <- ?app_assoc; reflexivity.
  - (* Running, a tick, empty queue *)
    destruct (0 <? spolicy.Interval (Batch (opt s))); [| discriminate].
    pose proof (flush_written (next s) (batch k)) as R.
    destruct (flush (next s) (batch k)) as [n b]. intros [= <- <-]. simpl in *.
    rewrite ?Eq, app_assoc, R, <- app_assoc. reflexivity.
  - destruct (0 <? spolicy.Interval (Batch (opt s))); [| discriminate].
    pose proof (flush_written (next s) (batch k)) as R.
    destruct (flush (next s) (batch k)) as [n b]. intros [= <- <-]. simpl in *.
    rewrite ?Eq, app_assoc, R, <- app_assoc. reflexivity.
  - destruct (stop s); [| discriminate]. intros [= <- <-]. simpl. rewrite ?Eq. reflexivity.
  - destruct (stop s); [| discriminate]. intros [= <- <-]. simpl. rewrite ?Eq. reflexivity.
  - (* Draining, a receive *)
    pose proof (received_written (spolicy.MaxEntries (Batch (opt s))) e (next s) (batch k)) as R.
    destruct (received _ e (next s) (batch k)) as [n b]. intros [= <- <-]. simpl in *.
    rewrite app_assoc, R. destruct e; simpl; rewrite <- ?app_assoc; reflexivity.
  - (* Draining, the queue is empty: the last flush *)
    pose proof (flush_written (next s) (batch k)) as R.
    destruct (flush (next s) (batch k)) as [n b]. intros [= <- <-]. simpl in *.
    rewrite ?Eq, app_assoc, R, <- app_assoc. reflexivity.
  - (* the return *)
    intros [= <- <-]. simpl. rewrite ?Eq. reflexivity.
  - intros [= <- <-]. simpl. rewrite ?Eq. reflexivity.
Qed.

Lemma try_send_order entry (s : batchSink (Traced I)) :
  next (fst (try_send entry s)) = next s /\
  match snd (try_send entry s) with
  | Returned None => queue (fst (try_send entry s)) = queue s ++ [Some entry]
  | _ => queue (fst (try_send entry s)) = queue s
  end.
Proof.
  unfold try_send. destruct (has_room s); [split; reflexivity |].
  destruct (Backpressure (opt s)); split; reflexivity.
Qed.

Lemma Write_order ctx entry (s : batchSink (Traced I)) :
  next (fst (Write ctx entry s)) = next s /\
  match snd (Write ctx entry s) with
  | Returned None => queue (fst (Write ctx entry s)) = queue s ++ [Some entry]
  | _ => queue (fst (Write ctx entry s)) = queue s
  end.
Proof.
  unfold Write. destruct (closed s); [split; reflexivity |].
  apply try_send_order.
Qed.

(** Every event keeps the accepted entries in one line: those delivered,
    then those pending, and a newly accepted entry goes last. *)
Lemma step_order ev (y y' : system (Traced I)) acc :
  step ev y = Some (y', acc) ->
  delivered y' ++ pending y' = delivered y ++ pending y ++ acc.
Proof.
  unfold delivered, pending.
  destruct ev as [ctx entry | entry | i | i ctx | ctx | ctx | ctx | | ctx onDone | c]; simpl.
  - destruct (Write_order ctx entry (sink y)) as [Hn Hq].
    destruct (Write ctx entry (sink y)) as [s [[e |] | buf]]; simpl in Hn, Hq;
      intros [= <- <-]; simpl; rewrite Hn, Hq, ?omap_app, ?app_nil_r;
      simpl; rewrite <- ?app_assoc; reflexivity.
  - destruct (try_send_order entry (sink y)) as [Hn Hq].
    destruct (try_send entry (sink y)) as [s [[e |] | buf]]; simpl in Hn, Hq;
      intros [= <- <-]; simpl; rewrite Hn, Hq, ?omap_app, ?app_nil_r;
      simpl; rewrite <- ?app_assoc; reflexivity.
  - destruct (parked y !! i) as [buf |]; [| discriminate].
    destruct (has_room (sink y)); [| discriminate].
    intros [= <- <-]. simpl. rewrite omap_app. simpl.
    rewrite <- ?app_assoc. reflexivity.
  - destruct (parked y !! i), (ctx_Err ctx); try discriminate.
    intros [= <- <-]. simpl. rewrite app_nil_r. reflexivity.
  - intros [= <- <-]. simpl. rewrite app_nil_r. unfold Flush.
    destruct (closed (sink y)); [reflexivity |]. cbn [sink_Flush traced_Sink].
    destruct (sink_Flush ctx (observed (next (sink y)))) as [s r]. simpl.
    rewrite written_app. simpl. rewrite app_nil_r. reflexivity.
  - intros [= <- <-]. simpl. rewrite app_nil_r.
    destruct (sink_Flush ctx (observed (next (sink y)))) as [s r]. simpl.
    rewrite written_app. simpl. rewrite app_nil_r. reflexivity.
  - unfold Close. destruct (closed (sink y));
      intros [= <- <-]; simpl; rewrite app_nil_r; reflexivity.
  - destruct (closed (sink y) && negb (stop (sink y))); [| discriminate].
    intros [= <- <-]. simpl. rewrite app_nil_r. reflexivity.
  - destruct (closing y); [| discriminate]. destruct onDone.
    + destruct (done (sink y)); [| discriminate]. intros [= <- <-]. simpl.
      destruct (sink_Close ctx (observed (next (sink y)))) as [s r]. simpl.
      rewrite written_app. simpl. rewrite !app_nil_r. reflexivity.
    + destruct (ctx_Err ctx); [| discriminate]. intros [= <- <-]. simpl.
      rewrite app_nil_r. reflexivity.
  - destruct (run_step c (sink y) (work y)) as [[s k] |] eqn:E; [| discriminate].
    intros [= <- <-]. simpl. rewrite app_nil_r. apply (run_step_order _ _ _ _ _ E).
Qed.

Lemma run_order evs (y y' : system (Traced I)) acc :
  run evs y = Some (y', acc) ->
  delivered y' ++ pending y' = delivered y ++ pending y ++ acc.
Proof.
  revert y acc. induction evs as [| ev evs IH]; intros y acc; simpl.
  - intros [= <- <-]. rewrite app_nil_r. reflexivity.
  - destruct (step ev y) as [[y1 acc1] |] eqn:E1; [| discriminate].
    destruct (run evs y1) as [[y2 acc2] |] eqn:E2; [| discriminate].
    intros [= <- <-]. rewrite (IH _ _ E2), app_assoc, (step_order _ _ _ _ E1).
    rewrite <- !app_assoc. reflexivity.
Qed.

Lemma step_settled ev (y y' : system (Traced I)) acc :
  step ev y = Some (y', acc) -> settled y -> settled y'.
Proof.
  unfold settled.
  destruct ev as [ctx entry | entry | i | i ctx | ctx | ctx | ctx | | ctx onDone | c]; simpl.
  - destruct (Write ctx entry (sink y)) as [s [[e |] | buf]];
      intros [= <- <-]; auto.
  - destruct (try_send entry (sink y)) as [s [[e |] | buf]];
      intros [= <- <-]; auto.
  - destruct (parked y !! i); [| discriminate].
    destruct (has_room (sink y)); [| discriminate]. intros [= <- <-]. auto.
  - destruct (parked y !! i), (ctx_Err ctx); try discriminate.
    intros [= <- <-]. auto.
  - intros [= <- <-]. auto.
  - intros [= <- <-]. auto.
  - destruct (Close ctx (sink y)) as [s r]; intros [= <- <-]; auto.
  - destruct (closed (sink y) && negb (stop (sink y))); [| discriminate].
    intros [= <- <-]. auto.
  - destruct (closing y); [| discriminate]. destruct onDone.
    + destruct (done (sink y)); [| discriminate]. intros [= <- <-]. auto.
    + destruct (ctx_Err ctx); [| discriminate]. intros [= <- <-]. auto.
  - unfold run_step.
    destruct (at_ (work y)) eqn:Eat, c, (queue (sink y)) as [| e q]; try discriminate;
      repeat match goal with
      | |- context [received ?m ?e ?n ?b] => destruct (received m e n b)
      | |- context [if ?b then _ else _] => destruct b
      end; try discriminate;
      try (intros [= <- <-]; simpl; intros Hs [Hx | Hx]; discriminate);
      try (intros [= <- <-]; simpl; intros Hs _; apply Hs; auto).
    all: unfold flush; destruct (batch (work y));
      intros [= <- <-]; simpl; intros Hs [Hx | Hx]; (discriminate || reflexivity).
Qed.

Lemma run_settled evs (y y' : system (Traced I)) acc :
  run evs y = Some (y', acc) -> settled y -> settled y'.
Proof.
  revert y acc. induction evs as [| ev evs IH]; intros y acc; simpl.
  - intros [= <- <-]. auto.
  - destruct (step ev y) as [[y1 acc1] |] eqn:E1; [| discriminate].
    destruct (run evs y1) as [[y2 acc2] |] eqn:E2; [| discriminate].
    intros [= <- <-] Hs. eapply IH; eauto. eapply step_settled; eauto.
Qed.

Lemma run_cons {J : Type} `{Sink J} ev evs (y : system J) :
  run (ev :: evs) y =
  match step ev y with
  | Some (y1, acc1) =>
    match run evs y1 with
    | Some (y2, acc2) => Some (y2, acc1 ++ acc2)
    | None => None
    end
  | None => None
  end.
Proof. reflexivity. Qed.


(** *** What holds from the start *)

Lemma flush_empties (n : I) b : snd (flush n b) = [].
Proof. unfold flush. destruct b; reflexivity. Qed.

Lemma received_below m e (n : I) b :
  (0 < m -> Z.of_nat (length b) < m) ->
  0 < m -> Z.of_nat (length (snd (received m e n b))) < m.
Proof.
  intros Hb Hm. unfold received. destruct e as [x |]; [| auto].
  destruct (Z.ltb_spec 0 m) as [_ |]; [| lia]. simpl.
  destruct (Z.geb_spec (Z.of_nat (length (b ++ [x]))) m) as [Hge | Hlt].
  - rewrite flush_empties. simpl. lia.
  - simpl. lia.
Qed.

Lemma boot_coherent (n : I) o : coherent (opt (WithBatch n o)) (boot n o).
Proof.
  unfold coherent. simpl. repeat split; auto; try lia; try discriminate.
Qed.

Lemma try_send_coherent o buf (y : system I) s p :
  try_send buf (sink y) = (s, p) -> coherent o y ->
  coherent o (mkSystem s (work y) (parked y) (closing y)) /\
  (forall b, p = Parked b ->
     Backpressure o <> spolicy.BackpressureDrop /\
     Backpressure o <> spolicy.BackpressureShed).
Proof.
  unfold try_send, coherent, has_room, capacity.
  intros E (Ho & Hlen & Hsome & Hbatch & Hpark & Hstop & Hclosing & Hat).
  destruct (Nat.ltb_spec (length (queue (sink y))) (Z.to_nat (QueueSize (opt (sink y)))))
    as [Hroom | Hfull].
  - injection E as <- <-. simpl. split; [| discriminate].
    rewrite length_app. simpl.
    repeat split; auto; try lia.
    apply Forall_app. split; [exact Hsome |]. constructor; [discriminate | constructor].
  - rewrite Ho in E.
    destruct (Backpressure o) eqn:Em; injection E as <- <-; simpl;
      (split; [repeat split; auto |]); intros b; discriminate || (intros _; split; discriminate).
Qed.

Lemma run_step_coherent o c (y : system I) s k :
  run_step c (sink y) (work y) = Some (s, k) -> coherent o y ->
  coherent o (mkSystem s k (parked y) (closing y)).
Proof.
  unfold run_step, coherent, capacity.
  intros E (Ho & Hlen & Hsome & Hbatch & Hpark & Hstop & Hclosing & Hat).
  destruct (at_ (work y)) eqn:Eat, c, (queue (sink y)) as [| e q] eqn:Eq;
    try discriminate.
  - (* Running, a receive *)
    pose proof (received_below (spolicy.MaxEntries (Batch (opt (sink y)))) e
                  (next (sink y)) (batch (work y))) as Hr.
    destruct (received _ e (next (sink y)) (batch (work y))) as [n b].
    injection E as <- <-. simpl in *. rewrite Ho in Hr. inversion Hsome; subst.
    repeat split; auto; try lia.
  - destruct (0 <? spolicy.Interval (Batch (opt (sink y)))); [| discriminate].
    pose proof (flush_empties (next (sink y)) (batch (work y))) as Hf.
    destruct (flush (next (sink y)) (batch (work y))) as [n b].
    injection E as <- <-. simpl in *. subst b. rewrite ?Eq.
    repeat split; auto; simpl; lia.
  - destruct (0 <? spolicy.Interval (Batch (opt (sink y)))); [| discriminate].
    pose proof (flush_empties (next (sink y)) (batch (work y))) as Hf.
    destruct (flush (next (sink y)) (batch (work y))) as [n b].
    injection E as <- <-. simpl in *. subst b. rewrite ?Eq.
    repeat split; auto; simpl; lia.
  - destruct (stop (sink y)) eqn:Es; [| discriminate].
    injection E as <- <-. simpl. rewrite ?Eq, ?Es. repeat split; auto.
  - destruct (stop (sink y)) eqn:Es; [| discriminate].
    injection E as <- <-. simpl. rewrite ?Eq, ?Es. repeat split; auto.
  - (* Draining, a receive *)
    pose proof (received_below (spolicy.MaxEntries (Batch (opt (sink y)))) e
                  (next (sink y)) (batch (work y))) as Hr.
    destruct (received _ e (next (sink y)) (batch (work y))) as [n b].
    injection E as <- <-. simpl in *. rewrite Ho in Hr. inversion Hsome; subst.
    destruct Hat as [Hs Hd]. repeat split; auto; try lia.
  - (* Draining, the last flush *)
    pose proof (flush_empties (next (sink y)) (batch (work y))) as Hf.
    destruct (flush (next (sink y)) (batch (work y))) as [n b].
    injection E as <- <-. simpl in *. subst b. rewrite ?Eq.
    destruct Hat as [Hs Hd]. repeat split; auto; simpl; lia.
  - (* the return *)
    injection E as <- <-. simpl in *. rewrite ?Eq.
    destruct Hat as [Hs Hd]. repeat split; auto.
  - injection E as <- <-. simpl in *. rewrite ?Eq.
    destruct Hat as [Hs Hd]. repeat split; auto.
Qed.

Lemma step_coherent o ev (y y' : system I) acc :
  step ev y = Some (y', acc) -> coherent o y -> coherent o y'.
Proof.
  destruct ev as [ctx entry | entry | i | i ctx | ctx | ctx | ctx | | ctx onDone | c]; simpl.
  - unfold Write. destruct (closed (sink y)) eqn:Ec.
    + intros [= <- <-]. unfold coherent. simpl. exact (fun H => H).
    + destruct (try_send entry (sink y)) as [s p] eqn:E. intros Hstep Hco.
      destruct (try_send_coherent o entry y s p E Hco) as [Hco' Hmode].
      destruct p as [[e |] | buf]; injection Hstep as <- <-; try exact Hco'.
      destruct (Hmode buf eq_refl) as [Hnd Hns].
      unfold coherent in *. simpl in *.
      destruct Hco' as (Ho & Hlen & Hsome & Hbatch & Hpark & Hrest).
      repeat split; auto; try apply Hrest. intros [|]; contradiction.
  - destruct (try_send entry (sink y)) as [s p] eqn:E. intros Hstep Hco.
    destruct (try_send_coherent o entry y s p E Hco) as [Hco' Hmode].
    destruct p as [[e |] | buf]; injection Hstep as <- <-; try exact Hco'.
    destruct (Hmode buf eq_refl) as [Hnd Hns].
    unfold coherent in *. simpl in *.
    destruct Hco' as (Ho & Hlen & Hsome & Hbatch & Hpark & Hrest).
    repeat split; auto; try apply Hrest. intros [|]; contradiction.
  - destruct (parked y !! i) as [buf |] eqn:Ei; [| discriminate].
    unfold has_room, capacity, coherent.
    destruct (Nat.ltb_spec (length (queue (sink y))) (Z.to_nat (QueueSize (opt (sink y)))))
      as [Hroom | Hfull]; [| discriminate].
    intros [= <- <-] (Ho & Hlen & Hsome & Hbatch & Hpark & Hstop & Hclosing & Hat).
    simpl. rewrite length_app. simpl. unfold capacity. simpl.
    repeat split; auto; try lia.
    + apply Forall_app. split; [exact Hsome |]. constructor; [discriminate | constructor].
    + intros Hm. rewrite (Hpark Hm) in Ei. discriminate.
  - destruct (parked y !! i) as [buf |] eqn:Ei; [| discriminate].
    destruct (ctx_Err ctx); [| discriminate].
    unfold coherent.
    intros [= <- <-] (Ho & Hlen & Hsome & Hbatch & Hpark & Hstop & Hclosing & Hat).
    simpl. repeat split; auto.
    intros Hm. rewrite (Hpark Hm) in Ei. discriminate.
  - intros [= <- <-]. unfold Flush.
    destruct (closed (sink y)); [unfold coherent; simpl; exact (fun H => H) |].
    destruct (sink_Flush ctx (next (sink y))) as [n r].
    unfold coherent. simpl. exact (fun H => H).
  - intros [= <- <-]. unfold coherent. simpl. exact (fun H => H).
  - unfold Close. destruct (closed (sink y)) eqn:Ec; intros [= <- <-];
      unfold coherent; simpl.
    + exact (fun H => H).
    + intros (Ho & Hlen & Hsome & Hbatch & Hpark & Hstop & Hclosing & Hat).
      repeat split; auto; destruct (at_ (work y)); apply Hat.
  - destruct (closed (sink y)) eqn:Ec, (stop (sink y)) eqn:Es; try discriminate.
    intros [= <- <-]. unfold coherent. simpl. rewrite Ec, Es.
    intros (Ho & Hlen & Hsome & Hbatch & Hpark & Hstop & Hclosing & Hat).
    repeat split; auto.
    destruct (at_ (work y)); [exact Hat | | |]; destruct Hat; split; auto.
  - destruct (closing y) eqn:Ecl; [| discriminate]. destruct onDone.
    + destruct (done (sink y)) eqn:Ed; [| discriminate].
      intros [= <- <-]. unfold coherent. simpl.
      intros (Ho & Hlen & Hsome & Hbatch & Hpark & Hstop & Hclosing & Hat).
      unfold capacity in *. simpl. repeat split; auto.
    + destruct (ctx_Err ctx); [| discriminate].
      intros [= <- <-]. unfold coherent. simpl.
      intros (Ho & Hlen & Hsome & Hbatch & Hpark & Hstop & Hclosing & Hat).
      repeat split; auto.
  - destruct (run_step c (sink y) (work y)) as [[s k] |] eqn:E; [| discriminate].
    intros [= <- <-]. apply (run_step_coherent o c y s k E).
Qed.

Lemma run_coherent o evs (y y' : system I) acc :
  run evs y = Some (y', acc) -> coherent o y -> coherent o y'.
Proof.
  revert y acc. induction evs as [| ev evs IH]; intros y acc; simpl.
  - intros [= <- <-]. auto.
  - destruct (step ev y) as [[y1 acc1] |] eqn:E1; [| discriminate].
    destruct (run evs y1) as [[y2 acc2] |] eqn:E2; [| discriminate].
    intros [= <- <-] Hc. eapply IH; eauto. eapply step_coherent; eauto.
Qed.


(** A write that finds room, then the receive of the worker, as many
    times as asked: with no limit on the count, the batch grows by one
    entry each time. *)
Lemma batch_grows (N : nat) (y : system I) :
  closed (sink y) = false -> queue (sink y) = [] -> at_ (work y) = Running ->
  (1 <= capacity (sink y))%nat ->
  spolicy.MaxEntries (Batch (opt (sink y))) <= 0 ->
  exists y' acc',
    run (concat (repeat [DoWrite Background []; Worker OnQueue] N)) y = Some (y', acc') /\
    length (batch (work y')) = (length (batch (work y)) + N)%nat.
Proof.
  revert y. induction N as [| N IH]; intros y Hc Hq Hat Hcap Hm.
  - exists y, []. split; [reflexivity | simpl; lia].
  - cbn [repeat concat app]. rewrite run_cons. cbn [step]. unfold Write, try_send, has_room.
    rewrite Hc, Hq. simpl length.
    destruct (Nat.ltb_spec 0 (capacity (sink y))) as [_ |]; [| lia].
    cbv iota. rewrite run_cons. cbn [step sink work]. unfold run_step.
    cbn [queue send set_queue opt next]. rewrite Hat, Hq. cbn [app].
    unfold received.
    destruct (Z.ltb_spec 0 (spolicy.MaxEntries (Batch (opt (sink y))))) as [| _]; [lia |].
    cbn [andb].
    match goal with |- context [run _ ?y1] =>
      destruct (IH y1) as (y' & acc' & E & Hlen); try assumption; try reflexivity
    end.
    exists y', ([] :: acc'). rewrite E. split; [reflexivity |].
    rewrite Hlen. cbn [work batch]. rewrite length_app. simpl. lia.
Qed.

(** X15. What the code bounds and what it does not.  The capacity of the
    queue is [QueueSize], or 1024 when that is not positive; whatever the
    schedule, the queue never holds more entries than that, and never a nil
    one.  With a positive [MaxEntries] the batch of the worker stays below
    it, since reaching it flushes.  With [MaxEntries] zero or less nothing
    bounds the batch: for every number there is a schedule after which the
    worker holds that many entries.  The callers parked in [Write] are no
    part of either bound. *)
Theorem queue_bounded_batch_by_count (n : I) (o : BatchOptions) evs (y : system I) acc :
  run evs (boot n o) = Some (y, acc) ->
  QueueSize (opt (sink y)) = (if QueueSize o <=? 0 then 1024 else QueueSize o) /\
  (1 <= capacity (sink y))%nat /\
  (length (queue (sink y)) <= capacity (sink y))%nat /\
  Forall (fun e => e <> None) (queue (sink y)) /\
  (0 < spolicy.MaxEntries (Batch o) ->
   Z.of_nat (length (batch (work y))) < spolicy.MaxEntries (Batch o)) /\
  (spolicy.MaxEntries (Batch o) <= 0 ->
   forall N : nat, exists evs' y' acc',
     run evs' (boot n o) = Some (y', acc') /\ length (batch (work y')) = N).
Proof.
  intros Hrun.
  pose proof (run_coherent _ _ _ _ _ Hrun (boot_coherent n o))
    as (Ho & Hlen & Hsome & Hbatch & _).
  assert (Hq : QueueSize (opt (WithBatch n o))
               = (if QueueSize o <=? 0 then 1024 else QueueSize o)).
  { unfold WithBatch. destruct (QueueSize o <=? 0); simpl;
      destruct (Backpressure o); reflexivity. }
  assert (Hb : Batch (opt (WithBatch n o)) = Batch o).
  { unfold WithBatch. destruct (QueueSize o <=? 0); simpl;
      destruct (Backpressure o); reflexivity. }
  assert (Hcap : (1 <= Z.to_nat (if (QueueSize o <=? 0)%Z then 1024%Z else QueueSize o))%nat)
    by (destruct (Z.leb_spec (QueueSize o) 0); lia).
  rewrite Hb in Hbatch. unfold capacity in *. rewrite Ho, Hq in *.
  split; [reflexivity |]. split; [exact Hcap |].
  split; [exact Hlen |]. split; [exact Hsome |]. split; [exact Hbatch |].
  intros Hm N.
  destruct (batch_grows N (boot n o)) as (y' & acc' & E & HN); try reflexivity.
  - unfold capacity. cbn [boot sink]. rewrite Hq. exact Hcap.
  - cbn [boot sink]. rewrite Hb. exact Hm.
  - eexists _, y', acc'. split; [exact E |]. rewrite HN. reflexivity.
Qed.

(** X16. [WithBatch] turns a backpressure mode it does not know into
    [Block], and leaves the three it knows.  In the modes [Drop] and
    [Shed] no [Write] ever waits: whatever the schedule, no caller is
    parked at the blocking [select]. *)
Theorem dropping_modes_never_block (n : I) (o : BatchOptions) evs (y : system I) acc :
  run evs (boot n o) = Some (y, acc) ->
  Backpressure (opt (sink y))
    = match Backpressure o with
      | spolicy.BackpressureOther _ => spolicy.BackpressureBlock
      | m => m
      end /\
  (Backpressure o = spolicy.BackpressureDrop \/ Backpressure o = spolicy.BackpressureShed ->
   parked y = []).
Proof.
  intros Hrun.
  pose proof (run_coherent _ _ _ _ _ Hrun (boot_coherent n o))
    as (Ho & _ & _ & _ & Hpark & _).
  assert (Hm : Backpressure (opt (WithBatch n o))
               = match Backpressure o with
                 | spolicy.BackpressureOther _ => spolicy.BackpressureBlock
                 | m => m
                 end).
  { unfold WithBatch. destruct (QueueSize o <=? 0); simpl;
      destruct (Backpressure o) eqn:E; simpl; auto. }
  rewrite Ho. split; [exact Hm |].
  intros Hmode. apply Hpark. rewrite Hm. destruct Hmode as [-> | ->]; auto.
Qed.

(** X17. The order of the flag and the channels, whatever the schedule.
    [stop] is closed only after the flag is set, by the [Close] that set
    it; the worker leaves its outer loop only after [stop] is closed, hence
    only after a [Close]; [done] is closed exactly when the worker has
    returned; and a [Close] waits at its [select] only after it has closed
    [stop].  The flag and [stop] are not one: after the swap of a [Close]
    and before its [close(s.stop)] the flag is set and [stop] is open. *)
Theorem worker_returns_only_after_close (n : I) (o : BatchOptions) evs
    (y : system I) acc :
  run evs (boot n o) = Some (y, acc) ->
  (stop (sink y) = true -> closed (sink y) = true) /\
  (done (sink y) = true <-> at_ (work y) = Exited) /\
  (at_ (work y) <> Running -> stop (sink y) = true /\ closed (sink y) = true) /\
  (closing y = true -> stop (sink y) = true /\ closed (sink y) = true) /\
  (exists ctx y1 acc1,
     run [DoClose ctx] (boot n o) = Some (y1, acc1) /\
     closed (sink y1) = true /\ stop (sink y1) = false /\
     at_ (work y1) = Running /\ step (Worker OnStop) y1 = None).
Proof.
  intros Hrun.
  pose proof (run_coherent _ _ _ _ _ Hrun (boot_coherent n o))
    as (_ & _ & _ & _ & _ & Hstop & Hclosing & Hat).
  split; [exact Hstop |].
  split; [| split; [| split;
    [| exists Background; eexists _, _; split; [reflexivity |]; repeat split]]].
  - destruct (at_ (work y)).
    + split; intros E; [congruence | discriminate].
    + destruct Hat as [_ Hd]. split; intros E; [congruence | discriminate].
    + destruct Hat as [_ Hd]. split; intros E; [congruence | discriminate].
    + destruct Hat as [_ Hd]. split; intros E; [reflexivity | exact Hd].
  - intros Hne.
    assert (Hs : stop (sink y) = true)
      by (destruct (at_ (work y)); [contradiction | | |]; apply Hat).
    auto.
  - intros Hcl. auto.
Qed.


End WithNextProps.

Section TracedProps.
Context {I : Type} `{Sink I}.

(** *** Closing the inner sink *)

Lemma closed_last_no_close cs : GotClose ∉ cs -> closed_last cs.
Proof.
  induction cs as [| c cs IH]; intros Hn; simpl; [exact Logic.I |].
  destruct c.
  - apply IH. intros Hc. apply Hn. right. exact Hc.
  - apply IH. intros Hc. apply Hn. right. exact Hc.
  - exfalso. apply Hn. left.
Qed.

Lemma closed_last_flush cs : closed_last cs -> closed_last (cs ++ [GotFlush]).
Proof.
  induction cs as [| c cs IH]; intros Hc; simpl; [exact Logic.I |].
  destruct c; simpl in *; auto.
  apply Forall_app. split; [exact Hc |]. constructor; [reflexivity | constructor].
Qed.

Lemma closed_last_close cs : GotClose ∉ cs -> closed_last (cs ++ [GotClose]).
Proof.
  induction cs as [| c cs IH]; intros Hn; simpl; [constructor |].
  destruct c.
  - apply IH. intros Hc. apply Hn. right. exact Hc.
  - apply IH. intros Hc. apply Hn. right. exact Hc.
  - exfalso. apply Hn. left.
Qed.

Lemma closed_last_split l1 l2 :
  closed_last (l1 ++ GotClose :: l2) ->
  (GotClose ∉ l1) /\ Forall (fun c => c = GotFlush) l2.
Proof.
  induction l1 as [| c l1 IH]; simpl.
  - intros Hc. split; [apply not_elem_of_nil | exact Hc].
  - destruct c.
    + intros Hc. destruct (IH Hc) as [Hn Hf]. split; [| exact Hf].
      apply not_elem_of_cons. split; [discriminate | exact Hn].
    + intros Hc. destruct (IH Hc) as [Hn Hf]. split; [| exact Hf].
      apply not_elem_of_cons. split; [discriminate | exact Hn].
    + intros Hc. apply Forall_app in Hc as [_ Hc]. inversion Hc; discriminate.
Qed.

(** The worker calls [Write] and [Flush] on the inner sink, never [Close]. *)
Lemma deliver_calls (b : list (list Byte.byte)) (n : Traced I) :
  exists l, calls (deliver b n) = calls n ++ l /\ (GotClose ∉ l).
Proof.
  revert n. induction b as [| e b IH]; intros n; simpl.
  - exists []. rewrite app_nil_r. split; [reflexivity | apply not_elem_of_nil].
  - destruct (IH (fst (sink_Write Background e n))) as (l & El & Hl).
    exists (GotWrite e :: l).
    split; [| apply not_elem_of_cons; split; [discriminate | exact Hl]].
    transitivity (calls (fst (sink_Write Background e n)) ++ l); [exact El |].
    cbn [sink_Write traced_Sink].
    destruct (sink_Write Background e (observed n)) as [s r]. cbn [fst calls].
    rewrite <- app_assoc. reflexivity.
Qed.

Lemma flush_calls (n : Traced I) (b : list (list Byte.byte)) :
  exists l, calls (fst (flush n b)) = calls n ++ l /\ (GotClose ∉ l).
Proof.
  unfold flush. destruct b as [| e b].
  - exists []. rewrite app_nil_r. split; [reflexivity | apply not_elem_of_nil].
  - destruct (deliver_calls (e :: b) n) as (l & El & Hl).
    exists (l ++ [GotFlush]). cbn [fst sink_Flush traced_Sink].
    destruct (sink_Flush Background (observed (deliver (e :: b) n))) as [s r].
    cbn [fst calls]. rewrite El, <- app_assoc. split; [reflexivity |].
    intros Hc. apply elem_of_app in Hc as [Hc | Hc]; [contradiction |].
    apply list_elem_of_singleton in Hc. discriminate.
Qed.

Lemma received_calls m e (n : Traced I) (b : list (list Byte.byte)) :
  exists l, calls (fst (received m e n b)) = calls n ++ l /\ (GotClose ∉ l).
Proof.
  unfold received. destruct e as [x |].
  - destruct ((0 <? m) && (Z.of_nat (length (b ++ [x])) >=? m)).
    + apply flush_calls.
    + exists []. rewrite app_nil_r. split; [reflexivity | apply not_elem_of_nil].
  - exists []. rewrite app_nil_r. split; [reflexivity | apply not_elem_of_nil].
Qed.

Lemma run_step_calls c (s s' : batchSink (Traced I)) k k' :
  run_step c s k = Some (s', k') ->
  at_ k <> Exited /\
  exists l, calls (next s') = calls (next s) ++ l /\ (GotClose ∉ l).
Proof.
  intros E.
  assert (Hat : at_ k <> Exited).
  { intros Hx. unfold run_step in E. rewrite Hx in E.
    destruct c, (queue s); discriminate. }
  split; [exact Hat |]. revert E. unfold run_step.
  assert (Hnil : exists l, calls (next s) = calls (next s) ++ l /\ (GotClose ∉ l)).
  { exists []. rewrite app_nil_r. split; [reflexivity | apply not_elem_of_nil]. }
  destruct (at_ k), c, (queue s) as [| e q]; try discriminate.
  - pose proof (received_calls (spolicy.MaxEntries (Batch (opt s))) e (next s) (batch k)) as R.
    destruct (received _ e (next s) (batch k)) as [n b]. intros [= <- <-]. exact R.
  - destruct (0 <? spolicy.Interval (Batch (opt s))); [| discriminate].
    pose proof (flush_calls (next s) (batch k)) as R.
    destruct (flush (next s) (batch k)) as [n b]. intros [= <- <-]. exact R.
  - destruct (0 <? spolicy.Interval (Batch (opt s))); [| discriminate].
    pose proof (flush_calls (next s) (batch k)) as R.
    destruct (flush (next s) (batch k)) as [n b]. intros [= <- <-]. exact R.
  - destruct (stop s); [| discriminate]. intros [= <- <-]. exact Hnil.
  - destruct (stop s); [| discriminate]. intros [= <- <-]. exact Hnil.
  - pose proof (received_calls (spolicy.MaxEntries (Batch (opt s))) e (next s) (batch k)) as R.
    destruct (received _ e (next s) (batch k)) as [n b]. intros [= <- <-]. exact R.
  - pose proof (flush_calls (next s) (batch k)) as R.
    destruct (flush (next s) (batch k)) as [n b]. intros [= <- <-]. exact R.
  - intros [= <- <-]. exact Hnil.
  - intros [= <- <-]. exact Hnil.
Qed.

(** Every event keeps the trace of the inner sink in order: [Close] at most
    once, after the worker has returned, and only [Flush] after it. *)
Lemma step_closed_last o ev (y y' : system (Traced I)) acc :
  step ev y = Some (y', acc) -> coherent o y ->
  closed_last (calls (next (sink y))) /\
  (GotClose ∈ calls (next (sink y)) ->
   at_ (work y) = Exited /\ closing y = false /\ closed (sink y) = true) ->
  closed_last (calls (next (sink y'))) /\
  (GotClose ∈ calls (next (sink y')) ->
   at_ (work y') = Exited /\ closing y' = false /\ closed (sink y') = true).
Proof.
  intros Hstep Hco [Hlast Hin].
  destruct ev as [ctx entry | entry | i | i ctx | ctx | ctx | ctx | | ctx onDone | c];
    simpl in Hstep.
  - destruct (Write_order ctx entry (sink y)) as [Hn _].
    pose proof (Write_keeps_closed ctx entry (sink y)) as Hk.
    destruct (Write ctx entry (sink y)) as [s [[e |] | buf]]; simpl in Hn, Hk;
      injection Hstep as <- <-; simpl; rewrite Hn, Hk; auto.
  - destruct (try_send_order entry (sink y)) as [Hn _].
    pose proof (try_send_keeps_closed entry (sink y)) as Hk.
    destruct (try_send entry (sink y)) as [s [[e |] | buf]]; simpl in Hn, Hk;
      injection Hstep as <- <-; simpl; rewrite Hn, Hk; auto.
  - destruct (parked y !! i); [| discriminate].
    destruct (has_room (sink y)); [| discriminate].
    injection Hstep as <- <-. simpl. auto.
  - destruct (parked y !! i), (ctx_Err ctx); try discriminate.
    injection Hstep as <- <-. simpl. auto.
  - injection Hstep as <- <-. simpl. unfold Flush.
    assert (Ec : closed (sink y) = true \/ closed (sink y) = false)
      by (destruct (closed (sink y)); auto).
    destruct Ec as [Ec | Ec]; rewrite Ec; simpl; [auto |].
    destruct (sink_Flush ctx (observed (next (sink y)))) as [s r]. simpl.
    split; [apply closed_last_flush, Hlast |].
    intros Hc. apply elem_of_app in Hc as [Hc | Hc]; [auto |].
    apply list_elem_of_singleton in Hc. discriminate.
  - injection Hstep as <- <-. simpl.
    destruct (sink_Flush ctx (observed (next (sink y)))) as [s r]. simpl.
    split; [apply closed_last_flush, Hlast |].
    intros Hc. apply elem_of_app in Hc as [Hc | Hc]; [auto |].
    apply list_elem_of_singleton in Hc. discriminate.
  - unfold Close in Hstep.
    assert (Ec : closed (sink y) = true \/ closed (sink y) = false)
      by (destruct (closed (sink y)); auto).
    destruct Ec as [Ec | Ec]; rewrite Ec in Hstep;
      injection Hstep as <- <-; simpl; [auto |].
    split; [exact Hlast |]. intros Hc. destruct (Hin Hc) as (_ & _ & Hcl). congruence.
  - destruct (closed (sink y)) eqn:Ec, (stop (sink y)) eqn:Es; try discriminate.
    injection Hstep as <- <-. simpl. split; [exact Hlast |].
    intros Hc. destruct (Hin Hc) as (Hex & _).
    destruct Hco as (_ & _ & _ & _ & _ & _ & _ & Hat). rewrite Hex in Hat.
    destruct Hat as [Hs _]. congruence.
  - destruct (closing y) eqn:Ecl; [| discriminate].
    assert (Hnot : GotClose ∉ calls (next (sink y))).
    { intros Hc. destruct (Hin Hc) as (_ & Hf & _). congruence. }
    destruct Hco as (_ & _ & _ & _ & _ & Hstop & Hclosing & Hat).
    destruct onDone.
    + destruct (done (sink y)) eqn:Ed; [| discriminate].
      injection Hstep as <- <-. simpl.
      destruct (sink_Close ctx (observed (next (sink y)))) as [s r]. simpl.
      split; [apply closed_last_close, Hnot |].
      intros _. split; [| auto].
      destruct (at_ (work y));
        [congruence | destruct Hat; congruence | destruct Hat; congruence | reflexivity].
    + destruct (ctx_Err ctx); [| discriminate].
      injection Hstep as <- <-. simpl. split; [exact Hlast |].
      intros Hc. contradiction.
  - destruct (run_step c (sink y) (work y)) as [[s k] |] eqn:E; [| discriminate].
    injection Hstep as <- <-. simpl.
    destruct (run_step_calls _ _ _ _ _ E) as (Hat & l & El & Hl).
    assert (Hnot : GotClose ∉ calls (next s)).
    { rewrite El. intros Hc. apply elem_of_app in Hc as [Hc | Hc]; [| contradiction].
      destruct (Hin Hc) as (Hex & _). contradiction. }
    split; [apply closed_last_no_close, Hnot |]. intros Hc. contradiction.
Qed.

Lemma run_closed_last o evs (y y' : system (Traced I)) acc :
  run evs y = Some (y', acc) -> coherent o y ->
  closed_last (calls (next (sink y))) /\
  (GotClose ∈ calls (next (sink y)) ->
   at_ (work y) = Exited /\ closing y = false /\ closed (sink y) = true) ->
  closed_last (calls (next (sink y'))) /\
  (GotClose ∈ calls (next (sink y')) ->
   at_ (work y') = Exited /\ closing y' = false /\ closed (sink y') = true).
Proof.
  revert y acc. induction evs as [| ev evs IH]; intros y acc; simpl.
  - intros [= <- <-]. auto.
  - destruct (step ev y) as [[y1 acc1] |] eqn:E1; [| discriminate].
    destruct (run evs y1) as [[y2 acc2] |] eqn:E2; [| discriminate].
    intros [= <- <-] Hco Hinv.
    eapply IH; [exact E2 | eapply step_coherent; eauto |].
    eapply step_closed_last; eauto.
Qed.

(** X18. Whatever the schedule, the batch sink closes the inner sink at
    most once, and only after the worker has returned: in the calls the
    inner sink receives, nothing comes before a [Close] that is a [Close],
    and nothing comes after it but [Flush]; no entry is written to an inner
    sink that has been closed.  When the inner sink has been closed the
    worker has returned, the batch sink is marked closed and no [Close] is
    waiting. *)
Theorem inner_sink_closed_once_and_last (n : I) (o : BatchOptions) evs
    (y : system (Traced I)) acc :
  run evs (boot (mkTraced n []) o) = Some (y, acc) ->
  (forall l1 l2, calls (next (sink y)) = l1 ++ GotClose :: l2 ->
     (GotClose ∉ l1) /\ Forall (fun c => c = GotFlush) l2 /\ written l2 = []) /\
  (GotClose ∈ calls (next (sink y)) ->
   at_ (work y) = Exited /\ done (sink y) = true /\
   closed (sink y) = true /\ closing y = false).
Proof.
  intros Hrun.
  pose proof (run_coherent _ _ _ _ _ Hrun (boot_coherent (mkTraced n []) o)) as Hco.
  destruct (run_closed_last _ _ _ _ _ Hrun (boot_coherent (mkTraced n []) o))
    as [Hlast Hin].
  { simpl. split; [exact Logic.I |]. intros Hc. inversion Hc. }
  split.
  - intros l1 l2 E. rewrite E in Hlast.
    destruct (closed_last_split l1 l2 Hlast) as [Hn Hf].
    split; [exact Hn |]. split; [exact Hf |].
    clear -Hf. induction Hf as [| c l Hc _ IH]; [reflexivity |].
    subst c. simpl. exact IH.
  - intros Hc. destruct (Hin Hc) as (Hex & Hcl & Hclosed).
    destruct Hco as (_ & _ & _ & _ & _ & _ & _ & Hat). rewrite Hex in Hat.
    destruct Hat as [_ Hd]. auto.
Qed.

(** After a [Close] has been given up, nobody closes the inner sink. *)
Lemma step_abandoned ev (y y' : system (Traced I)) acc :
  step ev y = Some (y', acc) ->
  closed (sink y) = true /\ stop (sink y) = true /\ closing y = false /\
  (GotClose ∉ calls (next (sink y))) ->
  closed (sink y') = true /\ stop (sink y') = true /\ closing y' = false /\
  (GotClose ∉ calls (next (sink y'))).
Proof.
  intros Hstep (Hc & Hs & Hcl & Hn).
  pose proof (step_keeps_closed _ _ _ _ Hstep Hc) as Hc'.
  pose proof (step_keeps_stop _ _ _ _ Hstep Hs) as Hs'.
  split; [exact Hc' |]. split; [exact Hs' |].
  destruct ev as [ctx entry | entry | i | i ctx | ctx | ctx | ctx | | ctx onDone | c];
    simpl in Hstep.
  - destruct (Write_order ctx entry (sink y)) as [Hnx _].
    destruct (Write ctx entry (sink y)) as [s [[e |] | buf]]; simpl in Hnx;
      injection Hstep as <- <-; simpl; rewrite Hnx; auto.
  - destruct (try_send_order entry (sink y)) as [Hnx _].
    destruct (try_send entry (sink y)) as [s [[e |] | buf]]; simpl in Hnx;
      injection Hstep as <- <-; simpl; rewrite Hnx; auto.
  - destruct (parked y !! i); [| discriminate].
    destruct (has_room (sink y)); [| discriminate].
    injection Hstep as <- <-. simpl. auto.
  - destruct (parked y !! i), (ctx_Err ctx); try discriminate.
    injection Hstep as <- <-. simpl. auto.
  - injection Hstep as <- <-. simpl. rewrite batch_Flush_closed by exact Hc. auto.
  - injection Hstep as <- <-. simpl.
    destruct (sink_Flush ctx (observed (next (sink y)))) as [s r]. simpl.
    split; [exact Hcl |].
    intros Hin. apply elem_of_app in Hin as [Hin | Hin]; [contradiction |].
    apply list_elem_of_singleton in Hin. discriminate.
  - unfold Close in Hstep. rewrite Hc in Hstep. injection Hstep as <- <-. auto.
  - rewrite Hc, Hs in Hstep. discriminate.
  - rewrite Hcl in Hstep. discriminate.
  - destruct (run_step c (sink y) (work y)) as [[s k] |] eqn:E; [| discriminate].
    injection Hstep as <- <-. simpl.
    destruct (run_step_calls _ _ _ _ _ E) as (_ & l & El & Hl).
    split; [exact Hcl |]. rewrite El.
    intros Hin. apply elem_of_app in Hin as [Hin | Hin]; contradiction.
Qed.

Lemma run_abandoned evs (y y' : system (Traced I)) acc :
  run evs y = Some (y', acc) ->
  closed (sink y) = true /\ stop (sink y) = true /\ closing y = false /\
  (GotClose ∉ calls (next (sink y))) ->
  closed (sink y') = true /\ stop (sink y') = true /\ closing y' = false /\
  (GotClose ∉ calls (next (sink y'))).
Proof.
  revert y acc. induction evs as [| ev evs IH]; intros y acc; simpl.
  - intros [= <- <-]. auto.
  - destruct (step ev y) as [[y1 acc1] |] eqn:E1; [| discriminate].
    destruct (run evs y1) as [[y2 acc2] |] eqn:E2; [| discriminate].
    intros [= <- <-] Hinv. eapply IH; [exact E2 |]. eapply step_abandoned; eauto.
Qed.

(** X19. A [Close] that returns the error of its context leaves the inner
    sink open for good.  From the start of a batch sink, once a [Close]
    waiting at its [select] has taken the case of the context, then
    whatever follows, further calls of [Close] included, the inner sink
    never receives a [Close]: every later [Close] of the batch sink returns
    nil at once and changes nothing. *)
Theorem abandoned_close_never_closes_inner (n : I) (o : BatchOptions)
    evs1 ctx evs2 (y0 y1 y2 : system (Traced I)) acc0 acc1 acc2 :
  run evs1 (boot (mkTraced n []) o) = Some (y0, acc0) ->
  step (CloseResumes ctx false) y0 = Some (y1, acc1) ->
  run evs2 y1 = Some (y2, acc2) ->
  (GotClose ∉ calls (next (sink y2))) /\
  closed (sink y2) = true /\
  (forall ctx', Close ctx' (sink y2) = (sink y2, CloseReturned None)) /\
  (forall ctx' b, step (CloseResumes ctx' b) y2 = None).
Proof.
  intros Hrun1 Hstep Hrun2.
  pose proof (run_coherent _ _ _ _ _ Hrun1 (boot_coherent (mkTraced n []) o)) as Hco.
  destruct (run_closed_last _ _ _ _ _ Hrun1 (boot_coherent (mkTraced n []) o))
    as [_ Hin].
  { simpl. split; [exact Logic.I |]. intros Hc. inversion Hc. }
  assert (H1 : closed (sink y1) = true /\ stop (sink y1) = true /\ closing y1 = false /\
               (GotClose ∉ calls (next (sink y1)))).
  { simpl in Hstep. destruct (closing y0) eqn:Ecl; [| discriminate].
    destruct (ctx_Err ctx); [| discriminate]. injection Hstep as <- <-. simpl.
    destruct Hco as (_ & _ & _ & _ & _ & Hstop & Hclosing & _).
    split; [auto |]. split; [auto |]. split; [reflexivity |].
    intros Hc. destruct (Hin Hc) as (_ & Hf & _). congruence. }
  destruct (run_abandoned _ _ _ _ Hrun2 H1) as (Hc2 & _ & Hcl2 & Hn2).
  split; [exact Hn2 |]. split; [exact Hc2 |]. split.
  - intros ctx'. unfold Close. rewrite Hc2. reflexivity.
  - intros ctx' b. simpl. rewrite Hcl2. reflexivity.
Qed.


(** *** The drain *)

Lemma run_app {J : Type} `{Sink J} evs1 evs2 (y : system J) :
  run (evs1 ++ evs2) y =
  match run evs1 y with
  | Some (y1, acc1) =>
    match run evs2 y1 with
    | Some (y2, acc2) => Some (y2, acc1 ++ acc2)
    | None => None
    end
  | None => None
  end.
Proof.
  revert y. induction evs1 as [| ev evs1 IH]; intros y.
  - simpl. destruct (run evs2 y) as [[y2 acc2] |]; reflexivity.
  - cbn [app]. rewrite !run_cons. destruct (step ev y) as [[y1 acc1] |]; [| reflexivity].
    rewrite IH. destruct (run evs1 y1) as [[y2 acc2] |]; [| reflexivity].
    destruct (run evs2 y2) as [[y3 acc3] |]; [| reflexivity].
    rewrite app_assoc. reflexivity.
Qed.

(** The drain loop, from its [select] on: a receive for each element of
    the queue, then the default case, which makes the last flush. *)
Lemma drain_loop (q : list (option (list Byte.byte))) (y : system (Traced I)) :
  at_ (work y) = Draining -> queue (sink y) = q ->
  exists y',
    run (repeat (Worker OnQueue) (length q) ++ [Worker OnDefault]) y = Some (y', []) /\
    at_ (work y') = Returning /\
    queue (sink y') = [] /\ batch (work y') = [] /\
    parked y' = parked y /\ closing y' = closing y.
Proof.
  revert y. induction q as [| e q IH]; intros y Hat Hq.
  - cbn [length repeat app]. rewrite run_cons. cbn [step]. unfold run_step.
    rewrite Hat, Hq.
    pose proof (flush_empties (next (sink y)) (batch (work y))) as Hf.
    destruct (flush (next (sink y)) (batch (work y))) as [n b]. simpl in Hf. subst b.
    eexists. split; [reflexivity |]. simpl. repeat split. exact Hq.
  - cbn [length repeat app]. rewrite run_cons. cbn [step]. unfold run_step.
    rewrite Hat, Hq.
    destruct (received (spolicy.MaxEntries (Batch (opt (sink y)))) e (next (sink y))
                (batch (work y))) as [n b].
    match goal with |- context [run _ ?y1] =>
      destruct (IH y1 eq_refl eq_refl) as (y' & E & H1 & H2 & H3 & H4 & H5)
    end.
    exists y'. rewrite E. simpl in H4, H5. repeat split; assumption.
Qed.

(** The return of the worker: [done] is closed and nothing else changes. *)
Lemma worker_returns (y : system (Traced I)) :
  at_ (work y) = Returning ->
  exists y',
    run [Worker OnReturn] y = Some (y', []) /\
    at_ (work y') = Exited /\ done (sink y') = true /\
    queue (sink y') = queue (sink y) /\ batch (work y') = batch (work y) /\
    next (sink y') = next (sink y) /\
    parked y' = parked y /\ closing y' = closing y.
Proof.
  intros Hat. rewrite run_cons. cbn [step]. unfold run_step. rewrite Hat.
  destruct (queue (sink y)) eqn:Eq; eexists; (split; [reflexivity |]); simpl;
    rewrite ?Eq; repeat split.
Qed.

(** Once [stop] is closed, the turns of [drain_schedule] are enabled one
    after the other and take the worker to its return. *)
Lemma drain_runs (y : system (Traced I)) :
  stop (sink y) = true -> at_ (work y) <> Exited ->
  exists y',
    run (drain_schedule y) y = Some (y', []) /\
    at_ (work y') = Exited /\ done (sink y') = true /\
    parked y' = parked y /\ closing y' = closing y /\
    (at_ (work y) <> Returning ->
     queue (sink y') = [] /\ batch (work y') = [] /\
     delivered y' = delivered y ++ pending y) /\
    (at_ (work y) = Returning ->
     queue (sink y') = queue (sink y) /\ delivered y' = delivered y).
Proof.
  intros Hstop Hat.
  assert (Hloop : forall y0 : system (Traced I), at_ (work y0) = Draining ->
    exists y',
      run ((repeat (Worker OnQueue) (length (queue (sink y0))) ++ [Worker OnDefault])
           ++ [Worker OnReturn]) y0 = Some (y', []) /\
      at_ (work y') = Exited /\ done (sink y') = true /\
      queue (sink y') = [] /\ batch (work y') = [] /\
      parked y' = parked y0 /\ closing y' = closing y0).
  { intros y0 Hd.
    destruct (drain_loop (queue (sink y0)) y0 Hd eq_refl)
      as (y1 & E1 & A1 & Q1 & B1 & P1 & C1).
    destruct (worker_returns y1 A1) as (y2 & E2 & A2 & D2 & Q2 & B2 & _ & P2 & C2).
    exists y2. rewrite run_app, E1, E2. split; [reflexivity |].
    repeat split; congruence. }
  unfold drain_schedule. destruct (at_ (work y)) eqn:Eat; [| | | contradiction].
  - cbn [app]. rewrite run_cons. cbn [step]. unfold run_step. rewrite Eat, Hstop.
    set (y0 := mkSystem (sink y) (mkWorker Draining (batch (work y))) (parked y) (closing y)).
    destruct (Hloop y0 eq_refl) as (y' & E & H1 & H2 & H3 & H4 & H5 & H6).
    cbn [y0 sink] in E. exists y'. rewrite E.
    split; [reflexivity |]. split; [exact H1 |]. split; [exact H2 |].
    split; [exact H5 |]. split; [exact H6 |]. split; [| discriminate].
    intros _. split; [exact H3 |]. split; [exact H4 |].
    pose proof (run_order _ _ _ _ E) as Hord.
    unfold pending at 1 in Hord. rewrite H3, H4 in Hord. simpl in Hord.
    rewrite !app_nil_r in Hord. exact Hord.
  - cbn [app]. destruct (Hloop y Eat) as (y' & E & H1 & H2 & H3 & H4 & H5 & H6).
    exists y'. split; [exact E |]. split; [exact H1 |]. split; [exact H2 |].
    split; [exact H5 |]. split; [exact H6 |]. split; [| discriminate].
    intros _. split; [exact H3 |]. split; [exact H4 |].
    pose proof (run_order _ _ _ _ E) as Hord.
    unfold pending at 1 in Hord. rewrite H3, H4 in Hord. simpl in Hord.
    rewrite !app_nil_r in Hord. exact Hord.
  - cbn [app].
    destruct (worker_returns y Eat) as (y' & E & H1 & H2 & H3 & H4 & H5 & H6 & H7).
    exists y'. split; [exact E |]. split; [exact H1 |]. split; [exact H2 |].
    split; [exact H6 |]. split; [exact H7 |]. split; [intros Hne; contradiction |].
    intros _. split; [exact H3 |]. unfold delivered. rewrite H5. reflexivity.
Qed.





(** X20. Once [stop] is closed the worker finishes by itself: from any
    state in which it has not returned, its own turns, one to enter the
    drain loop if it is not there, one for each element of the queue, one
    for the default case and one for the return, are all enabled in that
    order; they end with the worker returned and [done] closed.  When the
    worker stood in one of its loops, the queue and the batch are then
    empty and everything that was pending has been handed to the inner
    sink, in order; when it was already past its last flush, only the
    return was left and nothing more is handed on.  A [Close] that waits
    can then take the case of [done], which closes the inner sink. *)
Theorem drain_delivers_everything (y : system (Traced I)) :
  stop (sink y) = true -> at_ (work y) <> Exited ->
  exists y',
    run (drain_schedule y) y = Some (y', []) /\
    at_ (work y') = Exited /\ done (sink y') = true /\
    (at_ (work y) <> Returning ->
     queue (sink y') = [] /\ batch (work y') = [] /\
     delivered y' = delivered y ++ pending y) /\
    (at_ (work y) = Returning ->
     queue (sink y') = queue (sink y) /\ delivered y' = delivered y) /\
    parked y' = parked y /\ closing y' = closing y /\
    (closing y = true -> forall ctx,
       exists y'', step (CloseResumes ctx true) y' = Some (y'', []) /\
                   calls (next (sink y'')) = calls (next (sink y')) ++ [GotClose] /\
                   closing y'' = false).
Proof.
  intros Hstop Hat.
  destruct (drain_runs y Hstop Hat) as (y' & E & H1 & H2 & H3 & H4 & H5 & H6).
  exists y'. split; [exact E |]. split; [exact H1 |]. split; [exact H2 |].
  split; [exact H5 |]. split; [exact H6 |]. split; [exact H3 |]. split; [exact H4 |].
  intros Hcl ctx. cbn [step]. rewrite H4, Hcl, H2.
  eexists. split; [reflexivity |]. simpl.
  destruct (sink_Close ctx (observed (next (sink y')))) as [s r]. simpl.
  split; reflexivity.
Qed.


(** *** A sink without limits *)

Lemma step_waits ev (y y' : system (Traced I)) acc :
  step ev y = Some (y', acc) ->
  spolicy.MaxEntries (Batch (opt (sink y))) <= 0 ->
  spolicy.Interval (Batch (opt (sink y))) <= 0 ->
  (at_ (work y) = Running -> delivered y = []) ->
  at_ (work y') = Running -> delivered y' = [].
Proof.
  unfold delivered. intros Hstep Hm Hi Hinv.
  destruct ev as [ctx entry | entry | i | i ctx | ctx | ctx | ctx | | ctx onDone | c];
    simpl in Hstep.
  - destruct (Write_order ctx entry (sink y)) as [Hn _].
    destruct (Write ctx entry (sink y)) as [s [[e |] | buf]]; simpl in Hn;
      injection Hstep as <- <-; simpl; rewrite Hn; exact Hinv.
  - destruct (try_send_order entry (sink y)) as [Hn _].
    destruct (try_send entry (sink y)) as [s [[e |] | buf]]; simpl in Hn;
      injection Hstep as <- <-; simpl; rewrite Hn; exact Hinv.
  - destruct (parked y !! i); [| discriminate].
    destruct (has_room (sink y)); [| discriminate].
    injection Hstep as <- <-. exact Hinv.
  - destruct (parked y !! i), (ctx_Err ctx); try discriminate.
    injection Hstep as <- <-. exact Hinv.
  - injection Hstep as <- <-. simpl. unfold Flush.
    destruct (closed (sink y)); [exact Hinv |]. cbn [sink_Flush traced_Sink].
    destruct (sink_Flush ctx (observed (next (sink y)))) as [s r]. simpl.
    rewrite written_other by discriminate. exact Hinv.
  - injection Hstep as <- <-. simpl.
    destruct (sink_Flush ctx (observed (next (sink y)))) as [s r]. simpl.
    rewrite written_other by discriminate. exact Hinv.
  - unfold Close in Hstep.
    destruct (closed (sink y)); injection Hstep as <- <-; exact Hinv.
  - destruct (closed (sink y) && negb (stop (sink y))); [| discriminate].
    injection Hstep as <- <-. exact Hinv.
  - destruct (closing y); [| discriminate]. destruct onDone.
    + destruct (done (sink y)); [| discriminate].
      injection Hstep as <- <-. simpl.
      destruct (sink_Close ctx (observed (next (sink y)))) as [s r]. simpl.
      rewrite written_other by discriminate. exact Hinv.
    + destruct (ctx_Err ctx); [| discriminate]. injection Hstep as <- <-. exact Hinv.
  - destruct (run_step c (sink y) (work y)) as [[s k] |] eqn:E; [| discriminate].
    injection Hstep as <- <-. simpl. revert E. unfold run_step, received.
    destruct (Z.ltb_spec 0 (spolicy.MaxEntries (Batch (opt (sink y))))) as [| _]; [lia |].
    destruct (Z.ltb_spec 0 (spolicy.Interval (Batch (opt (sink y))))) as [| _]; [lia |].
    destruct (at_ (work y)) eqn:Eat, c, (queue (sink y)) as [| e q]; try discriminate.
    + destruct e; intros [= <- <-] _; simpl; apply Hinv; auto.
    + destruct (stop (sink y)); [| discriminate].
      intros [= <- <-] Hx. discriminate.
    + destruct (stop (sink y)); [| discriminate].
      intros [= <- <-] Hx. discriminate.
    + destruct e; intros [= <- <-] Hx; discriminate.
    + destruct (flush (next (sink y)) (batch (work y))).
      intros [= <- <-] Hx; discriminate.
    + intros [= <- <-] Hx; discriminate.
    + intros [= <- <-] Hx; discriminate.
Qed.

Lemma step_keeps_opt ev (y y' : system (Traced I)) acc :
  step ev y = Some (y', acc) -> opt (sink y') = opt (sink y).
Proof.
  intros Hstep.
  destruct ev as [ctx entry | entry | i | i ctx | ctx | ctx | ctx | | ctx onDone | c];
    simpl in Hstep.
  - unfold Write, try_send in Hstep.
    destruct (closed (sink y)), (has_room (sink y)), (Backpressure (opt (sink y)));
      injection Hstep as <- <-; reflexivity.
  - unfold try_send in Hstep.
    destruct (has_room (sink y)), (Backpressure (opt (sink y)));
      injection Hstep as <- <-; reflexivity.
  - destruct (parked y !! i); [| discriminate].
    destruct (has_room (sink y)); [| discriminate].
    injection Hstep as <- <-. reflexivity.
  - destruct (parked y !! i), (ctx_Err ctx); try discriminate.
    injection Hstep as <- <-. reflexivity.
  - injection Hstep as <- <-. simpl. unfold Flush.
    destruct (closed (sink y)); [reflexivity |].
    destruct (sink_Flush ctx (next (sink y))). reflexivity.
  - injection Hstep as <- <-. reflexivity.
  - unfold Close in Hstep.
    destruct (closed (sink y)); injection Hstep as <- <-; reflexivity.
  - destruct (closed (sink y) && negb (stop (sink y))); [| discriminate].
    injection Hstep as <- <-. reflexivity.
  - destruct (closing y); [| discriminate]. destruct onDone.
    + destruct (done (sink y)); [| discriminate]. injection Hstep as <- <-. reflexivity.
    + destruct (ctx_Err ctx); [| discriminate]. injection Hstep as <- <-. reflexivity.
  - destruct (run_step c (sink y) (work y)) as [[s k] |] eqn:E; [| discriminate].
    injection Hstep as <- <-. simpl. revert E. unfold run_step.
    destruct (at_ (work y)), c, (queue (sink y)) as [| e q]; try discriminate;
      repeat match goal with
      | |- context [received ?m ?e ?n ?b] => destruct (received m e n b)
      | |- context [flush ?n ?b] => destruct (flush n b)
      | |- context [if ?b then _ else _] => destruct b
      end;
      intros [= <- <-] || discriminate; reflexivity.
Qed.

Lemma run_waits evs (y y' : system (Traced I)) acc :
  run evs y = Some (y', acc) ->
  spolicy.MaxEntries (Batch (opt (sink y))) <= 0 ->
  spolicy.Interval (Batch (opt (sink y))) <= 0 ->
  (at_ (work y) = Running -> delivered y = []) ->
  at_ (work y') = Running -> delivered y' = [].
Proof.
  revert y acc. induction evs as [| ev evs IH]; intros y acc; simpl.
  - intros [= <- <-]. auto.
  - destruct (step ev y) as [[y1 acc1] |] eqn:E1; [| discriminate].
    destruct (run evs y1) as [[y2 acc2] |] eqn:E2; [| discriminate].
    intros [= <- <-] Hm Hi Hinv.
    apply (IH _ _ E2); rewrite ?(step_keeps_opt _ _ _ _ E1); try assumption.
    eapply step_waits; eauto.
Qed.

(** X21. With neither limit of the batch on, [MaxEntries] and [Interval]
    both zero or less, the worker hands nothing to the inner sink from its
    outer loop.  Whatever the schedule, nothing has reached the inner sink
    as long as [stop] is open, that is before a [Close] has closed it, nor
    afterwards as long as the worker has not entered its drain loop: every
    entry accepted so far is then in the batch or in the queue. *)
Theorem without_limits_delivery_waits (n : I) (o : BatchOptions) evs
    (y : system (Traced I)) acc :
  run evs (boot (mkTraced n []) o) = Some (y, acc) ->
  spolicy.MaxEntries (Batch o) <= 0 -> spolicy.Interval (Batch o) <= 0 ->
  stop (sink y) = false \/ at_ (work y) = Running ->
  delivered y = [] /\ pending y = acc.
Proof.
  intros Hrun Hm Hi Hat.
  assert (Hb : Batch (opt (sink (boot (mkTraced n []) o))) = Batch o).
  { simpl. unfold WithBatch. destruct (QueueSize o <=? 0); simpl;
      destruct (Backpressure o); reflexivity. }
  assert (Hloc : at_ (work y) = Running).
  { destruct Hat as [Hs | Hl]; [| exact Hl].
    pose proof (run_coherent _ _ _ _ _ Hrun (boot_coherent (mkTraced n []) o))
      as (_ & _ & _ & _ & _ & _ & _ & Hco).
    destruct (at_ (work y)); [reflexivity | | |]; destruct Hco; congruence. }
  assert (Hd : delivered y = []).
  { apply (run_waits _ _ _ _ Hrun); rewrite ?Hb; try assumption. reflexivity. }
  split; [exact Hd |].
  pose proof (run_order _ _ _ _ Hrun) as Hord. rewrite Hd in Hord. exact Hord.
Qed.


End TracedProps.

End BatchSinkProps.

(** ** The two layers together *)

(** C3. Once [Close] has been called on a sink of either layer, and
    whatever calls follow, a [Write] or a [Flush] returns the sink's
    "closed" error and leaves everything as it is: for the rotating file
    sink, under a live context, the world, with its log of calls to the
    operating system, and the sink are unchanged; for the batch sink the
    state, and with it the inner sink, is unchanged. *)
Theorem closed_sinks_fail_fast :
  (forall gzip ctxc w s cs ctx entry w',
     ctx_Err ctx = None ->
     let w1 := fst (fst (RotatingFile.Close ctxc w s)) in
     let s1 := snd (fst (RotatingFile.Close ctxc w s)) in
     let s2 := snd (RotatingFileTerms.invoke_all gzip cs w1 s1) in
     RotatingFile.Write gzip ctx entry w' s2 = (w', s2, Some ErrRotationClosed) /\
     RotatingFile.Flush ctx w' s2 = (w', s2, Some ErrRotationClosed)) /\
  (forall (I : Type) (HI : Sink I) ctxc (y y1 y2 : BatchSink.system I)
          acc1 evs acc2 ctx entry,
     BatchSink.step (BatchSink.DoClose ctxc) y = Some (y1, acc1) ->
     BatchSink.run evs y1 = Some (y2, acc2) ->
     BatchSink.Write ctx entry (BatchSink.sink y2)
       = (BatchSink.sink y2, BatchSink.Returned (Some ErrBatchClosed)) /\
     BatchSink.Flush ctx (BatchSink.sink y2)
       = (BatchSink.sink y2, Some ErrBatchClosed)).
Proof.
  split.
  - intros gzip ctxc w s cs ctx entry w' Hx w1 s1 s2.
    assert (Hc1 : RotatingFile.closed s1 = true)
      by apply RotatingFileProps.Close_sets_closed.
    assert (Hc2 : RotatingFile.closed s2 = true).
    { unfold s2. rewrite (RotatingFileProps.invoke_all_closed gzip cs w1 s1 Hc1).
      exact Hc1. }
    split.
    + apply RotatingFileProps.Write_closed; assumption.
    + apply RotatingFileProps.Flush_closed; assumption.
  - intros I HI ctxc y y1 y2 acc1 evs acc2 ctx entry Hclose Hrun.
    assert (Hc1 : BatchSink.closed (BatchSink.sink y1) = true).
    { simpl in Hclose.
      pose proof (BatchSinkProps.batch_Close_sets_closed ctxc (BatchSink.sink y)) as Hk.
      destruct (BatchSink.Close ctxc (BatchSink.sink y)) as [s [r |]];
        simpl in Hk; injection Hclose as <- <-; exact Hk. }
    assert (Hc2 : BatchSink.closed (BatchSink.sink y2) = true)
      by (eapply BatchSinkProps.run_keeps_closed; eauto).
    split.
    + apply BatchSinkProps.batch_Write_closed. exact Hc2.
    + apply BatchSinkProps.batch_Flush_closed. exact Hc2.
Qed.

(** *** A batch sink over a rotating file sink *)

Lemma closed_sinks_fail_fast_witness :
  let y := BatchSink.boot file_next (small_options spolicy.BackpressureDrop) in
  match BatchSink.run [BatchSink.DoClose Background;
                       BatchSink.CloseSignals;
                       BatchSink.Worker BatchSink.OnStop;
                       BatchSink.Worker BatchSink.OnDefault;
                       BatchSink.Worker BatchSink.OnReturn;
                       BatchSink.CloseResumes Background true] y with
  | Some (y2, _) =>
    BatchSink.Write Background entry_a (BatchSink.sink y2)
      = (BatchSink.sink y2, BatchSink.Returned (Some ErrBatchClosed)) /\
    RotatingFile.Write store_only Background entry_a
        (fst (observed (BatchSink.next (BatchSink.sink y2))))
        (snd (observed (BatchSink.next (BatchSink.sink y2))))
      = (fst (observed (BatchSink.next (BatchSink.sink y2))),
         snd (observed (BatchSink.next (BatchSink.sink y2))),
         Some ErrRotationClosed)
  | None => False
  end.
Proof.
  intros y.
  destruct closed_sinks_fail_fast as [Hrot Hbat].
  destruct (BatchSink.step (BatchSink.DoClose Background) y) as [[y1 acc1] |] eqn:E1;
    [| vm_compute in E1; discriminate].
  rewrite BatchSinkProps.run_cons, E1.
  destruct (BatchSink.run [BatchSink.CloseSignals;
                           BatchSink.Worker BatchSink.OnStop;
                           BatchSink.Worker BatchSink.OnDefault;
                           BatchSink.Worker BatchSink.OnReturn;
                           BatchSink.CloseResumes Background true] y1)
    as [[y2 acc2] |] eqn:E2; cbv beta iota.
  - split.
    + exact (proj1 (Hbat _ _ Background y y1 y2 acc1 _ acc2 Background entry_a E1 E2)).
    + assert (Es : snd (observed (BatchSink.next (BatchSink.sink y2)))
                 = snd (fst (RotatingFile.Close Background
                               (RotatingFileTerms.aged_world ∅)
                               (snd (observed file_next))))).
      { vm_compute in E1. injection E1 as <- <-.
        vm_compute in E2. injection E2 as <- <-. vm_compute. reflexivity. }
      rewrite Es.
      exact (proj1 (Hrot store_only Background (RotatingFileTerms.aged_world ∅)
                      (snd (observed file_next)) [] Background entry_a _ eq_refl)).
  - vm_compute in E1. injection E1 as <- <-. vm_compute in E2. discriminate.
Defined.

Lemma full_queue_backpressure_witness :
  let s := BatchSink.send entry_a
             (BatchSink.WithBatch file_next (small_options spolicy.BackpressureDrop)) in
  BatchSink.Write Background entry_b s
    = (s, BatchSink.Returned (Some ErrQueueFull)).
Proof.
  intros s.
  apply (BatchSinkProps.full_queue_backpressure Background entry_b s).
  - reflexivity.
  - reflexivity.
  - left. reflexivity.
Defined.


(** Order is all that the worker guarantees to a write that races with
    [Close]: an entry that enters the queue after the final drain is
    accepted and stays in the queue. *)
Example late_write_stays_queued :
  match BatchSink.run
          [BatchSink.DoClose Background;
           BatchSink.CloseSignals;
           BatchSink.Worker BatchSink.OnStop;
           BatchSink.Worker BatchSink.OnDefault;
           BatchSink.Worker BatchSink.OnReturn;
           BatchSink.LateWrite entry_a]
          (BatchSink.boot
             (mkTraced (observed file_next) [])
             (small_options spolicy.BackpressureBlock)) with
  | Some (y, acc) =>
    acc = [entry_a] /\
    BatchSinkTerms.delivered y = [] /\
    BatchSink.queue (BatchSink.sink y) = [Some entry_a] /\
    BatchSink.at_ (BatchSink.work y) = BatchSink.Exited
  | None => False
  end.
Proof. vm_compute. repeat split. Qed.

(** *** Entries on their way to the file *)

Section FileUnderBatch.
Variable gzip : list Byte.byte -> list Byte.byte.

Local Abbreviation FS := (rotating_Sink gzip).
Local Abbreviation TS := (@traced_Sink _ (rotating_Sink gzip)).

Lemma write_holds h data e (t : Traced (World * RotatingFile.rotatingFileSink)) :
  file_holds h data t -> (GotClose ∉ calls t) ->
  file_holds h data (fst (@sink_Write _ TS Background e t)) /\
  calls (fst (@sink_Write _ TS Background e t)) = calls t ++ [GotWrite e].
Proof.
  intros (Hq & (f & Hl & Hdata) & Hopen) Hn.
  destruct (Hopen Hn) as (Hc & Hf & Hsz & Hage).
  destruct (RotatingFileProps.Write_appends gzip Background e
              (fst (observed t)) (snd (observed t)) h f eq_refl Hc Hf Hl
              (RotatingFileProps.shouldRotate_disabled _ _ _ Hsz Hage) Hq)
    as (w' & f' & EW & Hl' & Hdata' & _ & _ & _ & Hfaults).
  cbn [sink_Write traced_Sink rotating_Sink]. rewrite EW. cbn [fst snd calls observed].
  split; [| reflexivity]. unfold file_holds. cbn [fst snd calls observed].
  split; [rewrite (RotatingFileProps.quiet_faults _ _ _ Hfaults); exact Hq |].
  split.
  - exists f'. split; [exact Hl' |].
    rewrite Hdata', Hdata, BatchSinkProps.written_app, concat_app. simpl.
    rewrite app_nil_r, <- app_assoc. reflexivity.
  - intros _. simpl. auto.
Qed.

Lemma flush_holds h data ctx (t : Traced (World * RotatingFile.rotatingFileSink)) :
  file_holds h data t ->
  file_holds h data (fst (@sink_Flush _ TS ctx t)) /\
  calls (fst (@sink_Flush _ TS ctx t)) = calls t ++ [GotFlush].
Proof.
  intros (Hq & (f & Hl & Hdata) & Hopen).
  cbn [sink_Flush traced_Sink rotating_Sink].
  assert (HF : snd (fst (RotatingFile.Flush ctx (fst (observed t)) (snd (observed t))))
               = snd (observed t) /\
               w_dir (fst (fst (RotatingFile.Flush ctx (fst (observed t)) (snd (observed t)))))
               = w_dir (fst (observed t)) /\
               quiet SysWrite
                 (fst (fst (RotatingFile.Flush ctx (fst (observed t)) (snd (observed t)))))
               = true).
  { unfold RotatingFile.Flush.
    destruct (ctx_Err ctx); [auto |].
    destruct (RotatingFile.closed (snd (observed t))); [auto |].
    destruct (RotatingFile.file (snd (observed t))) as [h' |]; [| auto].
    unfold file_Sync.
    pose proof (enter_spec SysSync (CallSync (h_name h')) (fst (observed t))) as (Hd & _).
    pose proof (quiet_enter SysWrite SysSync (CallSync (h_name h')) _ Hq) as Hq'.
    destruct (enter SysSync (CallSync (h_name h')) (fst (observed t))) as [ft w1].
    simpl in *. auto. }
  destruct (RotatingFile.Flush ctx (fst (observed t)) (snd (observed t))) as [[w' s'] r].
  cbn [fst snd calls observed] in *. destruct HF as (-> & Hd & Hq').
  split; [| reflexivity]. unfold file_holds. cbn [fst snd calls observed].
  split; [exact Hq' |]. split.
  - exists f. rewrite Hd, BatchSinkProps.written_other by discriminate. auto.
  - intros Hn. apply Hopen. intros Hc. apply Hn. apply elem_of_app. left. exact Hc.
Qed.

Lemma close_holds h data ctx (t : Traced (World * RotatingFile.rotatingFileSink)) :
  file_holds h data t ->
  file_holds h data (fst (@sink_Close _ TS ctx t)).
Proof.
  intros (Hq & (f & Hl & Hdata) & Hopen).
  cbn [sink_Close traced_Sink rotating_Sink].
  assert (HC : w_dir (fst (fst (RotatingFile.Close ctx (fst (observed t)) (snd (observed t)))))
               = w_dir (fst (observed t)) /\
               quiet SysWrite
                 (fst (fst (RotatingFile.Close ctx (fst (observed t)) (snd (observed t)))))
               = true).
  { unfold RotatingFile.Close.
    destruct (RotatingFile.closed (snd (observed t))); [auto |]. simpl.
    destruct (RotatingFile.file (snd (observed t))) as [h' |]; [| auto].
    unfold file_Close.
    pose proof (enter_spec SysClose (CallClose (h_name h')) (fst (observed t))) as (Hd & _).
    pose proof (quiet_enter SysWrite SysClose (CallClose (h_name h')) _ Hq) as Hq'.
    destruct (enter SysClose (CallClose (h_name h')) (fst (observed t))) as [ft w1].
    simpl in *. auto. }
  destruct (RotatingFile.Close ctx (fst (observed t)) (snd (observed t))) as [[w' s'] r].
  cbn [fst snd calls observed] in *. destruct HC as (Hd & Hq').
  unfold file_holds. cbn [fst snd calls observed].
  split; [exact Hq' |]. split.
  - exists f. rewrite Hd, BatchSinkProps.written_other by discriminate. auto.
  - intros Hn. exfalso. apply Hn. apply elem_of_app. right. left.
Qed.

Lemma deliver_holds h data b (t : Traced (World * RotatingFile.rotatingFileSink)) :
  file_holds h data t -> (GotClose ∉ calls t) ->
  file_holds h data (@BatchSink.deliver _ TS b t) /\
  (GotClose ∉ calls (@BatchSink.deliver _ TS b t)).
Proof.
  revert t. induction b as [| e b IH]; intros t Ht Hn; [auto |].
  destruct (write_holds h data e t Ht Hn) as [Ht1 Hc1].
  change (@BatchSink.deliver _ TS (e :: b) t)
    with (@BatchSink.deliver _ TS b (fst (@sink_Write _ TS Background e t))).
  apply IH; [exact Ht1 |]. rewrite Hc1.
  intros Hc. apply elem_of_app in Hc as [Hc | Hc]; [contradiction |].
  apply list_elem_of_singleton in Hc. discriminate.
Qed.

Lemma batch_flush_holds h data b (t : Traced (World * RotatingFile.rotatingFileSink)) :
  file_holds h data t -> (GotClose ∉ calls t) ->
  file_holds h data (fst (@BatchSink.flush _ TS t b)).
Proof.
  intros Ht Hn. unfold BatchSink.flush. destruct b as [| e b]; [exact Ht |].
  destruct (deliver_holds h data (e :: b) t Ht Hn) as [Ht1 _].
  cbn [fst]. apply flush_holds. exact Ht1.
Qed.

Lemma received_holds h data m e b (t : Traced (World * RotatingFile.rotatingFileSink)) :
  file_holds h data t -> (GotClose ∉ calls t) ->
  file_holds h data (fst (@BatchSink.received _ TS m e t b)).
Proof.
  intros Ht Hn. unfold BatchSink.received. destruct e as [x |]; [| exact Ht].
  destruct ((0 <? m) && (Z.of_nat (length (b ++ [x])) >=? m)); [| exact Ht].
  apply batch_flush_holds; assumption.
Qed.

Lemma run_step_holds h data c
    (s s' : BatchSink.batchSink (Traced (World * RotatingFile.rotatingFileSink))) k k' :
  @BatchSink.run_step _ TS c s k = Some (s', k') ->
  file_holds h data (BatchSink.next s) -> (GotClose ∉ calls (BatchSink.next s)) ->
  file_holds h data (BatchSink.next s').
Proof.
  unfold BatchSink.run_step. intros E Ht Hn. revert E.
  destruct (BatchSink.at_ k), c, (BatchSink.queue s) as [| e q]; try discriminate.
  - pose proof (received_holds h data
                  (spolicy.MaxEntries (BatchSink.Batch (BatchSink.opt s))) e
                  (BatchSink.batch k) (BatchSink.next s) Ht Hn) as R.
    destruct (BatchSink.received _ e (BatchSink.next s) (BatchSink.batch k)) as [n b].
    intros [= <- <-]. exact R.
  - destruct (0 <? spolicy.Interval (BatchSink.Batch (BatchSink.opt s))); [| discriminate].
    pose proof (batch_flush_holds h data (BatchSink.batch k) (BatchSink.next s) Ht Hn) as R.
    destruct (BatchSink.flush (BatchSink.next s) (BatchSink.batch k)) as [n b].
    intros [= <- <-]. exact R.
  - destruct (0 <? spolicy.Interval (BatchSink.Batch (BatchSink.opt s))); [| discriminate].
    pose proof (batch_flush_holds h data (BatchSink.batch k) (BatchSink.next s) Ht Hn) as R.
    destruct (BatchSink.flush (BatchSink.next s) (BatchSink.batch k)) as [n b].
    intros [= <- <-]. exact R.
  - destruct (BatchSink.stop s); [| discriminate]. intros [= <- <-]. exact Ht.
  - destruct (BatchSink.stop s); [| discriminate]. intros [= <- <-]. exact Ht.
  - pose proof (received_holds h data
                  (spolicy.MaxEntries (BatchSink.Batch (BatchSink.opt s))) e
                  (BatchSink.batch k) (BatchSink.next s) Ht Hn) as R.
    destruct (BatchSink.received _ e (BatchSink.next s) (BatchSink.batch k)) as [n b].
    intros [= <- <-]. exact R.
  - pose proof (batch_flush_holds h data (BatchSink.batch k) (BatchSink.next s) Ht Hn) as R.
    destruct (BatchSink.flush (BatchSink.next s) (BatchSink.batch k)) as [n b].
    intros [= <- <-]. exact R.
  - intros [= <- <-]. exact Ht.
  - intros [= <- <-]. exact Ht.
Qed.

Lemma step_holds h data ev
    (y y' : BatchSink.system (Traced (World * RotatingFile.rotatingFileSink))) acc :
  @BatchSink.step _ TS ev y = Some (y', acc) ->
  (GotClose ∈ calls (BatchSink.next (BatchSink.sink y)) ->
   BatchSink.at_ (BatchSink.work y) = BatchSink.Exited) ->
  file_holds h data (BatchSink.next (BatchSink.sink y)) ->
  file_holds h data (BatchSink.next (BatchSink.sink y')).
Proof.
  intros Hstep Hin Ht.
  destruct ev as [ctx entry | entry | i | i ctx | ctx | ctx | ctx | | ctx onDone | c];
    simpl in Hstep.
  - destruct (BatchSinkProps.Write_order ctx entry (BatchSink.sink y)) as [Hn _].
    destruct (BatchSink.Write ctx entry (BatchSink.sink y)) as [s [[e |] | buf]];
      simpl in Hn; injection Hstep as <- <-; simpl; rewrite Hn; exact Ht.
  - destruct (BatchSinkProps.try_send_order entry (BatchSink.sink y)) as [Hn _].
    destruct (BatchSink.try_send entry (BatchSink.sink y)) as [s [[e |] | buf]];
      simpl in Hn; injection Hstep as <- <-; simpl; rewrite Hn; exact Ht.
  - destruct (BatchSink.parked y !! i); [| discriminate].
    destruct (BatchSink.has_room (BatchSink.sink y)); [| discriminate].
    injection Hstep as <- <-. exact Ht.
  - destruct (BatchSink.parked y !! i), (ctx_Err ctx); try discriminate.
    injection Hstep as <- <-. exact Ht.
  - injection Hstep as <- <-. simpl. unfold BatchSink.Flush.
    destruct (BatchSink.closed (BatchSink.sink y)); [exact Ht |].
    pose proof (flush_holds h data ctx _ Ht) as [R _].
    destruct (@sink_Flush _ TS ctx (BatchSink.next (BatchSink.sink y))) as [n r].
    exact R.
  - injection Hstep as <- <-. simpl. apply (flush_holds h data ctx _ Ht).
  - unfold BatchSink.Close in Hstep.
    destruct (BatchSink.closed (BatchSink.sink y)); injection Hstep as <- <-; exact Ht.
  - destruct (BatchSink.closed (BatchSink.sink y) && negb (BatchSink.stop (BatchSink.sink y)));
      [| discriminate].
    injection Hstep as <- <-. exact Ht.
  - destruct (BatchSink.closing y); [| discriminate]. destruct onDone.
    + destruct (BatchSink.done (BatchSink.sink y)); [| discriminate].
      injection Hstep as <- <-. simpl. apply (close_holds h data ctx _ Ht).
    + destruct (ctx_Err ctx); [| discriminate]. injection Hstep as <- <-. exact Ht.
  - destruct (@BatchSink.run_step _ TS c (BatchSink.sink y) (BatchSink.work y))
      as [[s k] |] eqn:E; [| discriminate].
    injection Hstep as <- <-. simpl.
    destruct (BatchSinkProps.run_step_calls (H := FS) _ _ _ _ _ E) as (Hat & _).
    apply (run_step_holds h data c _ _ _ _ E Ht).
    intros Hc. apply Hat, Hin, Hc.
Qed.

Lemma run_holds h data o evs
    (y y' : BatchSink.system (Traced (World * RotatingFile.rotatingFileSink))) acc :
  @BatchSink.run _ TS evs y = Some (y', acc) ->
  BatchSinkTerms.coherent o y ->
  BatchSinkTerms.closed_last (calls (BatchSink.next (BatchSink.sink y))) /\
  (GotClose ∈ calls (BatchSink.next (BatchSink.sink y)) ->
   BatchSink.at_ (BatchSink.work y) = BatchSink.Exited /\
   BatchSink.closing y = false /\ BatchSink.closed (BatchSink.sink y) = true) ->
  file_holds h data (BatchSink.next (BatchSink.sink y)) ->
  file_holds h data (BatchSink.next (BatchSink.sink y')).
Proof.
  revert y acc. induction evs as [| ev evs IH]; intros y acc; simpl.
  - intros [= <- <-]. auto.
  - destruct (@BatchSink.step _ TS ev y) as [[y1 acc1] |] eqn:E1; [| discriminate].
    destruct (@BatchSink.run _ TS evs y1) as [[y2 acc2] |] eqn:E2; [| discriminate].
    intros [= <- <-] Hco Hinv Ht.
    eapply IH; [exact E2 | | |].
    + eapply (BatchSinkProps.step_coherent (H := TS)); eauto.
    + eapply (BatchSinkProps.step_closed_last (H := FS)); eauto.
    + eapply step_holds; [exact E1 | | exact Ht]. intros Hc. apply Hinv, Hc.
Qed.

(** X22. The two layers together.  A batch sink is started over a file
    sink that is open on its file, with both limits of the rotation off,
    in a world where writes do not fail.  Then, whatever the schedule of
    callers and worker, and whatever else fails, the file holds what it
    had followed by the entries the worker has handed on, which are the
    first of the entries accepted, in the order they were accepted; and
    once the worker has returned with the queue empty, the file holds
    every accepted entry. *)
Theorem accepted_entries_reach_the_file (w0 : World) (s0 : RotatingFile.rotatingFileSink)
    h f0 (o : BatchSink.BatchOptions) evs
    (y : BatchSink.system (Traced (World * RotatingFile.rotatingFileSink))) acc :
  RotatingFile.closed s0 = false -> RotatingFile.file s0 = Some h ->
  w_dir w0 !! h_name h = Some f0 ->
  spolicy.MaxSizeMB (RotatingFile.Policy (RotatingFile.opt s0)) = 0 ->
  spolicy.MaxAgeDays (RotatingFile.Policy (RotatingFile.opt s0)) = 0 ->
  quiet SysWrite w0 = true ->
  @BatchSink.run _ TS evs (BatchSink.boot (mkTraced (w0, s0) []) o) = Some (y, acc) ->
  let w := fst (observed (BatchSink.next (BatchSink.sink y))) in
  (exists f, w_dir w !! h_name h = Some f /\
             f_data f = f_data f0 ++ concat (BatchSinkTerms.delivered y)) /\
  BatchSinkTerms.delivered y `prefix_of` acc /\
  (BatchSink.at_ (BatchSink.work y) = BatchSink.Exited ->
   BatchSink.queue (BatchSink.sink y) = [] ->
   exists f, w_dir w !! h_name h = Some f /\ f_data f = f_data f0 ++ concat acc).
Proof.
  intros Hc Hf Hl Hsz Hage Hq Hrun. cbv zeta.
  assert (H0 : file_holds h (f_data f0)
                 (BatchSink.next (BatchSink.sink (BatchSink.boot (mkTraced (w0, s0) []) o)))).
  { unfold file_holds. simpl. split; [exact Hq |]. split.
    - exists f0. rewrite app_nil_r. auto.
    - intros _. auto. }
  pose proof (run_holds h (f_data f0) _ evs _ _ _ Hrun
                (BatchSinkProps.boot_coherent (mkTraced (w0, s0) []) o)) as Hholds.
  destruct Hholds as (_ & (f & Hlf & Hdata) & _).
  { simpl. split; [exact Logic.I |]. intros Hx. inversion Hx. }
  { exact H0. }
  pose proof (BatchSinkProps.run_order (H := FS) _ _ _ _ Hrun) as Hord. simpl in Hord.
  assert (Hset : BatchSinkTerms.settled y).
  { eapply (BatchSinkProps.run_settled (H := FS)); [exact Hrun |].
    intros [Hx | Hx]; discriminate. }
  split; [exists f; split; [exact Hlf | exact Hdata] |]. split.
  - exists (BatchSinkTerms.pending y). symmetry. exact Hord.
  - intros Hex Hqe. exists f. split; [exact Hlf |].
    rewrite Hdata. f_equal. f_equal. rewrite <- Hord. unfold BatchSinkTerms.pending.
    rewrite (Hset (or_intror Hex)), Hqe. simpl. rewrite app_nil_r. reflexivity.
Qed.

End FileUnderBatch.

(** *** The properties of the batch sink on the sink of the examples *)

Lemma queue_bounded_batch_by_count_witness :
  match BatchSink.run
          [BatchSink.DoWrite Background entry_a;
           BatchSink.DoWrite Background entry_b;
           BatchSink.Worker BatchSink.OnQueue;
           BatchSink.DoWrite Background entry_c]
          (BatchSink.boot file_next (small_options spolicy.BackpressureDrop)) with
  | Some (y, acc) =>
    BatchSink.QueueSize (BatchSink.opt (BatchSink.sink y)) = 1 /\
    (length (BatchSink.queue (BatchSink.sink y))
     <= BatchSink.capacity (BatchSink.sink y))%nat /\
    Z.of_nat (length (BatchSink.batch (BatchSink.work y))) < 2
  | None => False
  end.
Proof.
  match goal with |- match ?r with _ => _ end => destruct r as [[y acc] |] eqn:E end.
  - destruct (BatchSinkProps.queue_bounded_batch_by_count _ _ _ _ _ E)
      as (Hq & _ & Hlen & _ & Hb & _).
    split; [exact Hq |]. split; [exact Hlen |]. apply Hb. reflexivity.
  - vm_compute in E. discriminate.
Defined.

Lemma dropping_modes_never_block_witness :
  match BatchSink.run
          [BatchSink.DoWrite Background entry_a;
           BatchSink.DoWrite Background entry_b]
          (BatchSink.boot file_next (small_options spolicy.BackpressureDrop)) with
  | Some (y, acc) => acc = [entry_a] /\ BatchSink.parked y = []
  | None => False
  end.
Proof.
  match goal with |- match ?r with _ => _ end => destruct r as [[y acc] |] eqn:E end.
  - destruct (BatchSinkProps.dropping_modes_never_block _ _ _ _ _ E) as [_ Hp].
    split; [vm_compute in E; injection E as <- <-; reflexivity |].
    apply Hp. left. reflexivity.
  - vm_compute in E. discriminate.
Defined.

Lemma worker_returns_only_after_close_witness :
  match BatchSink.run
          [BatchSink.DoWrite Background entry_a;
           BatchSink.DoClose Background;
           BatchSink.CloseSignals;
           BatchSink.Worker BatchSink.OnStop;
           BatchSink.Worker BatchSink.OnQueue;
           BatchSink.Worker BatchSink.OnDefault;
           BatchSink.Worker BatchSink.OnReturn]
          (BatchSink.boot file_next (small_options spolicy.BackpressureBlock)) with
  | Some (y, acc) =>
    BatchSink.done (BatchSink.sink y) = true /\
    BatchSink.closed (BatchSink.sink y) = true /\
    BatchSink.stop (BatchSink.sink y) = true
  | None => False
  end.
Proof.
  match goal with |- match ?r with _ => _ end => destruct r as [[y acc] |] eqn:E end.
  - destruct (BatchSinkProps.worker_returns_only_after_close _ _ _ _ _ E)
      as (_ & Hdone & Hleft & _).
    assert (Hat : BatchSink.at_ (BatchSink.work y) = BatchSink.Exited)
      by (vm_compute in E; injection E as <- <-; reflexivity).
    destruct Hleft as [Hs Hc]; [rewrite Hat; discriminate |].
    split; [apply Hdone; exact Hat |]. split; [exact Hc | exact Hs].
  - vm_compute in E. discriminate.
Defined.

Lemma inner_sink_closed_once_and_last_witness :
  match BatchSink.run
          [BatchSink.DoWrite Background entry_a;
           BatchSink.DoClose Background;
           BatchSink.CloseSignals;
           BatchSink.Worker BatchSink.OnStop;
           BatchSink.Worker BatchSink.OnQueue;
           BatchSink.Worker BatchSink.OnDefault;
           BatchSink.Worker BatchSink.OnReturn;
           BatchSink.CloseResumes Background true;
           BatchSink.LateFlush Background]
          (BatchSink.boot (mkTraced (observed file_next) [])
             (small_options spolicy.BackpressureBlock)) with
  | Some (y, acc) =>
    calls (BatchSink.next (BatchSink.sink y))
      = [GotWrite entry_a; GotFlush; GotClose; GotFlush] /\
    BatchSink.at_ (BatchSink.work y) = BatchSink.Exited /\
    BatchSink.closing y = false
  | None => False
  end.
Proof.
  match goal with |- match ?r with _ => _ end => destruct r as [[y acc] |] eqn:E end.
  - destruct (BatchSinkProps.inner_sink_closed_once_and_last _ _ _ _ _ E) as [_ Hin].
    assert (Hc : calls (BatchSink.next (BatchSink.sink y))
                 = [GotWrite entry_a; GotFlush; GotClose; GotFlush])
      by (vm_compute in E; injection E as <- <-; reflexivity).
    split; [exact Hc |].
    destruct Hin as (Hat & _ & _ & Hcl).
    + rewrite Hc. apply list_elem_of_In. simpl. auto.
    + split; [exact Hat | exact Hcl].
  - vm_compute in E. discriminate.
Defined.

Lemma abandoned_close_never_closes_inner_witness :
  match BatchSink.run [BatchSink.DoWrite Background entry_a;
                       BatchSink.DoClose (mkContext (Some DeadlineExceeded));
                       BatchSink.CloseSignals]
          (BatchSink.boot (mkTraced (observed file_next) [])
             (small_options spolicy.BackpressureBlock)) with
  | Some (y0, _) =>
    match BatchSink.step
            (BatchSink.CloseResumes (mkContext (Some DeadlineExceeded)) false) y0 with
    | Some (y1, _) =>
      match BatchSink.run [BatchSink.Worker BatchSink.OnStop;
                           BatchSink.Worker BatchSink.OnQueue;
                           BatchSink.Worker BatchSink.OnDefault;
                           BatchSink.Worker BatchSink.OnReturn;
                           BatchSink.DoClose Background] y1 with
      | Some (y2, _) =>
        (GotClose ∉ calls (BatchSink.next (BatchSink.sink y2))) /\
        BatchSink.closed (BatchSink.sink y2) = true /\
        BatchSink.done (BatchSink.sink y2) = true
      | None => False
      end
    | None => False
    end
  | None => False
  end.
Proof.
  match goal with |- match ?r with _ => _ end => destruct r as [[y0 acc0] |] eqn:E0 end;
    [| vm_compute in E0; discriminate].
  match goal with |- match ?r with _ => _ end => destruct r as [[y1 acc1] |] eqn:E1 end;
    [| vm_compute in E0; injection E0 as <- <-; vm_compute in E1; discriminate].
  match goal with |- match ?r with _ => _ end => destruct r as [[y2 acc2] |] eqn:E2 end.
  - destruct (BatchSinkProps.abandoned_close_never_closes_inner _ _ _ _ _ _ _ _ _ _ _
                E0 E1 E2) as (Hn & Hc & _).
    split; [exact Hn |]. split; [exact Hc |].
    vm_compute in E0. injection E0 as <- <-.
    vm_compute in E1. injection E1 as <- <-.
    vm_compute in E2. injection E2 as <- <-. reflexivity.
  - vm_compute in E0. injection E0 as <- <-.
    vm_compute in E1. injection E1 as <- <-.
    vm_compute in E2. discriminate.
Defined.

Lemma drain_delivers_everything_witness :
  match BatchSink.run [BatchSink.DoWrite Background entry_a;
                       BatchSink.DoClose Background;
                       BatchSink.CloseSignals]
          (BatchSink.boot (mkTraced (observed file_next) [])
             (small_options spolicy.BackpressureBlock)) with
  | Some (y, _) =>
    exists y',
      BatchSink.run (BatchSinkTerms.drain_schedule y) y = Some (y', []) /\
      BatchSink.done (BatchSink.sink y') = true /\
      BatchSinkTerms.delivered y' = [entry_a]
  | None => False
  end.
Proof.
  match goal with |- match ?r with _ => _ end => destruct r as [[y acc] |] eqn:E end.
  - assert (Hy : BatchSink.stop (BatchSink.sink y) = true /\
                 BatchSink.at_ (BatchSink.work y) = BatchSink.Running /\
                 BatchSinkTerms.delivered y ++ BatchSinkTerms.pending y = [entry_a])
      by (vm_compute in E; injection E as <- <-; repeat split).
    destruct Hy as (Hstop & Hat & Hall).
    destruct (BatchSinkProps.drain_delivers_everything y Hstop)
      as (y' & Hrun & _ & Hdone & Hdel & _).
    + rewrite Hat. discriminate.
    + destruct Hdel as (_ & _ & Hdel); [rewrite Hat; discriminate |].
      exists y'. split; [exact Hrun |]. split; [exact Hdone |]. congruence.
  - vm_compute in E. discriminate.
Defined.

(** Two entries accepted, then a [Close] up to [close(s.stop)], the worker
    still in its outer loop: the inner sink has received nothing. *)
Lemma without_limits_delivery_waits_witness :
  match BatchSink.run [BatchSink.DoWrite Background entry_a;
                       BatchSink.Worker BatchSink.OnQueue;
                       BatchSink.DoWrite Background entry_b;
                       BatchSink.DoClose Background;
                       BatchSink.CloseSignals]
          (BatchSink.boot (mkTraced (observed file_next) [])
             (BatchSink.mkOptions 1 (spolicy.mkBatch 0 0) spolicy.BackpressureBlock
                EmptyString)) with
  | Some (y, acc) =>
    BatchSink.stop (BatchSink.sink y) = true /\
    BatchSinkTerms.delivered y = [] /\ BatchSinkTerms.pending y = [entry_a; entry_b]
  | None => False
  end.
Proof.
  match goal with |- match ?r with _ => _ end => destruct r as [[y acc] |] eqn:E end.
  - assert (Hy : BatchSink.at_ (BatchSink.work y) = BatchSink.Running /\
                 BatchSink.stop (BatchSink.sink y) = true /\
                 acc = [entry_a; entry_b])
      by (vm_compute in E; injection E as <- <-; repeat split; reflexivity).
    destruct Hy as (Hat & Hstop & Hacc).
    destruct (BatchSinkProps.without_limits_delivery_waits _ _ _ _ _ E) as [Hd Hp].
    + simpl. lia.
    + simpl. lia.
    + right. exact Hat.
    + split; [exact Hstop |]. split; [exact Hd | congruence].
  - vm_compute in E. discriminate.
Defined.

Lemma accepted_entries_reach_the_file_witness :
  match BatchSink.run
          [BatchSink.DoWrite Background entry_a;
           BatchSink.Worker BatchSink.OnQueue;
           BatchSink.DoWrite Background entry_b;
           BatchSink.Worker BatchSink.OnQueue;
           BatchSink.DoWrite Background entry_c;
           BatchSink.DoClose Background;
           BatchSink.CloseSignals;
           BatchSink.Worker BatchSink.OnStop;
           BatchSink.Worker BatchSink.OnQueue;
           BatchSink.Worker BatchSink.OnDefault;
           BatchSink.Worker BatchSink.OnReturn;
           BatchSink.CloseResumes Background true]
          (BatchSink.boot (mkTraced (observed file_next) [])
             (small_options spolicy.BackpressureBlock)) with
  | Some (y, acc) =>
    exists f,
      w_dir (fst (observed (BatchSink.next (BatchSink.sink y)))) !! "app.log"%string
        = Some f /\
      f_data f = f_data RotatingFileTerms.old_file ++ concat [entry_a; entry_b; entry_c]
  | None => False
  end.
Proof.
  match goal with |- match ?r with _ => _ end => destruct r as [[y acc] |] eqn:E end.
  - assert (Hy : BatchSink.at_ (BatchSink.work y) = BatchSink.Exited /\
                 BatchSink.queue (BatchSink.sink y) = [] /\
                 acc = [entry_a; entry_b; entry_c])
      by (vm_compute in E; injection E as <- <-; repeat split).
    destruct Hy as (Hat & Hq & Hacc).
    assert (Hl : w_dir (RotatingFileTerms.aged_world ∅) !! "app.log"%string
                 = Some RotatingFileTerms.old_file) by reflexivity.
    assert (Hw : quiet SysWrite (RotatingFileTerms.aged_world ∅) = true) by reflexivity.
    destruct (accepted_entries_reach_the_file store_only
                (RotatingFileTerms.aged_world ∅) (snd (observed file_next))
                (mkHandle "app.log" RotatingFile.active_flags) RotatingFileTerms.old_file
                (small_options spolicy.BackpressureBlock) _ y acc
                eq_refl eq_refl Hl eq_refl eq_refl Hw E)
      as (_ & _ & Hall).
    destruct (Hall Hat Hq) as (f & Hf & Hdata).
    exists f. split; [exact Hf |]. rewrite Hdata, Hacc. reflexivity.
  - vm_compute in E. discriminate.
Defined.

